(** * Mood backend: resolution and caching layer

    A shallow embedding of [src/api/index.js]: the key normaliser, the
    poster resolver ([fetchItunesPoster]), the video resolver (the
    [POST /resolve/music-url] handler with its one-hour cache) and the
    podcast resolver (the [GET /mood/podcasts] handler), together with the
    engine built-ins they call ([trim], [slice], [encodeURIComponent],
    [String.prototype.replace], [RegExp.prototype.exec],
    [URLSearchParams]).

    JavaScript strings are sequences of UTF-16 code units; they are
    modelled as [list N].  The in-memory caches (objects created with
    [Object.create(null)]) are finite maps from strings. *)

From stdpp Require Import base option list strings gmap.
From Stdlib Require Import NArith ZArith Lia.

Local Open Scope N_scope.

(** ** JavaScript strings *)

Module JsString.

Abbreviation jsstring := (list N).

(** An ASCII literal as a JavaScript string. *)
Definition js (s : string) : jsstring :=
  (fun c => N.of_nat (Ascii.nat_of_ascii c)) <$> String.list_ascii_of_string s.

(** The double quote, U+0022. *)
Definition dquote : N := 34.

(** [!s] is true exactly for the empty string. *)
Definition truthy (s : jsstring) : bool :=
  match s with [] => false | _ :: _ => true end.

(** [a || b] on strings. *)
Definition orElse (a b : jsstring) : jsstring := if truthy a then a else b.

(** [v || ""] followed by [String(...)], for a value that is a string,
    [undefined] or [null] ([None] stands for the last two). *)
Definition orEmpty (v : option jsstring) : jsstring :=
  match v with
  | Some s => orElse s []
  | None => []
  end.

(** Interpolation of a string-or-null value in a template literal. *)
Definition interpolate (v : option jsstring) : jsstring :=
  match v with
  | Some s => s
  | None => js "null"
  end.

(** WhiteSpace and LineTerminator code units of ECMA-262, the ones
    [String.prototype.trim] strips. *)
Definition isWhiteSpace (c : N) : bool :=
  (c =? 0x09) || (c =? 0x0A) || (c =? 0x0B) || (c =? 0x0C) || (c =? 0x0D)
  || (c =? 0x20) || (c =? 0xA0) || (c =? 0x1680)
  || ((0x2000 <=? c) && (c <=? 0x200A))
  || (c =? 0x2028) || (c =? 0x2029) || (c =? 0x202F) || (c =? 0x205F)
  || (c =? 0x3000) || (c =? 0xFEFF).

(** A character that [trim] keeps. *)
Definition isInk (c : N) : bool := negb (isWhiteSpace c).

Fixpoint trimStart (s : jsstring) : jsstring :=
  match s with
  | [] => []
  | c :: s' => if isWhiteSpace c then trimStart s' else s
  end.

Definition trimEnd (s : jsstring) : jsstring :=
  reverse (trimStart (reverse s)).

Definition trim (s : jsstring) : jsstring := trimEnd (trimStart s).

(** [s.slice(0, n)]. *)
Definition slice0 (n : nat) (s : jsstring) : jsstring := take n s.

Fixpoint startsWith (p s : jsstring) : bool :=
  match p, s with
  | [], _ => true
  | _ :: _, [] => false
  | a :: p', b :: s' => (a =? b) && startsWith p' s'
  end.

(** Index of the first occurrence of [p] in [s]. *)
Fixpoint indexOf (p s : jsstring) {struct s} : option nat :=
  if startsWith p s then Some 0%nat
  else match s with
       | [] => None
       | _ :: s' => S <$> indexOf p s'
       end.

Definition includes (p s : jsstring) : bool :=
  match indexOf p s with Some _ => true | None => false end.

(** [s.replace(/p/, r)] for a pattern [p] of literal characters, without
    the global flag, and a replacement [r] without [$]: the first
    occurrence is replaced, a string without occurrence is unchanged. *)
Fixpoint replaceFirst (p r s : jsstring) {struct s} : jsstring :=
  if startsWith p s then r ++ drop (length p) s
  else match s with
       | [] => []
       | c :: s' => c :: replaceFirst p r s'
       end.

Definition isAsciiUnit (c : N) : bool := c <? 0x80.

(** Case mapping of the Basic Latin block: A-Z to a-z. *)
Definition asciiLower (c : N) : N :=
  if (0x41 <=? c) && (c <=? 0x5A) then c + 0x20 else c.

(** The case mapping restricted to strings of Basic Latin. *)
Definition asciiLowerCase (s : jsstring) : jsstring := asciiLower <$> s.

End JsString.

Import JsString.

(** ** Completions: a normal value or a thrown exception *)

Inductive Exn : Set :=
| URIError      (* encodeURIComponent on an unpaired surrogate *)
| NetworkError  (* fetch rejected: DNS, connection, transport *)
| AbortError    (* fetch aborted by the 8 second AbortController *)
| SyntaxError.  (* the response body could not be parsed *)

Inductive Completion (A : Type) : Type :=
| Normal (a : A)
| Throw (e : Exn).

Arguments Normal {A} a.
Arguments Throw {A} e.

Definition bind {A B : Type} (c : Completion A) (k : A -> Completion B)
  : Completion B :=
  match c with
  | Normal a => k a
  | Throw e => Throw e
  end.

Notation "'do' x <- c ; k" := (bind c (fun x => k))
  (at level 10, x name, c at level 100, k at level 200,
   format "'[v' 'do'  x  <-  c ; '/' k ']'").

(** ** Percent-encoding *)

Module Uri.

Definition isLeadSurrogate (c : N) : bool := (0xD800 <=? c) && (c <=? 0xDBFF).
Definition isTrailSurrogate (c : N) : bool := (0xDC00 <=? c) && (c <=? 0xDFFF).

Definition isSurrogate (c : N) : bool :=
  isLeadSurrogate c || isTrailSurrogate c.

(** The code point of a surrogate pair. *)
Definition pairCodePoint (hi lo : N) : N :=
  (hi - 0xD800) * 0x400 + (lo - 0xDC00) + 0x10000.

(** The UTF-8 octets of a code point. *)
Definition utf8 (cp : N) : list N :=
  if cp <? 0x80 then [cp]
  else if cp <? 0x800 then
    [N.lor 0xC0 (N.shiftr cp 6); N.lor 0x80 (N.land cp 0x3F)]
  else if cp <? 0x10000 then
    [N.lor 0xE0 (N.shiftr cp 12);
     N.lor 0x80 (N.land (N.shiftr cp 6) 0x3F);
     N.lor 0x80 (N.land cp 0x3F)]
  else
    [N.lor 0xF0 (N.shiftr cp 18);
     N.lor 0x80 (N.land (N.shiftr cp 12) 0x3F);
     N.lor 0x80 (N.land (N.shiftr cp 6) 0x3F);
     N.lor 0x80 (N.land cp 0x3F)].

Definition hexDigit (d : N) : N := if d <? 10 then 0x30 + d else 0x37 + d.

(** ["%XX"], upper-case hexadecimal. *)
Definition pct (octet : N) : jsstring :=
  [0x25; hexDigit (N.shiftr octet 4); hexDigit (N.land octet 0xF)].

Definition pctAll (octets : list N) : jsstring := octets ≫= pct.

Definition isAlnum (c : N) : bool :=
  ((0x30 <=? c) && (c <=? 0x39)) || ((0x41 <=? c) && (c <=? 0x5A))
  || ((0x61 <=? c) && (c <=? 0x7A)).

(** Characters [encodeURIComponent] leaves alone: alphanumerics and
    [- _ . ! ~ * ' ( )]. *)
Definition isUnescaped (c : N) : bool :=
  isAlnum c || (c =? 0x2D) || (c =? 0x5F) || (c =? 0x2E) || (c =? 0x21)
  || (c =? 0x7E) || (c =? 0x2A) || (c =? 0x27) || (c =? 0x28) || (c =? 0x29).

(** [encodeURIComponent]: the Encode operation of ECMA-262.  A code unit
    outside the unescaped set is read as a code point; an unpaired
    surrogate throws a URIError, any other code point is written as the
    percent-escapes of its UTF-8 octets. *)
Fixpoint encodeURIComponent (s : jsstring) : Completion jsstring :=
  match s with
  | [] => Normal []
  | c :: rest =>
    if isUnescaped c then
      do r <- encodeURIComponent rest; Normal (c :: r)
    else if isLeadSurrogate c then
      match rest with
      | d :: rest' =>
        if isTrailSurrogate d then
          do r <- encodeURIComponent rest';
          Normal (pctAll (utf8 (pairCodePoint c d)) ++ r)
        else Throw URIError
      | [] => Throw URIError
      end
    else if isTrailSurrogate c then Throw URIError
    else do r <- encodeURIComponent rest; Normal (pctAll (utf8 c) ++ r)
  end.

(** Conversion to a sequence of scalar values, as [URLSearchParams] does
    with its arguments: an unpaired surrogate becomes U+FFFD. *)
Fixpoint toScalarValues (s : jsstring) : list N :=
  match s with
  | [] => []
  | c :: rest =>
    if isLeadSurrogate c then
      match rest with
      | d :: rest' =>
        if isTrailSurrogate d then pairCodePoint c d :: toScalarValues rest'
        else 0xFFFD :: toScalarValues rest
      | [] => [0xFFFD]
      end
    else if isTrailSurrogate c then 0xFFFD :: toScalarValues rest
    else c :: toScalarValues rest
  end.

(** The application/x-www-form-urlencoded byte serialiser. *)
Definition formByte (b : N) : jsstring :=
  if b =? 0x20 then [0x2B]
  else if isAlnum b || (b =? 0x2A) || (b =? 0x2D) || (b =? 0x2E) || (b =? 0x5F)
  then [b] else pct b.

Definition formEncode (s : jsstring) : jsstring :=
  (toScalarValues s ≫= utf8) ≫= formByte.

(** [new URLSearchParams({...}).toString()]. *)
Fixpoint urlSearchParams (fields : list (jsstring * jsstring)) : jsstring :=
  match fields with
  | [] => []
  | [(k, v)] => formEncode k ++ js "=" ++ formEncode v
  | (k, v) :: rest =>
    formEncode k ++ js "=" ++ formEncode v ++ js "&" ++ urlSearchParams rest
  end.

End Uri.

Import Uri.

(** ** The outside world

    A handler run starts from a cache, may send requests and ends with a
    result and a cache.  The network is a function from the requested URL
    to what [fetch] gives back: a rejection ([NetworkError] for a
    transport failure, [AbortError] when the 8 second timer aborts the
    request) or a response with its status flag and the completion of
    reading its body. *)

Record Response (B : Type) : Type := mkResponse {
  ok : bool;
  body : Completion B
}.

Arguments mkResponse {B} ok body.
Arguments ok {B} r.
Arguments body {B} r.

Abbreviation Network B := (jsstring -> Completion (Response B)).

Record Run (S A : Type) : Type := mkRun {
  result : A;
  store : S;
  fetched : list jsstring
}.

Arguments mkRun {S A} result store fetched.
Arguments result {S A} r.
Arguments store {S A} r.
Arguments fetched {S A} r.

(** One candidate of a catalog song search; [None] is a missing or null
    [artworkUrl100]. *)
Record Candidate : Type := mkCandidate {
  artworkUrl100 : option jsstring
}.

(** The parsed body of a catalog song search; [None] when [data.results]
    is not an array. *)
Record CatalogData : Type := mkCatalogData {
  results : option (list Candidate)
}.

(** One element of [data.results] of a catalog podcast search, with the
    fields the mapping reads; [None] is a missing or null field. *)
Module ItunesPodcast.

Record t : Type := mk {
  collectionId : option Z;
  collectionName : option jsstring;
  artistName : option jsstring;
  artworkUrl600 : option jsstring;
  artworkUrl100 : option jsstring;
  trackViewUrl : option jsstring;
  feedUrl : option jsstring
}.

End ItunesPodcast.

(** The parsed body of a catalog podcast search; [None] when
    [data.results] is not an array. *)
Record PodcastData : Type := mkPodcastData {
  podcastResults : option (list ItunesPodcast.t)
}.

(** A podcast as the handler returns it. *)
Record Podcast : Type := mkPodcast {
  collectionId : option Z;
  title : option jsstring;
  author : option jsstring;
  artworkUrl : option jsstring;
  trackViewUrl : option jsstring;
  feedUrl : option jsstring
}.

(** The members of the [seen] set: numbers and strings, which a [Set]
    never identifies with each other. *)
Inductive SetKey : Type :=
| NumKey (n : Z)
| StrKey (s : jsstring).

#[global] Instance SetKey_eq_dec : EqDecision SetKey.
Proof. solve_decision. Defined.

#[global] Instance SetKey_countable : Countable SetKey.
Proof.
  refine (inj_countable'
    (fun k => match k with NumKey n => inl n | StrKey s => inr s end)
    (fun x => match x with inl n => NumKey n | inr s => StrKey s end) _).
  intros []; reflexivity.
Defined.

(** A cached list of podcasts [{ value, expiresAt }]. *)
Record PodcastEntry : Type := mkPodcastEntry {
  value : list Podcast;
  podcastExpiresAt : Z
}.

(** The reply of [GET /mood/podcasts]: status 400 with an empty list, or
    status 200 with a list. *)
Inductive PodcastReply : Type :=
| Status400
| Json (l : list Podcast).

(** A property read from a parsed JSON object, when it is a string, null
    or missing. *)
Inductive Field : Type :=
| Undefined
| Null
| Str (s : jsstring).

(** The value as the poster lookup sees it through [v || ""]. *)
Definition fieldValue (f : Field) : option jsstring :=
  match f with
  | Str s => Some s
  | Undefined | Null => None
  end.

(** The value interpolated in a template literal. *)
Definition fieldText (f : Field) : jsstring :=
  match f with
  | Undefined => js "undefined"
  | Null => js "null"
  | Str s => s
  end.

(** A song as the generator returns it. *)
Module Song.

Record t : Type := mk {
  title : Field;
  artist : Field
}.

End Song.

(** An element of the reply of [GET /mood/songs]. *)
Module SongEntry.

Record t : Type := mk {
  title : Field;
  artist : Field;
  youtubeSearchUrl : jsstring;
  posterUrl : jsstring
}.

End SongEntry.

(** The reply of [GET /mood/songs]: status 400 with an empty list, or
    status 200 with a list. *)
Inductive SongsReply : Type :=
| SongsStatus400
| SongsJson (l : list SongEntry.t).

(** What the environment guard does with a request. *)
Inductive GuardResult : Type :=
| PassOn
| ConfigurationError (message : jsstring).

(** A poster lookup after its synchronous part: settled, or waiting for
    the answer to the request it has sent. *)
Inductive Lookup : Type :=
| Settled (c : Completion jsstring)
| Waiting (k url : jsstring) (title artist : option jsstring).

(** ** More built-ins *)

(** Every code unit of a JavaScript string is below 2^16. *)
Definition isCodeUnit (c : N) : bool := c <? 0x10000.

(** The characters of a percent-encoded component: the unescaped ones and
    the percent sign. *)
Definition isUriChar (c : N) : bool := isUnescaped c || (c =? 0x25).

(** [String.prototype.isWellFormed]: no unpaired surrogate. *)
Fixpoint isWellFormed (s : jsstring) : bool :=
  match s with
  | [] => true
  | c :: rest =>
    if isLeadSurrogate c then
      match rest with
      | d :: rest' => isTrailSurrogate d && isWellFormed rest'
      | [] => false
      end
    else negb (isTrailSurrogate c) && isWellFormed rest
  end.

(** Canonicalisation of a code unit for a case-insensitive pattern
    without the unicode flag, as far as Basic Latin pattern characters can
    tell: a-z go to A-Z, and no other code unit goes to Basic Latin. *)
Definition asciiUpper (c : N) : N :=
  if (0x61 <=? c) && (c <=? 0x7A) then c - 0x20 else c.

Fixpoint startsWithCI (p s : jsstring) : bool :=
  match p, s with
  | [], _ => true
  | _ :: _, [] => false
  | a :: p', b :: s' => (asciiUpper a =? asciiUpper b) && startsWithCI p' s'
  end.

(** [s.replace(/p/g, "")] for a pattern [p] of [n] literal characters,
    [startsHere] telling whether a match starts at the head of a string;
    [skip] characters of a match are still to be dropped. *)
Fixpoint removeMatches (startsHere : jsstring -> bool) (n skip : nat)
    (s : jsstring) : jsstring :=
  match s with
  | [] => []
  | c :: s' =>
    match skip with
    | S k => removeMatches startsHere n k s'
    | O =>
      if startsHere s then removeMatches startsHere n (n - 1) s'
      else c :: removeMatches startsHere n 0 s'
    end
  end.

(** Index of the last occurrence of the code unit [c]. *)
Fixpoint lastIndexOfUnit (c : N) (s : jsstring) : option nat :=
  match s with
  | [] => None
  | d :: s' =>
    match lastIndexOfUnit c s' with
    | Some j => Some (S j)
    | None => if d =? c then Some 0%nat else None
    end
  end.

(** [s.match(/\[[\s\S]*\]/)]: from the first opening bracket to the last
    closing bracket after it. *)
Definition matchArray (s : jsstring) : option jsstring :=
  match indexOf [0x5B] s with
  | None => None
  | Some i =>
    let rest := drop (S i) s in
    match lastIndexOfUnit 0x5D rest with
    | None => None
    | Some j => Some (0x5B :: take (S j) rest)
    end
  end.

(** [text.replace(/```json/gi, "").replace(/```/g, "").trim()]. *)
Definition cleanReply (text : jsstring) : jsstring :=
  trim (removeMatches (startsWith (js "```")) 3 0
          (removeMatches (startsWithCI (js "```json")) 7 0 text)).

(** [l.join(sep)]. *)
Fixpoint joinWith (sep : jsstring) (l : list jsstring) : jsstring :=
  match l with
  | [] => []
  | [x] => x
  | x :: rest => x ++ sep ++ joinWith sep rest
  end.

(** The characters of a form-encoded value: alphanumerics, [* - . _], the
    plus sign for a space and the percent sign of an escape. *)
Definition isFormChar (c : N) : bool :=
  isAlnum c || (c =? 0x2A) || (c =? 0x2D) || (c =? 0x2E) || (c =? 0x5F)
  || (c =? 0x2B) || (c =? 0x25).

Section Engine.

(** [String.prototype.toLowerCase] is the engine's Unicode case mapping;
    the development is parametric in it. *)
Variable toLowerCase : jsstring -> jsstring.

(** ** Constants *)

Definition ITUNES_COUNTRY : jsstring := js "us".

Definition POSTER_PLACEHOLDER : jsstring :=
  js "https://dummyimage.com/600x600/111/fff&text=No+Cover".

(** ** Poster cache *)

Definition keyOf (title artist : option jsstring) : jsstring :=
  toLowerCase (trim (orEmpty title)) ++ js " - "
  ++ toLowerCase (trim (orEmpty artist)).

Definition toHiResArtwork (url100 : option jsstring) : option jsstring :=
  match url100 with
  | None => None
  | Some u =>
    if truthy u
    then Some (replaceFirst (js "/100x100bb.") (js "/600x600bb.") u)
    else None
  end.

(** The text shown on a placeholder image. *)
Definition placeholderText (title artist : option jsstring) : jsstring :=
  orElse (trim (trim (orEmpty title) ++ js " " ++ trim (orEmpty artist)))
         (js "No Cover").

Definition buildPlaceholderPoster (title artist : option jsstring)
  : Completion jsstring :=
  let text := placeholderText title artist in
  do e <- encodeURIComponent (slice0 60 text);
  Normal (js "https://dummyimage.com/600x600/111/fff&text=" ++ e).

(** [buildPlaceholderPoster(title, artist) || POSTER_PLACEHOLDER]. *)
Definition placeholderOrDefault (title artist : option jsstring)
  : Completion jsstring :=
  do ph <- buildPlaceholderPoster title artist;
  Normal (orElse ph POSTER_PLACEHOLDER).

(** [x => x?.artworkUrl100], as a truth value. *)
Definition hasArtwork (x : Candidate) : bool :=
  match artworkUrl100 x with
  | Some u => truthy u
  | None => false
  end.

(** [results.find((x) => x?.artworkUrl100)?.artworkUrl100 || null]. *)
Definition firstArtwork (rs : list Candidate) : option jsstring :=
  match List.find hasArtwork rs with
  | Some x => artworkUrl100 x
  | None => None
  end.

Definition posterSearchUrl (term : jsstring) : jsstring :=
  js "https://itunes.apple.com/search?"
  ++ urlSearchParams [(js "term", term); (js "entity", js "song");
                      (js "limit", js "5"); (js "country", ITUNES_COUNTRY)].

(** The [try] block of [fetchItunesPoster]: the value it stores and
    returns, or the exception that reaches the [catch]. *)
Definition posterAttempt (net : Network CatalogData) (url : jsstring)
    (title artist : option jsstring) : Completion jsstring :=
  do r <- net url;
  if negb (ok r) then placeholderOrDefault title artist
  else
    do data <- body r;
    let rs := match results data with Some l => l | None => [] end in
    match toHiResArtwork (firstArtwork rs) with
    | Some posterUrl =>
      if truthy posterUrl then Normal posterUrl
      else placeholderOrDefault title artist
    | None => placeholderOrDefault title artist
    end.

(** [posterCache[k] = v; return v], or the exception leaving the function
    with the cache as it was. *)
Definition storePoster (posterCache : gmap jsstring jsstring) (k : jsstring)
    (sent : list jsstring) (c : Completion jsstring)
  : Run (gmap jsstring jsstring) (Completion jsstring) :=
  match c with
  | Normal v => mkRun (Normal v) (<[k:=v]> posterCache) sent
  | Throw e => mkRun (Throw e) posterCache sent
  end.

Definition fetchItunesPoster (posterCache : gmap jsstring jsstring)
    (net : Network CatalogData) (title artist : option jsstring)
  : Run (gmap jsstring jsstring) (Completion jsstring) :=
  let k := keyOf title artist in
  match posterCache !! k with
  | Some v => mkRun (Normal v) posterCache []
  | None =>
    let term := trim (orEmpty title ++ js " " ++ orEmpty artist) in
    if negb (truthy term) then
      storePoster posterCache k [] (buildPlaceholderPoster title artist)
    else
      let url := posterSearchUrl term in
      storePoster posterCache k [url]
        match posterAttempt net url title artist with
        | Normal v => Normal v
        | Throw _ => placeholderOrDefault title artist
        end
  end.

(** ** Video search URL *)

(** Called by the resolve handler with two strings. *)
Definition buildYoutubeSearchUrl (title artist : jsstring) : jsstring :=
  let q := trim (title ++ js " " ++ artist) in
  js "https://www.youtube.com/results?"
  ++ urlSearchParams [(js "search_query", q)].

(** ** Resolve cache *)

Record VideoResolution : Type := mkResolution {
  youtubeUrl : option jsstring;
  musicUrl : option jsstring
}.

(** A cache entry [{ youtubeUrl, musicUrl, expiresAt }]. *)
Record ResolveEntry : Type := mkEntry {
  resolution : VideoResolution;
  expiresAt : Z
}.

Definition RESOLVE_CACHE_TTL_MS : Z := 60 * 60 * 1000.

(** [now] is the value of [Date.now()] at the call. *)
Definition getFromResolveCache (resolveCache : gmap jsstring ResolveEntry)
    (now : Z) (key : jsstring)
  : option VideoResolution * gmap jsstring ResolveEntry :=
  if negb (truthy key) then (None, resolveCache)
  else
    match resolveCache !! key with
    | None => (None, resolveCache)
    | Some entry =>
      if (expiresAt entry <=? now)%Z then (None, delete key resolveCache)
      else (Some (resolution entry), resolveCache)
    end.

Definition setResolveCache (resolveCache : gmap jsstring ResolveEntry)
    (now : Z) (key : jsstring) (youtubeUrl musicUrl : option jsstring)
  : gmap jsstring ResolveEntry :=
  if negb (truthy key) then resolveCache
  else <[key := mkEntry (mkResolution youtubeUrl musicUrl)
                        (now + RESOLVE_CACHE_TTL_MS)%Z]> resolveCache.

(** The page text, or [None] for [null]: a rejected fetch, a non-success
    status or an unreadable body. *)
Definition fetchYoutubeSearchHtml (net : Network jsstring) (url : jsstring)
  : option jsstring :=
  match net url with
  | Throw _ => None
  | Normal res =>
    if negb (ok res) then None
    else match body res with
         | Normal text => Some text
         | Throw _ => None
         end
  end.

(** ** The video identifier pattern *)

(** The literal prefix of the pattern: a quote, [videoId], a quote, a
    colon and a quote. *)
Definition videoIdMarker : jsstring :=
  dquote :: js "videoId" ++ [dquote; 0x3A; dquote].

(** The class [[a-zA-Z0-9_-]]. *)
Definition isIdChar (c : N) : bool := isAlnum c || (c =? 0x5F) || (c =? 0x2D).

(** A match of the whole pattern at the start of [s]: the marker, eleven
    characters of the class and a closing quote; the captured group. *)
Definition matchVideoId (s : jsstring) : option jsstring :=
  if startsWith videoIdMarker s then
    let rest := drop (length videoIdMarker) s in
    let id := take 11 rest in
    if (length id =? 11)%nat && forallb isIdChar id
       && startsWith [dquote] (drop 11 rest)
    then Some id else None
  else None.

(** The leftmost match in [s], which starts at index [i] of the page:
    the captured group and the index just after the 23 matched
    characters. *)
Fixpoint searchVideoId (s : jsstring) (i : nat) {struct s}
  : option (jsstring * nat) :=
  match matchVideoId s with
  | Some id => Some (id, (i + 23)%nat)
  | None =>
    match s with
    | [] => None
    | _ :: s' => searchVideoId s' (S i)
    end
  end.

(** [re.exec(html)] for the global pattern with the given [lastIndex]. *)
Definition regexExec (html : jsstring) (lastIndex : nat)
  : option (jsstring * nat) :=
  searchVideoId (drop lastIndex html) lastIndex.

(** The [while] loop of [extractFirstVideoId]; every iteration moves
    [lastIndex] forward, so [S (length html)] iterations are enough. *)
Fixpoint extractLoop (fuel : nat) (html : jsstring) (lastIndex : nat)
  : option jsstring :=
  match fuel with
  | O => None
  | S fuel' =>
    match regexExec html lastIndex with
    | None => None
    | Some (id, next) =>
      if truthy id && (length id =? 11)%nat then Some id
      else extractLoop fuel' html next
    end
  end.

Definition extractFirstVideoId (html : option jsstring) : option jsstring :=
  match html with
  | None => None
  | Some h =>
    if negb (truthy h) then None
    else extractLoop (S (length h)) h 0
  end.

(** ** POST /resolve/music-url *)

(** The JSON body; a field is [None] when it is missing or not a string. *)
Record ResolveBody : Type := mkBody {
  youtubeSearchUrl : option jsstring;
  query : option jsstring
}.

Inductive ResolveReply : Type :=
| BadRequest
| Resolved (r : VideoResolution).

(** [typeof v === "string" ? v.trim() : ""]. *)
Definition trimmedString (v : option jsstring) : jsstring :=
  match v with
  | Some s => trim s
  | None => []
  end.

(** [tRead] and [tWrite] are the values of [Date.now()] when the cache is
    read and when it is written. *)
Definition resolveMusicUrl (resolveCache : gmap jsstring ResolveEntry)
    (tRead tWrite : Z) (net : Network jsstring) (req : ResolveBody)
  : Run (gmap jsstring ResolveEntry) ResolveReply :=
  let youtubeSearchUrlInput := trimmedString (youtubeSearchUrl req) in
  let queryInput := trimmedString (query req) in
  if negb (truthy youtubeSearchUrlInput) && negb (truthy queryInput)
  then mkRun BadRequest resolveCache []
  else
    let cacheKey := orElse queryInput youtubeSearchUrlInput in
    match getFromResolveCache resolveCache tRead cacheKey with
    | (Some cached, cache1) => mkRun (Resolved cached) cache1 []
    | (None, cache1) =>
      let url := orElse youtubeSearchUrlInput
                        (buildYoutubeSearchUrl queryInput []) in
      let html := fetchYoutubeSearchHtml net url in
      match extractFirstVideoId html with
      | None =>
        mkRun (Resolved (mkResolution None None))
              (setResolveCache cache1 tWrite cacheKey None None) [url]
      | Some videoId =>
        if negb (truthy videoId) then
          mkRun (Resolved (mkResolution None None))
                (setResolveCache cache1 tWrite cacheKey None None) [url]
        else
          let youtubeUrl := js "https://www.youtube.com/watch?v=" ++ videoId in
          let musicUrl := js "https://music.youtube.com/watch?v=" ++ videoId in
          mkRun (Resolved (mkResolution (Some youtubeUrl) (Some musicUrl)))
                (setResolveCache cache1 tWrite cacheKey
                                 (Some youtubeUrl) (Some musicUrl)) [url]
      end
    end.

(** ** Podcasts *)

Definition PODCAST_DEFAULT_LIMIT : nat := 20.

Definition PODCAST_CACHE_TTL_MS : Z := 10 * 60 * 1000.

Definition getPodcastCache (podcastCache : gmap jsstring PodcastEntry)
    (now : Z) (key : jsstring)
  : option (list Podcast) * gmap jsstring PodcastEntry :=
  match podcastCache !! key with
  | None => (None, podcastCache)
  | Some e =>
    if (podcastExpiresAt e <=? now)%Z then (None, delete key podcastCache)
    else (Some (value e), podcastCache)
  end.

Definition setPodcastCache (podcastCache : gmap jsstring PodcastEntry)
    (now : Z) (key : jsstring) (v : list Podcast)
  : gmap jsstring PodcastEntry :=
  <[key := mkPodcastEntry v (now + PODCAST_CACHE_TTL_MS)%Z]> podcastCache.

(** [v || null] on a string-or-null value. *)
Definition orNull (v : option jsstring) : option jsstring :=
  match v with
  | Some s => if truthy s then Some s else None
  | None => None
  end.

(** The object built by the [results.map] of
    [fetchItunesPodcastsByTerm]. *)
Definition toPodcast (p : ItunesPodcast.t) : Podcast :=
  {| collectionId := ItunesPodcast.collectionId p;
     title := ItunesPodcast.collectionName p;
     author := ItunesPodcast.artistName p;
     artworkUrl :=
       match orNull (ItunesPodcast.artworkUrl600 p) with
       | Some u => Some u
       | None => orNull (ItunesPodcast.artworkUrl100 p)
       end;
     trackViewUrl := orNull (ItunesPodcast.trackViewUrl p);
     feedUrl := orNull (ItunesPodcast.feedUrl p) |}.

Definition podcastSearchUrl (t country limit : jsstring) : jsstring :=
  js "https://itunes.apple.com/search?"
  ++ urlSearchParams [(js "term", t); (js "media", js "podcast");
                      (js "entity", js "podcast"); (js "limit", limit);
                      (js "country", country)].

(** The podcasts found for one term and the requests sent; [limit] is
    [String(limit)]. *)
Definition fetchItunesPodcastsByTerm (net : Network PodcastData)
    (term country limit : jsstring) : list Podcast * list jsstring :=
  let t := trim (orElse term []) in
  if negb (truthy t) then ([], [])
  else
    let url := podcastSearchUrl t country limit in
    match net url with
    | Throw _ => ([], [url])
    | Normal r =>
      if negb (ok r) then ([], [url])
      else match body r with
           | Throw _ => ([], [url])
           | Normal data =>
             let rs :=
               match podcastResults data with Some l => l | None => [] end in
             (toPodcast <$> rs, [url])
           end
    end.

(** The loop over the search terms: results are appended in order and no
    further term is searched once twice the limit is reached. *)
Fixpoint gatherPodcasts (net : Network PodcastData) (terms : list jsstring)
    (all : list Podcast) (sent : list jsstring)
  : list Podcast * list jsstring :=
  match terms with
  | [] => (all, sent)
  | term :: terms' =>
    let (chunk, urls) :=
      fetchItunesPodcastsByTerm net term ITUNES_COUNTRY (js "10") in
    let all' := all ++ chunk in
    if (PODCAST_DEFAULT_LIMIT * 2 <=? length all')%nat
    then (all', sent ++ urls)
    else gatherPodcasts net terms' all' (sent ++ urls)
  end.

(** [p.collectionId || `${p.title}-${p.author}`]: the number when it is
    not null and not 0, else the joined text, where null prints as
    [null]. *)
Definition idOf (p : Podcast) : SetKey :=
  let joined := StrKey (interpolate (title p) ++ js "-" ++ interpolate (author p)) in
  match collectionId p with
  | Some n => if (n =? 0)%Z then joined else NumKey n
  | None => joined
  end.

(** [!id]. *)
Definition falsyKey (id : SetKey) : bool :=
  match id with
  | NumKey n => (n =? 0)%Z
  | StrKey s => negb (truthy s)
  end.

(** [!p.title || !p.trackViewUrl]. *)
Definition unusable (p : Podcast) : bool :=
  match orNull (title p), orNull (trackViewUrl p) with
  | Some _, Some _ => false
  | _, _ => true
  end.

(** The dedupe loop: [seen] and [unique] are the set and the array as
    they stand before the remaining entries [all] are visited. *)
Fixpoint dedupeLoop (all : list Podcast) (seen : gset SetKey)
    (unique : list Podcast) : list Podcast :=
  match all with
  | [] => unique
  | p :: rest =>
    let id := idOf p in
    if falsyKey id || bool_decide (id ∈ seen)
    then dedupeLoop rest seen unique
    else
      let seen' := {[id]} ∪ seen in
      if unusable p then dedupeLoop rest seen' unique
      else
        let unique' := unique ++ [p] in
        if (PODCAST_DEFAULT_LIMIT <=? length unique')%nat then unique'
        else dedupeLoop rest seen' unique'
  end.

Definition dedupeUsable (all : list Podcast) : list Podcast :=
  dedupeLoop all ∅ [].

(** The handler.  [ai] stands for [generatePodcastTermsWithAI]: the
    terms it returns for a mood, or the exception of a failed call;
    [mood] is [None] when the query has no [mood]. *)
Definition moodPodcasts (podcastCache : gmap jsstring PodcastEntry)
    (tRead tWrite : Z) (ai : jsstring -> Completion (list jsstring))
    (net : Network PodcastData) (moodParam : option jsstring)
  : Run (gmap jsstring PodcastEntry) PodcastReply :=
  let mood := trim (orEmpty moodParam) in
  if negb (truthy mood) then mkRun Status400 podcastCache []
  else
    let cacheKey := js "podcasts:" ++ toLowerCase mood in
    match getPodcastCache podcastCache tRead cacheKey with
    | (Some cached, cache1) => mkRun (Json cached) cache1 []
    | (None, cache1) =>
      match ai mood with
      | Throw _ => mkRun (Json []) cache1 []
      | Normal terms0 =>
        let terms :=
          match terms0 with
          | [] => [mood; mood ++ js " podcast"; js "mindfulness";
                   js "motivation"; js "self improvement"]
          | _ :: _ => terms0
          end in
        let (all, sent) := gatherPodcasts net terms [] [] in
        let unique := dedupeUsable all in
        mkRun (Json unique) (setPodcastCache cache1 tWrite cacheKey unique)
              sent
      end
    end.

(** ** Reachable caches

    The caches start empty and only the handlers write to them. *)

Inductive posterReachable : gmap jsstring jsstring -> Prop :=
| poster_start : posterReachable ∅
| poster_step c net title artist :
    posterReachable c ->
    posterReachable (store (fetchItunesPoster c net title artist)).

Inductive resolveReachable : gmap jsstring ResolveEntry -> Prop :=
| resolve_start : resolveReachable ∅
| resolve_step c tRead tWrite net req :
    resolveReachable c ->
    resolveReachable (store (resolveMusicUrl c tRead tWrite net req)).

Inductive podcastReachable : gmap jsstring PodcastEntry -> Prop :=
| podcast_start : podcastReachable ∅
| podcast_step c tRead tWrite ai net mood :
    podcastReachable c ->
    podcastReachable (store (moodPodcasts c tRead tWrite ai net mood)).

(** ** The specification's vocabulary *)

(** The key normaliser in the specification's words:
    [lower(trim(title)) + " - " + lower(trim(artist))], a missing input
    being the empty string. *)
Definition normalizeKey (title artist : option jsstring) : jsstring :=
  toLowerCase (trim (default [] title)) ++ js " - "
  ++ toLowerCase (trim (default [] artist)).

(** The cache key of a resolve request. *)
Definition resolveKey (req : ResolveBody) : jsstring :=
  orElse (trimmedString (query req)) (trimmedString (youtubeSearchUrl req)).

(** The page a resolve request fetches on a cache miss. *)
Definition resolveUrl (req : ResolveBody) : jsstring :=
  orElse (trimmedString (youtubeSearchUrl req))
         (buildYoutubeSearchUrl (trimmedString (query req)) []).

(** The first occurrence of the marker in [html] is at the end of [pre]
    and is followed by [tok], eleven characters of the class. *)
Definition firstMarkerThenToken (html pre tok rest : jsstring) : Prop :=
  html = pre ++ videoIdMarker ++ tok ++ rest
  /\ indexOf videoIdMarker html = Some (length pre)
  /\ length tok = 11%nat
  /\ forallb isIdChar tok = true.

(** [html] has a video-identifier token: the marker, eleven characters of
    the class and a closing quote. *)
Definition hasVideoIdToken (html : jsstring) : Prop :=
  exists pre tok rest,
    html = pre ++ videoIdMarker ++ tok ++ dquote :: rest
    /\ length tok = 11%nat
    /\ forallb isIdChar tok = true.

(** The search-page fetch failed (rejected or aborted, non-success
    status, unreadable body) or the page has no video-identifier token. *)
Inductive NoVideoFound (net : Network jsstring) (url : jsstring) : Prop :=
| fetch_rejected e :
    net url = Throw e -> NoVideoFound net url
| fetch_not_ok r :
    net url = Normal r -> ok r = false -> NoVideoFound net url
| fetch_unreadable r e :
    net url = Normal r -> ok r = true -> body r = Throw e ->
    NoVideoFound net url
| fetch_no_token r html :
    net url = Normal r -> ok r = true -> body r = Normal html ->
    ~ hasVideoIdToken html -> NoVideoFound net url.

(** The catalog search failed: transport failure or timeout, non-success
    status, or a body that cannot be parsed. *)
Inductive CatalogFailed (net : Network CatalogData) (url : jsstring) : Prop :=
| catalog_rejected e :
    net url = Throw e -> CatalogFailed net url
| catalog_not_ok r :
    net url = Normal r -> ok r = false -> CatalogFailed net url
| catalog_malformed r e :
    net url = Normal r -> ok r = true -> body r = Throw e ->
    CatalogFailed net url.

(** The search term of a poster lookup. *)
Definition posterTerm (title artist : option jsstring) : jsstring :=
  trim (orEmpty title ++ js " " ++ orEmpty artist).

(** Identity of a podcast in the specification's words: the
    [collectionId] if present, else the pair of title and author. *)
Definition specIdentity (p : Podcast)
  : Z + (option jsstring * option jsstring) :=
  match collectionId p with
  | Some n => inl n
  | None => inr (title p, author p)
  end.

(** Number of entries of [l] with the given [collectionId]. *)
Definition countId (n : Z) (l : list Podcast) : nat :=
  length (filter (fun p => collectionId p = Some n) l).

(** What every list returned by the podcast handler satisfies. *)
Definition podcastListOk (l : list Podcast) : Prop :=
  (length l <= PODCAST_DEFAULT_LIMIT)%nat
  /\ NoDup (idOf <$> l)
  /\ Forall (fun p => unusable p = false) l.

(** ** Environment guard and health *)

(** [openaiKey] is [process.env.OPENAI_API_KEY], [None] when unset. *)
Definition validateEnvVars (openaiKey : option jsstring) : list jsstring :=
  if negb (truthy (orEmpty openaiKey)) then [js "OPENAI_API_KEY"] else [].

(** The middleware in front of every route; [path] is [req.path]. *)
Definition envGuard (openaiKey : option jsstring) (path : jsstring)
  : GuardResult :=
  if bool_decide (path = js "/health") then PassOn
  else
    let missing := validateEnvVars openaiKey in
    if (0 <? length missing)%nat then
      ConfigurationError
        (js "Missing required environment variables: "
         ++ joinWith (js ", ") missing)
    else PassOn.

(** The [hasOpenAIKey] flag of [GET /health]. *)
Definition hasOpenAIKey (openaiKey : option jsstring) : bool :=
  truthy (orEmpty openaiKey).

(** ** The generators

    The chat completion is outside the program: [reply] is the outcome of
    the call, the text of the first choice ([None] when there is none) or
    the exception of a failed call; [parse] is [JSON.parse] followed by
    the [Array.isArray] test, [None] for a value that is not an array. *)

Definition generateSongsWithAI (reply : Completion (option jsstring))
    (parse : jsstring -> Completion (option (list Song.t)))
  : Completion (list Song.t) :=
  do content <- reply;
  match content with
  | None => Normal []
  | Some text =>
    if negb (truthy text) then Normal []
    else
      match matchArray (cleanReply text) with
      | None => Normal []
      | Some m =>
        match parse m with
        | Normal (Some parsed) => Normal parsed
        | Normal None => Normal []
        | Throw _ => Normal []
        end
      end
  end.

(** [arr.map((s) => String(s || "").trim()).filter(Boolean).slice(0, 5)]
    on an array of strings and nulls. *)
Definition cleanTerms (arr : list (option jsstring)) : list jsstring :=
  take 5 (List.filter truthy ((fun s => trim (orEmpty s)) <$> arr)).

Definition generatePodcastTermsWithAI (reply : Completion (option jsstring))
    (parse : jsstring -> Completion (option (list (option jsstring))))
  : Completion (list jsstring) :=
  do content <- reply;
  match content with
  | None => Normal []
  | Some text =>
    if negb (truthy text) then Normal []
    else
      match matchArray (cleanReply text) with
      | None => Normal []
      | Some m =>
        match parse m with
        | Normal (Some arr) => Normal (cleanTerms arr)
        | Normal None => Normal []
        | Throw _ => Normal []
        end
      end
  end.

(** ** GET /mood/songs

    The handler maps an asynchronous callback over the songs and awaits
    all of them.  Every callback runs [fetchItunesPoster] up to its first
    [await] before the next one starts: the cache is read, a blank lookup
    is stored, any other miss sends its request.  The answers arrive
    later, in any order, and each one ends with its own write to the
    cache. *)

(** [fetchItunesPoster] up to the first [await]. *)
Definition startPoster (posterCache : gmap jsstring jsstring)
    (title artist : option jsstring)
  : Lookup * gmap jsstring jsstring :=
  let k := keyOf title artist in
  match posterCache !! k with
  | Some v => (Settled (Normal v), posterCache)
  | None =>
    let term := trim (orEmpty title ++ js " " ++ orEmpty artist) in
    if negb (truthy term) then
      let r := storePoster posterCache k []
                 (buildPlaceholderPoster title artist) in
      (Settled (result r), store r)
    else (Waiting k (posterSearchUrl term) title artist, posterCache)
  end.

(** [fetchItunesPoster] from the answer of the request on, with the cache
    as it is by then. *)
Definition finishPoster (posterCache : gmap jsstring jsstring)
    (net : Network CatalogData) (l : Lookup)
  : Completion jsstring * gmap jsstring jsstring :=
  match l with
  | Settled c => (c, posterCache)
  | Waiting k url title artist =>
    let r := storePoster posterCache k [url]
               match posterAttempt net url title artist with
               | Normal v => Normal v
               | Throw _ => placeholderOrDefault title artist
               end in
    (result r, store r)
  end.

(** The request a lookup has sent. *)
Definition requestOf (l : Lookup) : list jsstring :=
  match l with
  | Settled _ => []
  | Waiting _ url _ _ => [url]
  end.

(** The synchronous parts of all callbacks, in the order of the songs. *)
Fixpoint startAll (posterCache : gmap jsstring jsstring)
    (songs : list Song.t) : list Lookup * gmap jsstring jsstring :=
  match songs with
  | [] => ([], posterCache)
  | song :: rest =>
    let (l, cache1) :=
      startPoster posterCache (fieldValue (Song.title song))
                  (fieldValue (Song.artist song)) in
    let (ls, cache2) := startAll cache1 rest in
    (l :: ls, cache2)
  end.

(** The cache after the lookups numbered in [order] have ended, in that
    order. *)
Definition finishAll (posterCache : gmap jsstring jsstring)
    (net : Network CatalogData) (lookups : list Lookup) (order : list nat)
  : gmap jsstring jsstring :=
  foldl (fun cache i =>
           match lookups !! i with
           | Some l => (finishPoster cache net l).2
           | None => cache
           end)
        posterCache order.

(** [Promise.all] over the callbacks: the entries in the order of the
    songs, or the rejection of one of them. *)
Fixpoint allEntries (songs : list Song.t)
    (posters : list (Completion jsstring)) : Completion (list SongEntry.t) :=
  match songs, posters with
  | song :: songs', poster :: posters' =>
    do posterUrl <- poster;
    do rest <- allEntries songs' posters';
    Normal (SongEntry.mk (Song.title song) (Song.artist song)
              (buildYoutubeSearchUrl (fieldText (Song.title song))
                                     (fieldText (Song.artist song)))
              posterUrl
            :: rest)
  | _, _ => Normal []
  end.

(** The handler.  [songsAI] is the outcome of [generateSongsWithAI];
    [order] lists the lookups that have ended, in the order of their
    ends. *)
Definition moodSongs (posterCache : gmap jsstring jsstring)
    (songsAI : Completion (list Song.t)) (net : Network CatalogData)
    (order : list nat) (moodParam : option jsstring)
  : Run (gmap jsstring jsstring) SongsReply :=
  let mood := trim (orEmpty moodParam) in
  if negb (truthy mood) then mkRun SongsStatus400 posterCache []
  else
    match songsAI with
    | Throw _ => mkRun (SongsJson []) posterCache []
    | Normal songs =>
      let (lookups, cache1) := startAll posterCache songs in
      let posters := (fun l => (finishPoster cache1 net l).1) <$> lookups in
      mkRun
        match allEntries songs posters with
        | Normal entries => SongsJson entries
        | Throw _ => SongsJson []
        end
        (finishAll cache1 net lookups order)
        (lookups ≫= requestOf)
    end.

(** A resolution as the handler builds it: two nulls, or the two URL
    templates filled with one identifier of eleven characters of the
    class. *)
Definition pairedResolution (r : VideoResolution) : Prop :=
  r = mkResolution None None
  \/ exists id,
       length id = 11%nat
       /\ forallb isIdChar id = true
       /\ r = mkResolution
                (Some (js "https://www.youtube.com/watch?v=" ++ id))
                (Some (js "https://music.youtube.com/watch?v=" ++ id)).

(** The cache key of a podcast request. *)
Definition podcastKey (moodParam : option jsstring) : jsstring :=
  js "podcasts:" ++ toLowerCase (trim (orEmpty moodParam)).

(** The podcasts and the request of the search for one term, as the
    handler calls it. *)
Definition termChunk (net : Network PodcastData) (term : jsstring)
  : list Podcast :=
  (fetchItunesPodcastsByTerm net term ITUNES_COUNTRY (js "10")).1.

Definition termRequests (net : Network PodcastData) (term : jsstring)
  : list jsstring :=
  (fetchItunesPodcastsByTerm net term ITUNES_COUNTRY (js "10")).2.

(** The terms the podcast handler searches for a mood: the generated
    ones, or the five fallback terms when there are none. *)
Definition searchTerms (mood : jsstring) (terms0 : list jsstring)
  : list jsstring :=
  match terms0 with
  | [] => [mood; mood ++ js " podcast"; js "mindfulness";
           js "motivation"; js "self improvement"]
  | _ :: _ => terms0
  end.

(** The array [all] as it stands when the dedupe loop starts. *)
Definition gathered (net : Network PodcastData) (mood : jsstring)
    (terms0 : list jsstring) : list Podcast :=
  (gatherPodcasts net (searchTerms mood terms0) [] []).1.

(** ** Sample inputs *)

(** A network on which every request fails. *)
Definition offline {B : Type} : Network B := fun _ => Throw NetworkError.

(** A network that answers every request with status 200 and [b]. *)
Definition serve {B : Type} (b : B) : Network B :=
  fun _ => Normal (mkResponse true (Normal b)).

Definition queryRequest (q : jsstring) : ResolveBody := mkBody None (Some q).

Definition rickId : jsstring := js "dQw4w9WgXcQ".

(** A page with one complete token. *)
Definition rickPage : jsstring :=
  js "<script>var ytInitialData = {" ++ videoIdMarker ++ rickId
  ++ dquote :: js ",}</script>".

(** A page that ends right after the eleven characters. *)
Definition cutPage : jsstring := videoIdMarker ++ rickId.

(** Fifty-nine letters [a] followed by U+1F600, a surrogate pair whose
    halves are the code units 59 and 60. *)
Definition cutTitle : jsstring := replicate 59 0x61 ++ [0xD83D; 0xDE00].

(** The URL every empty lookup resolves to. *)
Definition noCoverUrl : jsstring :=
  js "https://dummyimage.com/600x600/111/fff&text=No%20Cover".

Definition sizeToken : jsstring := js "/100x100bb.".

Definition hiResToken : jsstring := js "/600x600bb.".

(** A catalog answer whose second candidate has artwork. *)
Definition artworkData : CatalogData :=
  mkCatalogData (Some [mkCandidate None;
                       mkCandidate (Some (js "https://is1.mzstatic.com/a/100x100bb.jpg"));
                       mkCandidate (Some (js "https://is1.mzstatic.com/b/100x100bb.jpg"))]).

(** The term generator answering with two terms. *)
Definition twoTerms : jsstring -> Completion (list jsstring) :=
  fun _ => Normal [js "sleep"; js "rain"].

(** A catalog podcast with id 42 and no name. *)
Definition unnamed42 : ItunesPodcast.t :=
  ItunesPodcast.mk (Some 42%Z) None (Some (js "Host")) None None
                   (Some (js "https://podcasts.apple.com/id42")) None.

(** Two catalog podcasts with id 0. *)
Definition zeroA : ItunesPodcast.t :=
  ItunesPodcast.mk (Some 0%Z) (Some (js "Alpha")) (Some (js "Host")) None None
                   (Some (js "https://podcasts.apple.com/a")) None.

Definition zeroB : ItunesPodcast.t :=
  ItunesPodcast.mk (Some 0%Z) (Some (js "Beta")) (Some (js "Host")) None None
                   (Some (js "https://podcasts.apple.com/b")) None.

(** A catalog podcast with id 7 and a name. *)
Definition named7 : ItunesPodcast.t :=
  ItunesPodcast.mk (Some 7%Z) (Some (js "Seven")) (Some (js "Host")) None None
                   (Some (js "https://podcasts.apple.com/id7")) None.

(** A catalog podcast with id 42, a name and a link. *)
Definition named42 : ItunesPodcast.t :=
  ItunesPodcast.mk (Some 42%Z) (Some (js "Calm")) (Some (js "Host")) None None
                   (Some (js "https://podcasts.apple.com/id42")) None.

(** An entry with id 42 and no link, and a usable one with the same id. *)
Definition linkless42 : Podcast :=
  mkPodcast (Some 42%Z) (Some (js "Calm")) (Some (js "Host")) None None None.

Definition usable42 : Podcast :=
  mkPodcast (Some 42%Z) (Some (js "Calm")) (Some (js "Host")) None
            (Some (js "https://podcasts.apple.com/id42")) None.

(** An entry with id 0 and no title, and a usable one with id 0. *)
Definition untitled0 : Podcast :=
  mkPodcast (Some 0%Z) None (Some (js "Host")) None
            (Some (js "https://podcasts.apple.com/a")) None.

Definition usable0 : Podcast :=
  mkPodcast (Some 0%Z) (Some (js "Beta")) (Some (js "Guest")) None
            (Some (js "https://podcasts.apple.com/b")) None.

(** The same song in capitals, and a network on which only the search
    for the capitals is answered. *)
Definition shoutedSong : Song.t :=
  Song.mk (Str (js "IMAGINE")) (Str (js "John Lennon")).

Definition answersShouted : Network CatalogData :=
  fun url =>
    if decide (url = posterSearchUrl (js "IMAGINE John Lennon"))
    then Normal (mkResponse true (Normal artworkData))
    else Throw NetworkError.

(** Two generated songs: one ordinary, one whose title is [cutTitle]. *)
Definition imagineSong : Song.t :=
  Song.mk (Str (js "Imagine")) (Str (js "John Lennon")).

Definition cutSong : Song.t := Song.mk (Str cutTitle) Undefined.

(** A chat reply in a fenced block: an array of one string between two
    fences, the first with the language tag in upper case. *)
Definition fencedReply : jsstring :=
  js "```JSON" ++ [0x0A; 0x5B; dquote] ++ js "calm" ++ [dquote; 0x5D; 0x0A]
  ++ js "```".

(** A parser that finds six terms, two of them blank. *)
Definition sixTerms : jsstring -> Completion (option (list (option jsstring))) :=
  fun _ => Normal (Some [Some (js " sleep "); None; Some (js "rain");
                         Some (js "  "); Some (js "focus"); Some (js "calm");
                         Some (js "walk"); Some (js "tea")]).

(** * Properties *)

Local Open Scope nat_scope.

(** ** Built-ins on sample strings *)

Example encode_no_cover :
  encodeURIComponent (js "No Cover") = Normal (js "No%20Cover").
Proof. reflexivity. Qed.

Example encode_e_acute :
  encodeURIComponent [0xE9%N] = Normal (js "%C3%A9").
Proof. reflexivity. Qed.

Example encode_pair :
  encodeURIComponent [0xD83D%N; 0xDE00%N] = Normal (js "%F0%9F%98%80").
Proof. reflexivity. Qed.

Example encode_lone_lead :
  encodeURIComponent [0x61%N; 0xD83D%N] = Throw URIError.
Proof. reflexivity. Qed.

Example form_encode_sample :
  urlSearchParams [(js "term", js "a b&c"); (js "limit", js "5")]
  = js "term=a+b%26c&limit=5".
Proof. reflexivity. Qed.

Example trim_sample : trim (js "  imagine ") = js "imagine".
Proof. reflexivity. Qed.

Example hi_res_sample :
  toHiResArtwork (Some (js "https://a.example/x/100x100bb.jpg"))
  = Some (js "https://a.example/x/600x600bb.jpg").
Proof. reflexivity. Qed.

Example cut_title_slice :
  slice0 60 cutTitle = replicate 59 0x61%N ++ [0xD83D%N].
Proof. reflexivity. Qed.

(** ** Strings *)

Lemma startsWith_app (p r : jsstring) : startsWith p (p ++ r) = true.
Proof.
  induction p as [|a p IH]; simpl; [reflexivity|].
  rewrite N.eqb_refl. exact IH.
Qed.

Lemma startsWith_inv (p s : jsstring) :
  startsWith p s = true -> exists r, s = p ++ r.
Proof.
  revert s. induction p as [|a p IH]; intros s H.
  - exists s. reflexivity.
  - destruct s as [|b s]; simpl in H; [discriminate|].
    apply andb_prop in H as [Hab Hps].
    apply N.eqb_eq in Hab. subst b.
    destruct (IH _ Hps) as [r ->]. exists r. reflexivity.
Qed.

Lemma indexOf_cons_S (p : jsstring) c s n :
  indexOf p (c :: s) = Some (S n) ->
  startsWith p (c :: s) = false /\ indexOf p s = Some n.
Proof.
  simpl. destruct (startsWith p (c :: s)); [discriminate|].
  destruct (indexOf p s) as [m|]; simpl; [|discriminate].
  intros [= ->]. split; reflexivity.
Qed.

Lemma indexOf_split (p s : jsstring) n :
  indexOf p s = Some n ->
  exists pre rest, s = pre ++ p ++ rest /\ length pre = n.
Proof.
  revert n. induction s as [|c s IH]; intros n H.
  - simpl in H. destruct (startsWith p []) eqn:Hp; [|discriminate].
    injection H as <-. apply startsWith_inv in Hp as [r Hr].
    exists [], r. split; [exact Hr | reflexivity].
  - destruct n as [|n].
    + simpl in H. destruct (startsWith p (c :: s)) eqn:Hp.
      * apply startsWith_inv in Hp as [r Hr].
        exists [], r. split; [exact Hr | reflexivity].
      * destruct (indexOf p s); discriminate.
    + apply indexOf_cons_S in H as [_ H].
      destruct (IH _ H) as (pre & rest & -> & <-).
      exists (c :: pre), rest. split; reflexivity.
Qed.

Lemma includes_split (p s : jsstring) :
  includes p s = true ->
  exists pre rest,
    s = pre ++ p ++ rest /\ indexOf p s = Some (length pre).
Proof.
  unfold includes. destruct (indexOf p s) as [n|] eqn:H; [|discriminate].
  intros _. destruct (indexOf_split _ _ _ H) as (pre & rest & Hs & <-).
  exists pre, rest. split; [exact Hs | reflexivity].
Qed.

Lemma replaceFirst_first (p r pre rest : jsstring) :
  indexOf p (pre ++ p ++ rest) = Some (length pre) ->
  replaceFirst p r (pre ++ p ++ rest) = pre ++ r ++ rest.
Proof.
  induction pre as [|c pre IH]; intros H.
  - simpl app.
    assert (Hs : startsWith p (p ++ rest) = true) by apply startsWith_app.
    destruct (p ++ rest) as [|x l] eqn:E; simpl; rewrite Hs.
    + destruct p; [|discriminate]. destruct rest; [|discriminate].
      simpl. rewrite app_nil_r. reflexivity.
    + rewrite <- E. rewrite drop_app_length. reflexivity.
  - apply (indexOf_cons_S p c (pre ++ p ++ rest)) in H as [Hno H].
    change ((c :: pre) ++ p ++ rest) with (c :: (pre ++ p ++ rest)).
    simpl in *. rewrite Hno. rewrite (IH H). reflexivity.
Qed.

(** ** The video identifier pattern *)

Lemma matchVideoId_hit (tok rest : jsstring) :
  length tok = 11 -> forallb isIdChar tok = true ->
  matchVideoId (videoIdMarker ++ tok ++ dquote :: rest) = Some tok.
Proof.
  intros Hlen Hcls. unfold matchVideoId.
  rewrite startsWith_app, drop_app_length.
  assert (Ht : take 11 (tok ++ dquote :: rest) = tok)
    by (rewrite <- Hlen; apply take_app_length).
  assert (Hd : drop 11 (tok ++ dquote :: rest) = dquote :: rest)
    by (rewrite <- Hlen; apply drop_app_length).
  rewrite Ht, Hd, Hlen, Hcls. reflexivity.
Qed.

Lemma matchVideoId_inv (s id : jsstring) :
  matchVideoId s = Some id ->
  exists rest,
    s = videoIdMarker ++ id ++ dquote :: rest
    /\ length id = 11 /\ forallb isIdChar id = true.
Proof.
  unfold matchVideoId.
  destruct (startsWith videoIdMarker s) eqn:Hm; [|discriminate].
  apply startsWith_inv in Hm as [r ->]. rewrite drop_app_length.
  destruct (length (take 11 r) =? 11) eqn:Hlen; [|discriminate].
  destruct (forallb isIdChar (take 11 r)) eqn:Hcls; [|discriminate].
  destruct (startsWith [dquote] (drop 11 r)) eqn:Hq; [|discriminate].
  simpl. intros [= <-].
  apply Nat.eqb_eq in Hlen.
  apply startsWith_inv in Hq as [rest Hrest].
  exists rest. split; [|split; [exact Hlen | exact Hcls]].
  rewrite <- (take_drop 11 r) at 1. rewrite Hrest. reflexivity.
Qed.

Lemma matchVideoId_no_marker (s : jsstring) :
  startsWith videoIdMarker s = false -> matchVideoId s = None.
Proof. unfold matchVideoId. intros ->. reflexivity. Qed.

Lemma searchVideoId_here (s id : jsstring) (i : nat) :
  matchVideoId s = Some id -> searchVideoId s i = Some (id, i + 23).
Proof. intros H. destruct s; cbn -[matchVideoId]; rewrite H; reflexivity. Qed.

Lemma searchVideoId_skip (c : N) (s : jsstring) (i : nat) :
  matchVideoId (c :: s) = None ->
  searchVideoId (c :: s) i = searchVideoId s (S i).
Proof. intros H. cbn -[matchVideoId]. rewrite H. reflexivity. Qed.

Lemma searchVideoId_first (pre tok rest : jsstring) (i : nat) :
  indexOf videoIdMarker (pre ++ videoIdMarker ++ tok ++ dquote :: rest)
    = Some (length pre) ->
  length tok = 11 -> forallb isIdChar tok = true ->
  searchVideoId (pre ++ videoIdMarker ++ tok ++ dquote :: rest) i
    = Some (tok, i + length pre + 23).
Proof.
  intros Hidx Hlen Hcls. revert i Hidx.
  induction pre as [|c pre IH]; intros i Hidx.
  - rewrite app_nil_l.
    rewrite (searchVideoId_here _ tok i (matchVideoId_hit tok rest Hlen Hcls)).
    do 2 f_equal. simpl. lia.
  - change ((c :: pre) ++ videoIdMarker ++ tok ++ dquote :: rest)
      with (c :: (pre ++ videoIdMarker ++ tok ++ dquote :: rest)) in *.
    apply indexOf_cons_S in Hidx as [Hno Hidx].
    rewrite (searchVideoId_skip _ _ _ (matchVideoId_no_marker _ Hno)).
    rewrite (IH (S i) Hidx). do 2 f_equal. simpl. lia.
Qed.

Lemma searchVideoId_none (html : jsstring) (i : nat) :
  ~ hasVideoIdToken html -> searchVideoId html i = None.
Proof.
  revert i. induction html as [|c html IH]; intros i Hno.
  - reflexivity.
  - destruct (matchVideoId (c :: html)) as [id|] eqn:Hm.
    + exfalso. apply Hno.
      apply matchVideoId_inv in Hm as (rest & E & Hl & Hc).
      exists [], id, rest. auto.
    + rewrite (searchVideoId_skip _ _ _ Hm).
      apply IH. intros (pre & tok & rest & E & Hl & Hc). apply Hno.
      exists (c :: pre), tok, rest. rewrite E. auto.
Qed.

Lemma searchVideoId_capture (s id : jsstring) (i next : nat) :
  searchVideoId s i = Some (id, next) ->
  length id = 11 /\ hasVideoIdToken s.
Proof.
  revert i. induction s as [|c s IH]; intros i.
  - discriminate.
  - destruct (matchVideoId (c :: s)) as [id'|] eqn:Hm.
    + rewrite (searchVideoId_here _ _ i Hm). intros [= -> _].
      apply matchVideoId_inv in Hm as (rest & E & Hl & Hc).
      split; [exact Hl|]. exists [], id, rest. auto.
    + rewrite (searchVideoId_skip _ _ _ Hm).
      intros H. apply IH in H as [Hl (pre & tok & rest & E & Hl' & Hc)].
      split; [exact Hl|]. exists (c :: pre), tok, rest. rewrite E. auto.
Qed.

(** The loop of [extractFirstVideoId] ends in its first iteration: the
    result is the capture of the leftmost match. *)
Lemma extractFirstVideoId_leftmost (html : jsstring) :
  extractFirstVideoId (Some html) = fst <$> searchVideoId html 0.
Proof.
  unfold extractFirstVideoId. destruct html as [|c html].
  - reflexivity.
  - cbn [truthy negb extractLoop]. unfold regexExec. rewrite drop_0.
    destruct (searchVideoId (c :: html) 0) as [[id next]|] eqn:Hs;
      [|reflexivity].
    apply searchVideoId_capture in Hs as [Hl _].
    destruct id; [discriminate|]. simpl truthy. rewrite Hl. reflexivity.
Qed.

Lemma extractFirstVideoId_first (pre tok rest : jsstring) :
  indexOf videoIdMarker (pre ++ videoIdMarker ++ tok ++ dquote :: rest)
    = Some (length pre) ->
  length tok = 11 -> forallb isIdChar tok = true ->
  extractFirstVideoId (Some (pre ++ videoIdMarker ++ tok ++ dquote :: rest))
    = Some tok.
Proof.
  intros Hidx Hlen Hcls. rewrite extractFirstVideoId_leftmost.
  rewrite (searchVideoId_first pre tok rest 0 Hidx Hlen Hcls). reflexivity.
Qed.

Lemma extractFirstVideoId_none (html : option jsstring) :
  (forall h, html = Some h -> ~ hasVideoIdToken h) ->
  extractFirstVideoId html = None.
Proof.
  destruct html as [h|]; [|reflexivity]. intros Hno.
  rewrite extractFirstVideoId_leftmost.
  rewrite (searchVideoId_none h 0 (Hno h eq_refl)). reflexivity.
Qed.

(** ** The resolve cache *)

Lemma truthy_nonempty (s : jsstring) : truthy s = true <-> s <> [].
Proof. destruct s; simpl; split; congruence. Qed.

Lemma getFromResolveCache_fresh cache now key entry :
  truthy key = true -> cache !! key = Some entry ->
  (now < expiresAt entry)%Z ->
  getFromResolveCache cache now key = (Some (resolution entry), cache).
Proof.
  intros Hk He Hnow. unfold getFromResolveCache. rewrite Hk, He. simpl.
  destruct (Z.leb_spec (expiresAt entry) now); [lia | reflexivity].
Qed.

Lemma getFromResolveCache_stale cache now key entry :
  truthy key = true -> cache !! key = Some entry ->
  (expiresAt entry <= now)%Z ->
  getFromResolveCache cache now key = (None, delete key cache).
Proof.
  intros Hk He Hnow. unfold getFromResolveCache. rewrite Hk, He. simpl.
  destruct (Z.leb_spec (expiresAt entry) now); [reflexivity | lia].
Qed.

(** A read leaves the cache as it was or deletes the key it read. *)
Lemma getFromResolveCache_store cache now key :
  (getFromResolveCache cache now key).2 = cache
  \/ (getFromResolveCache cache now key).2 = delete key cache.
Proof.
  unfold getFromResolveCache.
  destruct (negb (truthy key)); [left; reflexivity|].
  destruct (cache !! key) as [e|]; [|left; reflexivity].
  destruct (expiresAt e <=? now)%Z; [right | left]; reflexivity.
Qed.

Lemma setResolveCache_lookup cache now key y m :
  truthy key = true ->
  setResolveCache cache now key y m !! key
  = Some (mkEntry (mkResolution y m) (now + RESOLVE_CACHE_TTL_MS)).
Proof.
  intros Hk. unfold setResolveCache. rewrite Hk. apply lookup_insert_eq.
Qed.

Lemma setResolveCache_empty_key cache now key y m :
  cache !! [] = None -> setResolveCache cache now key y m !! [] = None.
Proof.
  intros H. unfold setResolveCache. destruct key as [|c key]; simpl.
  - exact H.
  - rewrite lookup_insert_ne; [exact H | discriminate].
Qed.

(** The handler rejects a request exactly when its cache key is empty. *)
Lemma resolveKey_truthy (req : ResolveBody) :
  negb (truthy (trimmedString (youtubeSearchUrl req)))
  && negb (truthy (trimmedString (query req)))
  = negb (truthy (resolveKey req)).
Proof.
  unfold resolveKey, orElse.
  destruct (truthy (trimmedString (query req))) eqn:Hq; simpl.
  - rewrite Hq. apply andb_false_r.
  - apply andb_true_r.
Qed.

(** The handler on a cache miss. *)
Lemma resolveMusicUrl_miss cache tRead tWrite net req :
  truthy (resolveKey req) = true ->
  (getFromResolveCache cache tRead (resolveKey req)).1 = None ->
  resolveMusicUrl cache tRead tWrite net req =
  let cache1 := (getFromResolveCache cache tRead (resolveKey req)).2 in
  match extractFirstVideoId (fetchYoutubeSearchHtml net (resolveUrl req)) with
  | Some videoId =>
    mkRun
      (Resolved (mkResolution
         (Some (js "https://www.youtube.com/watch?v=" ++ videoId))
         (Some (js "https://music.youtube.com/watch?v=" ++ videoId))))
      (setResolveCache cache1 tWrite (resolveKey req)
         (Some (js "https://www.youtube.com/watch?v=" ++ videoId))
         (Some (js "https://music.youtube.com/watch?v=" ++ videoId)))
      [resolveUrl req]
  | None =>
    mkRun (Resolved (mkResolution None None))
          (setResolveCache cache1 tWrite (resolveKey req) None None)
          [resolveUrl req]
  end.
Proof.
  intros Hk Hmiss. unfold resolveMusicUrl.
  rewrite resolveKey_truthy, Hk. cbn [negb].
  fold (resolveKey req). fold (resolveUrl req).
  destruct (getFromResolveCache cache tRead (resolveKey req)) as [[v|] c1];
    [discriminate|]. cbn [snd].
  destruct (extractFirstVideoId (fetchYoutubeSearchHtml net (resolveUrl req)))
    as [videoId|] eqn:Hx; [|reflexivity].
  assert (Ht : truthy videoId = true).
  { destruct (fetchYoutubeSearchHtml net (resolveUrl req)) as [h|];
      [|discriminate].
    rewrite extractFirstVideoId_leftmost in Hx.
    destruct (searchVideoId h 0) as [[id next]|] eqn:Hs; [|discriminate].
    injection Hx as <-. apply searchVideoId_capture in Hs as [Hl _].
    destruct id; [discriminate | reflexivity]. }
  rewrite Ht. reflexivity.
Qed.

(** The handler on a cache hit. *)
Lemma resolveMusicUrl_hit cache tRead tWrite net req entry :
  truthy (resolveKey req) = true ->
  cache !! resolveKey req = Some entry ->
  (tRead < expiresAt entry)%Z ->
  resolveMusicUrl cache tRead tWrite net req
  = mkRun (Resolved (resolution entry)) cache [].
Proof.
  intros Hk He Hnow. unfold resolveMusicUrl.
  rewrite resolveKey_truthy, Hk. cbn [negb]. fold (resolveKey req).
  rewrite (getFromResolveCache_fresh _ _ _ _ Hk He Hnow). reflexivity.
Qed.

Lemma fetch_no_video net url :
  NoVideoFound net url ->
  extractFirstVideoId (fetchYoutubeSearchHtml net url) = None.
Proof.
  intros H. apply extractFirstVideoId_none. intros h Hh.
  unfold fetchYoutubeSearchHtml in Hh.
  destruct H as [e H | r H Hok | r e H Hok Hb | r html H Hok Hb Hno];
    rewrite H in Hh; try discriminate;
    rewrite Hok in Hh; try discriminate;
    rewrite Hb in Hh; try discriminate.
  injection Hh as <-. exact Hno.
Qed.

(** No reachable resolve cache has an entry under the empty key. *)
Lemma resolveReachable_no_empty_key cache :
  resolveReachable cache -> cache !! [] = None.
Proof.
  induction 1 as [|c tRead tWrite net req Hc IH]; [apply lookup_empty|].
  assert (H1 : (getFromResolveCache c tRead (resolveKey req)).2 !! [] = None).
  { destruct (getFromResolveCache_store c tRead (resolveKey req)) as [-> | ->];
      [exact IH|].
    rewrite lookup_delete. destruct (decide (resolveKey req = [])); auto. }
  unfold resolveMusicUrl. rewrite resolveKey_truthy.
  fold (resolveKey req). fold (resolveUrl req).
  destruct (negb (truthy (resolveKey req))); [exact IH|].
  destruct (getFromResolveCache c tRead (resolveKey req)) as [[v|] c1];
    simpl in H1; [exact H1|].
  destruct (extractFirstVideoId _) as [videoId|];
    [destruct (negb (truthy videoId))|]; simpl;
    apply setResolveCache_empty_key; exact H1.
Qed.

Lemma resolveReachable_key_truthy cache key entry :
  resolveReachable cache -> cache !! key = Some entry -> truthy key = true.
Proof.
  intros Hc He. destruct key; [|reflexivity].
  rewrite (resolveReachable_no_empty_key _ Hc) in He. discriminate.
Qed.

Lemma filter_none {A : Type} (P : A -> Prop) `{!forall x, Decision (P x)}
    (l : list A) :
  Forall (fun x => ~ P x) l -> filter P l = [].
Proof.
  induction 1 as [|x l Hx _ IH]; [reflexivity|].
  rewrite filter_cons. destruct (decide (P x)); [contradiction | exact IH].
Qed.

(** A finite map lists at most one binding per key. *)
Lemma map_to_list_key_once {V : Type} (m : gmap jsstring V) (k : jsstring) :
  length (filter (fun kv => kv.1 = k) (map_to_list m)) <= 1.
Proof.
  pose proof (NoDup_fst_map_to_list m) as Hnd.
  induction (map_to_list m) as [|[k' v] l IH]; simpl; [lia|].
  rewrite fmap_cons in Hnd. apply NoDup_cons in Hnd as [Hnotin Hnd].
  rewrite filter_cons. destruct (decide ((k', v).1 = k)) as [Heq|Hne].
  - simpl in Heq. subst k'. simpl.
    assert (filter (fun kv : jsstring * V => kv.1 = k) l = []) as ->;
      [|simpl; lia].
    apply filter_none, Forall_forall. intros [k2 v2] Hin Hk2. simpl in Hk2.
    subst k2. apply Hnotin. apply list_elem_of_fmap. exists (k, v2). auto.
  - apply IH. exact Hnd.
Qed.

(** ** The video resolver *)

(** C3, as amended: on a cache miss, when the first occurrence of the
    marker in the fetched page is followed by eleven characters of the
    class and then by a closing double quote, the handler answers with the
    two URL templates filled with these eleven characters. *)
Theorem resolveMusicUrl_first_video
    cache tRead tWrite net req (html pre tok rest : jsstring) :
  truthy (resolveKey req) = true ->
  (getFromResolveCache cache tRead (resolveKey req)).1 = None ->
  fetchYoutubeSearchHtml net (resolveUrl req) = Some html ->
  firstMarkerThenToken html pre tok (dquote :: rest) ->
  extractFirstVideoId (Some html) = Some tok
  /\ result (resolveMusicUrl cache tRead tWrite net req)
     = Resolved (mkResolution
         (Some (js "https://www.youtube.com/watch?v=" ++ tok))
         (Some (js "https://music.youtube.com/watch?v=" ++ tok))).
Proof.
  intros Hk Hmiss Hpage (Hhtml & Hidx & Hlen & Hcls). subst html.
  pose proof (extractFirstVideoId_first pre tok rest Hidx Hlen Hcls) as Hx.
  split; [exact Hx|].
  rewrite (resolveMusicUrl_miss _ _ _ _ _ Hk Hmiss), Hpage. cbn zeta.
  rewrite Hx. reflexivity.
Qed.

(** C4: when the page fetch fails or the page has no token, the handler
    answers with two nulls and stores them with an expiry one hour after
    the write; a later request with the same key, read before that
    expiry, gets the stored nulls and sends nothing. *)
Theorem resolveMusicUrl_negative_cached cache tRead tWrite net req :
  truthy (resolveKey req) = true ->
  (getFromResolveCache cache tRead (resolveKey req)).1 = None ->
  NoVideoFound net (resolveUrl req) ->
  let run := resolveMusicUrl cache tRead tWrite net req in
  result run = Resolved (mkResolution None None)
  /\ store run !! resolveKey req
     = Some (mkEntry (mkResolution None None) (tWrite + 3600000)%Z)
  /\ forall tRead' tWrite' net' req',
       resolveKey req' = resolveKey req ->
       (tRead' < tWrite + 3600000)%Z ->
       let again := resolveMusicUrl (store run) tRead' tWrite' net' req' in
       result again = Resolved (mkResolution None None)
       /\ fetched again = []
       /\ store again = store run.
Proof.
  intros Hk Hmiss Hfail run.
  assert (Hrun : run = mkRun (Resolved (mkResolution None None))
            (setResolveCache (getFromResolveCache cache tRead (resolveKey req)).2
               tWrite (resolveKey req) None None) [resolveUrl req]).
  { unfold run. rewrite (resolveMusicUrl_miss _ _ _ _ _ Hk Hmiss).
    cbn zeta. rewrite (fetch_no_video _ _ Hfail). reflexivity. }
  assert (Hentry : store run !! resolveKey req
            = Some (mkEntry (mkResolution None None) (tWrite + 3600000)%Z)).
  { rewrite Hrun. cbn [store]. apply setResolveCache_lookup, Hk. }
  split; [rewrite Hrun; reflexivity|]. split; [exact Hentry|].
  intros tRead' tWrite' net' req' Hsame Hsoon again. unfold again.
  rewrite <- Hsame in Hentry, Hk.
  rewrite (resolveMusicUrl_hit _ tRead' tWrite' net' req' _ Hk Hentry Hsoon).
  auto.
Qed.

(** C5: for an entry of a reachable resolve cache, a read at or after its
    expiry removes it and is a miss, after which the handler fetches the
    page again; a read before the expiry returns the stored pair and
    leaves the cache alone; the cache lists at most one entry per key. *)
Theorem resolve_cache_expiry cache key entry :
  resolveReachable cache ->
  cache !! key = Some entry ->
  (forall now, (expiresAt entry <= now)%Z ->
     getFromResolveCache cache now key = (None, delete key cache)
     /\ delete key cache !! key = None
     /\ forall tWrite net req, resolveKey req = key ->
          fetched (resolveMusicUrl cache now tWrite net req)
          = [resolveUrl req])
  /\ (forall now, (now < expiresAt entry)%Z ->
       getFromResolveCache cache now key = (Some (resolution entry), cache))
  /\ (forall k,
       length (filter (fun kv => kv.1 = k) (map_to_list cache)) <= 1).
Proof.
  intros Hreach He.
  pose proof (resolveReachable_key_truthy _ _ _ Hreach He) as Hk.
  split; [|split].
  - intros now Hnow.
    pose proof (getFromResolveCache_stale _ _ _ _ Hk He Hnow) as Hget.
    split; [exact Hget|]. split; [apply lookup_delete_eq|].
    intros tWrite net req <-.
    rewrite resolveMusicUrl_miss; [|exact Hk|rewrite Hget; reflexivity].
    cbn zeta. destruct (extractFirstVideoId _); reflexivity.
  - intros now Hnow. apply getFromResolveCache_fresh; assumption.
  - intros k. apply map_to_list_key_once.
Qed.

(** ** Trimming *)

Lemma existsb_reverse {A : Type} (f : A -> bool) (l : list A) :
  existsb f (reverse l) = existsb f l.
Proof.
  induction l as [|x l IH]; [reflexivity|].
  rewrite reverse_cons, existsb_app, IH. simpl.
  rewrite orb_false_r. apply orb_comm.
Qed.

Lemma trimStart_ink (s : jsstring) :
  existsb isInk (trimStart s) = existsb isInk s.
Proof.
  induction s as [|c s IH]; [reflexivity|]. simpl.
  destruct (isWhiteSpace c) eqn:Hw; [|reflexivity].
  unfold isInk at 2. rewrite Hw. exact IH.
Qed.

Lemma trimStart_truthy (s : jsstring) :
  truthy (trimStart s) = existsb isInk s.
Proof.
  induction s as [|c s IH]; [reflexivity|]. simpl.
  destruct (isWhiteSpace c) eqn:Hw; unfold isInk at 1; rewrite Hw;
    [exact IH | reflexivity].
Qed.

Lemma truthy_reverse (s : jsstring) : truthy (reverse s) = truthy s.
Proof.
  destruct s as [|c s]; [reflexivity|]. rewrite reverse_cons.
  destruct (reverse s); reflexivity.
Qed.

(** A string trims to a non-empty string exactly when it has a character
    that is not white space. *)
Lemma trim_truthy (s : jsstring) : truthy (trim s) = existsb isInk s.
Proof.
  unfold trim, trimEnd.
  rewrite truthy_reverse, trimStart_truthy, existsb_reverse.
  apply trimStart_ink.
Qed.

Lemma trim_ink (s : jsstring) : existsb isInk (trim s) = existsb isInk s.
Proof.
  unfold trim, trimEnd.
  rewrite existsb_reverse, trimStart_ink, existsb_reverse.
  apply trimStart_ink.
Qed.

(** ** The poster resolver *)

(** The [|| POSTER_PLACEHOLDER] after [buildPlaceholderPoster] never
    applies: the built URL is not empty. *)
Lemma placeholderOrDefault_eq title artist :
  placeholderOrDefault title artist = buildPlaceholderPoster title artist.
Proof.
  unfold placeholderOrDefault, buildPlaceholderPoster.
  destruct (encodeURIComponent _); reflexivity.
Qed.

(** Whenever a search is sent, the placeholder text is the trimmed title
    and artist, not the words [No Cover]. *)
Lemma placeholderText_of_term title artist :
  truthy (posterTerm title artist) = true ->
  placeholderText title artist
  = trim (trim (orEmpty title) ++ js " " ++ trim (orEmpty artist))
  /\ placeholderText title artist <> [].
Proof.
  unfold posterTerm, placeholderText. intros Hterm.
  rewrite trim_truthy, !existsb_app in Hterm.
  assert (Ht : truthy (trim (trim (orEmpty title) ++ js " "
                            ++ trim (orEmpty artist))) = true).
  { rewrite trim_truthy, !existsb_app, !trim_ink. exact Hterm. }
  unfold orElse. rewrite Ht. split; [reflexivity|].
  apply truthy_nonempty, Ht.
Qed.

Lemma fetchItunesPoster_hit cache net title artist v :
  cache !! keyOf title artist = Some v ->
  fetchItunesPoster cache net title artist = mkRun (Normal v) cache [].
Proof. intros H. unfold fetchItunesPoster. rewrite H. reflexivity. Qed.

Lemma fetchItunesPoster_no_term cache net title artist :
  cache !! keyOf title artist = None ->
  truthy (posterTerm title artist) = false ->
  fetchItunesPoster cache net title artist
  = storePoster cache (keyOf title artist) []
      (buildPlaceholderPoster title artist).
Proof.
  intros H Ht. unfold fetchItunesPoster. rewrite H.
  fold (posterTerm title artist). rewrite Ht. reflexivity.
Qed.

Lemma fetchItunesPoster_search cache net title artist :
  cache !! keyOf title artist = None ->
  truthy (posterTerm title artist) = true ->
  fetchItunesPoster cache net title artist
  = storePoster cache (keyOf title artist)
      [posterSearchUrl (posterTerm title artist)]
      match posterAttempt net (posterSearchUrl (posterTerm title artist))
                          title artist with
      | Normal v => Normal v
      | Throw _ => buildPlaceholderPoster title artist
      end.
Proof.
  intros H Ht. unfold fetchItunesPoster. rewrite H.
  fold (posterTerm title artist). rewrite Ht. cbn [negb].
  rewrite placeholderOrDefault_eq. reflexivity.
Qed.

(** After a failed search both the [try] block and the [catch] end in
    the placeholder. *)
Lemma posterAttempt_failed net url title artist :
  CatalogFailed net url ->
  match posterAttempt net url title artist with
  | Normal v => Normal v
  | Throw _ => buildPlaceholderPoster title artist
  end = buildPlaceholderPoster title artist.
Proof.
  intros H. unfold posterAttempt.
  destruct H as [e H | r H Hok | r e H Hok Hb]; rewrite H; cbn [bind].
  - reflexivity.
  - rewrite Hok. cbn [negb]. rewrite placeholderOrDefault_eq.
    destruct (buildPlaceholderPoster title artist); reflexivity.
  - rewrite Hok, Hb. reflexivity.
Qed.

(** A value returned normally is the value stored under the key. *)
Lemma fetchItunesPoster_stored cache net title artist v :
  result (fetchItunesPoster cache net title artist) = Normal v ->
  store (fetchItunesPoster cache net title artist) !! keyOf title artist
  = Some v.
Proof.
  destruct (cache !! keyOf title artist) as [w|] eqn:Hc.
  - rewrite (fetchItunesPoster_hit _ _ _ _ _ Hc). cbn. intros [= <-]. exact Hc.
  - destruct (truthy (posterTerm title artist)) eqn:Ht.
    + rewrite (fetchItunesPoster_search _ _ _ _ Hc Ht).
      destruct (match posterAttempt _ _ _ _ with
                | Normal v0 => Normal v0 | Throw _ => _ end) as [w|e];
        cbn; [|discriminate].
      intros [= <-]. apply lookup_insert_eq.
    + rewrite (fetchItunesPoster_no_term _ _ _ _ Hc Ht).
      destruct (buildPlaceholderPoster title artist) as [w|e];
        cbn; [|discriminate].
      intros [= <-]. apply lookup_insert_eq.
Qed.

(** The function raises only if building the placeholder raises. *)
Lemma fetchItunesPoster_returns cache net title artist ph :
  buildPlaceholderPoster title artist = Normal ph ->
  exists v, result (fetchItunesPoster cache net title artist) = Normal v.
Proof.
  intros Hph. destruct (cache !! keyOf title artist) as [w|] eqn:Hc.
  - rewrite (fetchItunesPoster_hit _ _ _ _ _ Hc). eauto.
  - destruct (truthy (posterTerm title artist)) eqn:Ht.
    + rewrite (fetchItunesPoster_search _ _ _ _ Hc Ht), Hph.
      destruct (posterAttempt _ _ _ _) as [w|e]; cbn; eauto.
    + rewrite (fetchItunesPoster_no_term _ _ _ _ Hc Ht), Hph. cbn. eauto.
Qed.

(** Where the claim C1 holds: after a failed search the function returns
    the placeholder built from the trimmed title and artist, cut to 60
    code units and percent-encoded, and stores it, provided that text
    can be percent-encoded. *)
Lemma fetchItunesPoster_failure_fallback cache net title artist e :
  cache !! keyOf title artist = None ->
  truthy (posterTerm title artist) = true ->
  CatalogFailed net (posterSearchUrl (posterTerm title artist)) ->
  encodeURIComponent
    (slice0 60 (trim (trim (orEmpty title) ++ js " " ++ trim (orEmpty artist))))
  = Normal e ->
  let ph := js "https://dummyimage.com/600x600/111/fff&text=" ++ e in
  fetchItunesPoster cache net title artist
  = mkRun (Normal ph) (<[keyOf title artist := ph]> cache)
          [posterSearchUrl (posterTerm title artist)].
Proof.
  intros Hc Ht Hfail Henc ph.
  rewrite (fetchItunesPoster_search _ _ _ _ Hc Ht).
  rewrite (posterAttempt_failed _ _ _ _ Hfail).
  unfold buildPlaceholderPoster.
  destruct (placeholderText_of_term _ _ Ht) as [-> _].
  rewrite Henc. reflexivity.
Qed.

(** A string without surrogate code units can be percent-encoded. *)
Lemma encodeURIComponent_no_surrogate (s : jsstring) :
  Forall (fun c => isSurrogate c = false) s ->
  exists e, encodeURIComponent s = Normal e.
Proof.
  induction 1 as [|c s Hc _ [e IH]]; [exists []; reflexivity|].
  apply orb_false_elim in Hc as [Hlead Htrail].
  cbn [encodeURIComponent]. rewrite Hlead, Htrail, IH. cbn [bind].
  destruct (isUnescaped c); eauto.
Qed.

Lemma Forall_trim (P : N -> Prop) (s : jsstring) :
  Forall P s -> Forall P (trim s).
Proof.
  assert (Hstart : forall l : jsstring, Forall P l -> Forall P (trimStart l)).
  { induction 1 as [|c l Hc Hl IH]; [constructor|]. simpl.
    destruct (isWhiteSpace c); [exact IH | constructor; assumption]. }
  intros H. unfold trim, trimEnd.
  apply Forall_reverse, Hstart, Forall_reverse, Hstart, H.
Qed.

Lemma Forall_orEmpty (P : N -> Prop) (v : option jsstring) :
  (forall s, v = Some s -> Forall P s) -> Forall P (orEmpty v).
Proof.
  destruct v as [[|c s]|]; intros H; [constructor| |constructor].
  exact (H _ eq_refl).
Qed.

(** C1 holds for every title and artist without surrogate code units:
    after a failed search the placeholder is returned and stored. *)
Lemma fetchItunesPoster_failure_fallback_no_surrogate
    cache net title artist :
  (forall s, title = Some s -> Forall (fun c => isSurrogate c = false) s) ->
  (forall s, artist = Some s -> Forall (fun c => isSurrogate c = false) s) ->
  cache !! keyOf title artist = None ->
  truthy (posterTerm title artist) = true ->
  CatalogFailed net (posterSearchUrl (posterTerm title artist)) ->
  exists e,
    encodeURIComponent
      (slice0 60 (trim (trim (orEmpty title) ++ js " "
                        ++ trim (orEmpty artist))))
    = Normal e
    /\ fetchItunesPoster cache net title artist
       = mkRun (Normal (js "https://dummyimage.com/600x600/111/fff&text=" ++ e))
               (<[keyOf title artist
                  := js "https://dummyimage.com/600x600/111/fff&text=" ++ e]>
                  cache)
               [posterSearchUrl (posterTerm title artist)].
Proof.
  intros Htitle Hartist Hc Ht Hfail.
  destruct (encodeURIComponent_no_surrogate
              (slice0 60 (trim (trim (orEmpty title) ++ js " "
                                ++ trim (orEmpty artist)))))
    as [e He].
  { apply Forall_take, Forall_trim, Forall_app. split.
    - apply Forall_trim, Forall_orEmpty, Htitle.
    - apply Forall_app. split; [repeat constructor|].
      apply Forall_trim, Forall_orEmpty, Hartist. }
  exists e. split; [exact He|].
  apply fetchItunesPoster_failure_fallback; assumption.
Qed.

(** C1 fails on the code: with a title whose 60th code unit is the first
    half of a surrogate pair and a search that ends in a transport
    failure, the [catch] block cuts the pair, [encodeURIComponent] throws
    and [fetchItunesPoster] raises a URIError without storing anything. *)
Theorem fetchItunesPoster_raises_on_cut_pair :
  fetchItunesPoster ∅ offline (Some cutTitle) None
  = mkRun (Throw URIError) ∅ [posterSearchUrl cutTitle].
Proof.
  rewrite fetchItunesPoster_search; [|apply lookup_empty|reflexivity].
  reflexivity.
Qed.

Lemma fetchItunesPoster_empty_miss cache net :
  cache !! keyOf (Some []) (Some []) = None ->
  fetchItunesPoster cache net (Some []) (Some [])
  = mkRun (Normal noCoverUrl)
          (<[keyOf (Some []) (Some []) := noCoverUrl]> cache) [].
Proof.
  intros Hc. rewrite fetchItunesPoster_no_term; [|exact Hc|reflexivity].
  reflexivity.
Qed.

(** A title and an artist that trim to nothing send no search and get
    the [No Cover] placeholder. *)
Lemma blank_lookup title artist :
  trim (orEmpty title) = [] -> trim (orEmpty artist) = [] ->
  truthy (posterTerm title artist) = false
  /\ buildPlaceholderPoster title artist = Normal noCoverUrl.
Proof.
  intros Ht Ha. split.
  - unfold posterTerm. rewrite trim_truthy, !existsb_app.
    rewrite <- (trim_truthy (orEmpty title)), <- (trim_truthy (orEmpty artist)).
    rewrite Ht, Ha. reflexivity.
  - unfold buildPlaceholderPoster, placeholderText. rewrite Ht, Ha.
    reflexivity.
Qed.

Section CaseMapping.

(** The case mapping keeps the empty string and only the empty string
    empty. *)
Hypothesis toLowerCase_nil : toLowerCase [] = [].
Hypothesis toLowerCase_nonempty : forall s, toLowerCase s = [] -> s = [].

(** Only blank titles and artists share the key of the empty lookup. *)
Lemma keyOf_blank title artist :
  keyOf title artist = keyOf (Some []) (Some []) ->
  trim (orEmpty title) = [] /\ trim (orEmpty artist) = [].
Proof.
  unfold keyOf. cbn [orEmpty orElse truthy].
  change (trim []) with (@nil N). rewrite toLowerCase_nil. intros H.
  apply (f_equal length) in H. rewrite !length_app in H. simpl in H.
  split; apply toLowerCase_nonempty, nil_length_inv; lia.
Qed.

(** In a reachable poster cache the key of the empty lookup is free or
    holds the [No Cover] placeholder. *)
Lemma posterReachable_blank_key cache :
  posterReachable cache ->
  cache !! keyOf (Some []) (Some []) = None
  \/ cache !! keyOf (Some []) (Some []) = Some noCoverUrl.
Proof.
  induction 1 as [|c net title artist Hc IH]; [left; apply lookup_empty|].
  destruct (c !! keyOf title artist) as [w|] eqn:Hw.
  { rewrite (fetchItunesPoster_hit _ _ _ _ _ Hw). exact IH. }
  destruct (decide (keyOf title artist = keyOf (Some []) (Some [])))
    as [Heq|Hne].
  - destruct (keyOf_blank _ _ Heq) as [Ht Ha].
    destruct (blank_lookup _ _ Ht Ha) as [Hterm Hph].
    rewrite (fetchItunesPoster_no_term _ _ _ _ Hw Hterm), Hph.
    cbn [storePoster store]. rewrite Heq. right. apply lookup_insert_eq.
  - assert (Hstore : store (fetchItunesPoster c net title artist) = c
                     \/ exists v, store (fetchItunesPoster c net title artist)
                                  = <[keyOf title artist := v]> c).
    { destruct (truthy (posterTerm title artist)) eqn:Hterm.
      - rewrite (fetchItunesPoster_search _ _ _ _ Hw Hterm).
        destruct (match posterAttempt _ _ _ _ with
                  | Normal v0 => Normal v0 | Throw _ => _ end) as [v|e];
          cbn; eauto.
      - rewrite (fetchItunesPoster_no_term _ _ _ _ Hw Hterm).
        destruct (buildPlaceholderPoster title artist) as [v|e]; cbn; eauto. }
    destruct Hstore as [-> | [v ->]]; [exact IH|].
    rewrite lookup_insert_ne by exact Hne. exact IH.
Qed.

(** C2, as amended: whatever was looked up before, [fetchItunesPoster]
    with an empty title and an empty artist sends no request, returns the
    URL whose text is [No%20Cover], and that URL is what the poster cache
    holds under the normalised key afterwards. *)
Theorem fetchItunesPoster_empty cache net :
  posterReachable cache ->
  result (fetchItunesPoster cache net (Some []) (Some [])) = Normal noCoverUrl
  /\ fetched (fetchItunesPoster cache net (Some []) (Some [])) = []
  /\ store (fetchItunesPoster cache net (Some []) (Some []))
       !! keyOf (Some []) (Some [])
     = Some noCoverUrl.
Proof.
  intros Hreach.
  destruct (posterReachable_blank_key _ Hreach) as [Hmiss|Hhit].
  - rewrite (fetchItunesPoster_empty_miss _ _ Hmiss). cbn.
    split; [reflexivity|]. split; [reflexivity|]. apply lookup_insert_eq.
  - rewrite (fetchItunesPoster_hit _ _ _ _ _ Hhit). cbn. auto.
Qed.

End CaseMapping.

(** C8: [keyOf] is the normaliser of the specification; inputs that
    agree after trimming and lower-casing get the same key; and, the
    engine lower-casing Basic Latin as usual, the two spellings of
    Imagine by John Lennon share one key and one cache entry: after the
    first lookup the second is a hit. *)
Theorem keyOf_normalizes :
  (forall title artist, keyOf title artist = normalizeKey title artist)
  /\ (forall t a t' a',
        toLowerCase (trim (default [] t)) = toLowerCase (trim (default [] t')) ->
        toLowerCase (trim (default [] a)) = toLowerCase (trim (default [] a')) ->
        keyOf t a = keyOf t' a')
  /\ ((forall s, forallb isAsciiUnit s = true ->
                toLowerCase s = asciiLowerCase s) ->
      keyOf (Some (js "Imagine")) (Some (js "John Lennon"))
      = keyOf (Some (js "  imagine ")) (Some (js "JOHN LENNON"))
      /\ forall cache net net',
          let first :=
            fetchItunesPoster cache net
              (Some (js "Imagine")) (Some (js "John Lennon")) in
          let second :=
            fetchItunesPoster (store first) net'
              (Some (js "  imagine ")) (Some (js "JOHN LENNON")) in
          result second = result first
          /\ fetched second = []
          /\ store second = store first).
Proof.
  assert (Hspec : forall title artist,
             keyOf title artist = normalizeKey title artist).
  { intros [[|c t]|] [[|d a]|]; reflexivity. }
  split; [exact Hspec|]. split.
  - intros t a t' a' Ht Ha. rewrite !Hspec. unfold normalizeKey.
    rewrite Ht, Ha. reflexivity.
  - intros Hascii.
    assert (Hkey : keyOf (Some (js "Imagine")) (Some (js "John Lennon"))
                   = keyOf (Some (js "  imagine ")) (Some (js "JOHN LENNON"))).
    { unfold keyOf. rewrite !Hascii by reflexivity. reflexivity. }
    split; [exact Hkey|]. intros cache net net' first second.
    destruct (fetchItunesPoster_returns cache net
                (Some (js "Imagine")) (Some (js "John Lennon"))
                (js "https://dummyimage.com/600x600/111/fff&text=Imagine%20John%20Lennon")
                eq_refl) as [v Hv].
    pose proof (fetchItunesPoster_stored _ _ _ _ _ Hv) as Hst.
    fold first in Hv, Hst. rewrite Hkey in Hst. unfold second.
    rewrite (fetchItunesPoster_hit _ _ _ _ _ Hst). rewrite Hv. auto.
Qed.

Lemma find_first_artwork (before after : list Candidate) c :
  Forall (fun x => hasArtwork x = false) before ->
  hasArtwork c = true ->
  firstArtwork (before ++ c :: after) = artworkUrl100 c.
Proof.
  intros Hb Hc. unfold firstArtwork.
  induction Hb as [|x before Hx _ IH]; simpl.
  - rewrite Hc. reflexivity.
  - rewrite Hx. exact IH.
Qed.

(** C9: when the first candidate with artwork has a URL that contains
    [/100x100bb.], a successful lookup returns and stores that URL with
    the first occurrence of the token replaced by [/600x600bb.] and every
    other character in place. *)
Theorem fetchItunesPoster_hi_res
    cache net title artist resp data (before after : list Candidate) c url :
  cache !! keyOf title artist = None ->
  truthy (posterTerm title artist) = true ->
  net (posterSearchUrl (posterTerm title artist)) = Normal resp ->
  ok resp = true ->
  body resp = Normal data ->
  results data = Some (before ++ c :: after) ->
  Forall (fun x => hasArtwork x = false) before ->
  artworkUrl100 c = Some url ->
  includes sizeToken url = true ->
  exists pre rest,
    url = pre ++ sizeToken ++ rest
    /\ indexOf sizeToken url = Some (length pre)
    /\ toHiResArtwork (Some url) = Some (pre ++ hiResToken ++ rest)
    /\ fetchItunesPoster cache net title artist
       = mkRun (Normal (pre ++ hiResToken ++ rest))
               (<[keyOf title artist := pre ++ hiResToken ++ rest]> cache)
               [posterSearchUrl (posterTerm title artist)].
Proof.
  intros Hc Ht Hnet Hok Hbody Hres Hbefore Hurl Hinc.
  destruct (includes_split _ _ Hinc) as (pre & rest & -> & Hidx).
  exists pre, rest. split; [reflexivity|]. split; [exact Hidx|].
  assert (Htruthy : truthy (pre ++ sizeToken ++ rest) = true)
    by (destruct pre; reflexivity).
  assert (Hhi : toHiResArtwork (Some (pre ++ sizeToken ++ rest))
                = Some (pre ++ hiResToken ++ rest)).
  { unfold toHiResArtwork. rewrite Htruthy.
    fold sizeToken. fold hiResToken.
    rewrite (replaceFirst_first _ _ _ _ Hidx). reflexivity. }
  split; [exact Hhi|].
  rewrite (fetchItunesPoster_search _ _ _ _ Hc Ht).
  unfold posterAttempt. rewrite Hnet. cbn [bind]. rewrite Hok. cbn [negb].
  rewrite Hbody. cbn [bind]. rewrite Hres.
  rewrite (find_first_artwork before after c Hbefore);
    [|unfold hasArtwork; rewrite Hurl; exact Htruthy].
  rewrite Hurl, Hhi.
  assert (truthy (pre ++ hiResToken ++ rest) = true) as ->
    by (destruct pre; reflexivity).
  reflexivity.
Qed.

(** ** The podcast resolver *)

(** One step of the dedupe loop. *)
Lemma dedupeLoop_cons p rest seen unique :
  dedupeLoop (p :: rest) seen unique =
  if falsyKey (idOf p) || bool_decide (idOf p ∈ seen)
  then dedupeLoop rest seen unique
  else if unusable p then dedupeLoop rest ({[idOf p]} ∪ seen) unique
  else if PODCAST_DEFAULT_LIMIT <=? length (unique ++ [p])
  then unique ++ [p]
  else dedupeLoop rest ({[idOf p]} ∪ seen) (unique ++ [p]).
Proof. reflexivity. Qed.

Lemma dedupeLoop_ok all seen unique :
  length unique < PODCAST_DEFAULT_LIMIT ->
  NoDup (idOf <$> unique) ->
  (forall p, p ∈ unique -> idOf p ∈ seen) ->
  Forall (fun p => unusable p = false) unique ->
  podcastListOk (dedupeLoop all seen unique).
Proof.
  revert seen unique.
  induction all as [|p rest IH]; intros seen unique Hlen Hnd Hseen Huse.
  - simpl. split; [lia|]. split; assumption.
  - rewrite dedupeLoop_cons.
    destruct (falsyKey (idOf p) || bool_decide (idOf p ∈ seen)) eqn:Hskip.
    { apply IH; assumption. }
    apply orb_false_elim in Hskip as [_ Hfresh].
    apply bool_decide_eq_false in Hfresh.
    destruct (unusable p) eqn:Hp.
    { apply IH; try assumption. intros x Hx. set_solver. }
    assert (Hnd' : NoDup (idOf <$> unique ++ [p])).
    { rewrite fmap_app. apply NoDup_app. split; [exact Hnd|].
      split; [|apply NoDup_singleton].
      intros k Hk Hk'. apply list_elem_of_singleton in Hk'. subst k.
      apply list_elem_of_fmap in Hk as (x & Hid & Hx).
      apply Hfresh. rewrite Hid. apply Hseen, Hx. }
    assert (Huse' : Forall (fun x => unusable x = false) (unique ++ [p])).
    { apply Forall_app. split; [exact Huse|]. constructor; [exact Hp|constructor]. }
    destruct (Nat.leb_spec PODCAST_DEFAULT_LIMIT (length (unique ++ [p])))
      as [Hfull|Hroom].
    + split; [|split; assumption].
      rewrite length_app in *. simpl in *. lia.
    + apply IH; try assumption.
      intros x Hx. apply elem_of_app in Hx as [Hx|Hx].
      * specialize (Hseen x Hx). set_solver.
      * apply list_elem_of_singleton in Hx. subst x. set_solver.
Qed.

Lemma dedupeUsable_ok all : podcastListOk (dedupeUsable all).
Proof.
  apply dedupeLoop_ok.
  - unfold PODCAST_DEFAULT_LIMIT. simpl. lia.
  - constructor.
  - intros p Hp. inversion Hp.
  - constructor.
Qed.

Lemma podcastListOk_nil : podcastListOk [].
Proof. apply (dedupeUsable_ok []). Qed.

(** Every list in a reachable podcast cache came out of the dedupe
    loop. *)
Lemma podcastReachable_ok cache :
  podcastReachable cache ->
  forall k e, cache !! k = Some e -> podcastListOk (value e).
Proof.
  induction 1 as [|c tRead tWrite ai net mood Hc IH]; intros k e He.
  - rewrite lookup_empty in He. discriminate.
  - unfold moodPodcasts in He.
    destruct (negb (truthy (trim (orEmpty mood)))); [exact (IH _ _ He)|].
    set (key := js "podcasts:" ++ toLowerCase (trim (orEmpty mood))) in *.
    assert (Hread : forall k e,
               (getPodcastCache c tRead key).2 !! k = Some e ->
               podcastListOk (value e)).
    { intros k0 e0. unfold getPodcastCache.
      destruct (c !! key) as [e1|]; [|apply IH].
      destruct (podcastExpiresAt e1 <=? tRead)%Z; [|apply IH].
      simpl. rewrite lookup_delete. case_decide; [discriminate | apply IH]. }
    destruct (getPodcastCache c tRead key) as [[cached|] c1];
      [exact (Hread _ _ He)|].
    destruct (ai (trim (orEmpty mood))) as [terms0|err];
      [|exact (Hread _ _ He)].
    destruct (gatherPodcasts net _ [] []) as [all sent].
    simpl in He. unfold setPodcastCache in He.
    rewrite lookup_insert in He. case_decide.
    + injection He as <-. apply dedupeUsable_ok.
    + exact (Hread _ _ He).
Qed.

(** Every list the handler returns came out of the dedupe loop. *)
Lemma moodPodcasts_ok cache tRead tWrite ai net mood l :
  podcastReachable cache ->
  result (moodPodcasts cache tRead tWrite ai net mood) = Json l ->
  podcastListOk l.
Proof.
  intros Hc. unfold moodPodcasts.
  destruct (negb (truthy (trim (orEmpty mood)))); [discriminate|].
  set (key := js "podcasts:" ++ toLowerCase (trim (orEmpty mood))).
  unfold getPodcastCache.
  destruct (cache !! key) as [e|] eqn:He.
  - destruct (podcastExpiresAt e <=? tRead)%Z.
    + destruct (ai (trim (orEmpty mood))) as [terms0|err].
      * destruct (gatherPodcasts net _ [] []) as [all sent].
        intros [= <-]. apply dedupeUsable_ok.
      * intros [= <-]. apply podcastListOk_nil.
    + intros [= <-]. exact (podcastReachable_ok _ Hc _ _ He).
  - destruct (ai (trim (orEmpty mood))) as [terms0|err].
    + destruct (gatherPodcasts net _ [] []) as [all sent].
      intros [= <-]. apply dedupeUsable_ok.
    + intros [= <-]. apply podcastListOk_nil.
Qed.

Lemma idOf_NumKey p n :
  n <> 0%Z -> (idOf p = NumKey n <-> collectionId p = Some n).
Proof.
  intros Hn. unfold idOf. destruct (collectionId p) as [m|].
  - destruct (Z.eqb_spec m 0) as [->|Hm]; split; intros H;
      try discriminate; try congruence.
  - split; discriminate.
Qed.

Lemma NoDup_fmap_filter_once {A B : Type} `{EqDecision B}
    (f : A -> B) (l : list A) (b : B) :
  NoDup (f <$> l) -> length (filter (fun x => f x = b) l) <= 1.
Proof.
  induction l as [|x l IH]; intros Hnd; [simpl; lia|].
  rewrite fmap_cons in Hnd. apply NoDup_cons in Hnd as [Hx Hnd].
  rewrite filter_cons. destruct (decide (f x = b)) as [Hb|Hb].
  - assert (filter (fun y => f y = b) l = []) as ->; [|simpl; lia].
    apply filter_none, Forall_forall. intros y Hy Hfy. apply Hx.
    apply list_elem_of_fmap. exists y. split; [congruence | exact Hy].
  - apply IH, Hnd.
Qed.

(** The loop never drops what it has kept. *)
Lemma dedupeLoop_extends all seen unique :
  unique `prefix_of` dedupeLoop all seen unique.
Proof.
  revert seen unique. induction all as [|x all IH]; intros seen unique;
    [reflexivity|].
  rewrite dedupeLoop_cons.
  destruct (falsyKey (idOf x) || bool_decide (idOf x ∈ seen)); [apply IH|].
  destruct (unusable x); [apply IH|].
  assert (Hx : unique `prefix_of` unique ++ [x]) by (exists [x]; reflexivity).
  destruct (PODCAST_DEFAULT_LIMIT <=? length (unique ++ [x])); [exact Hx|].
  etrans; [exact Hx | apply IH].
Qed.

(** As long as the limit is not reached, the loop over [l1 ++ rest]
    goes on with [rest] from what it has kept of [l1], having seen only
    identities of [l1] on the way. *)
Lemma dedupeLoop_app_below l1 rest seen unique :
  length (dedupeLoop l1 seen unique) < PODCAST_DEFAULT_LIMIT ->
  exists seen',
    dedupeLoop (l1 ++ rest) seen unique
    = dedupeLoop rest seen' (dedupeLoop l1 seen unique)
    /\ forall k, k ∈ seen' -> k ∈ seen \/ exists x, x ∈ l1 /\ idOf x = k.
Proof.
  revert seen unique. induction l1 as [|x l1 IH]; intros seen unique Hlen.
  { exists seen. split; [reflexivity | auto]. }
  assert (Hmore : forall s u,
             length (dedupeLoop l1 s u) < PODCAST_DEFAULT_LIMIT ->
             (forall k, k ∈ s -> k ∈ seen \/ k = idOf x) ->
             exists seen',
               dedupeLoop (l1 ++ rest) s u = dedupeLoop rest seen' (dedupeLoop l1 s u)
               /\ forall k, k ∈ seen' ->
                            k ∈ seen \/ exists y, y ∈ x :: l1 /\ idOf y = k).
  { intros s u Hu Hs. destruct (IH s u Hu) as (seen' & Heq & Hseen).
    exists seen'. split; [exact Heq|]. intros k Hk.
    destruct (Hseen k Hk) as [Hk'|(y & Hy & Hid)].
    - destruct (Hs k Hk') as [?| ->]; [left; assumption|].
      right. exists x. split; [left | reflexivity].
    - right. exists y. split; [right; exact Hy | exact Hid]. }
  rewrite <- app_comm_cons, !dedupeLoop_cons. rewrite dedupeLoop_cons in Hlen.
  destruct (falsyKey (idOf x) || bool_decide (idOf x ∈ seen));
    [apply Hmore; auto|].
  assert (Hs : forall k, k ∈ {[idOf x]} ∪ seen -> k ∈ seen \/ k = idOf x).
  { intros k Hk. apply elem_of_union in Hk as [Hk|Hk]; [right | left; exact Hk].
    apply elem_of_singleton in Hk. exact Hk. }
  destruct (unusable x); [apply Hmore; assumption|].
  destruct (Nat.leb_spec PODCAST_DEFAULT_LIMIT (length (unique ++ [x])))
    as [Hfull|_]; [lia|].
  apply Hmore; assumption.
Qed.

(** The first entry with a non-zero [collectionId], when it is usable and
    the limit has not been reached before it, is kept. *)
Lemma dedupeUsable_keeps_first earlier p later n :
  n <> 0%Z ->
  collectionId p = Some n ->
  (forall x, x ∈ earlier -> collectionId x <> Some n) ->
  unusable p = false ->
  length (dedupeUsable earlier) < PODCAST_DEFAULT_LIMIT ->
  p ∈ dedupeUsable (earlier ++ p :: later).
Proof.
  intros Hn Hp Hfirst Huse Hlen. unfold dedupeUsable in *.
  destruct (dedupeLoop_app_below earlier (p :: later) ∅ [] Hlen)
    as (seen' & -> & Hseen).
  assert (Hid : idOf p = NumKey n) by (apply idOf_NumKey; assumption).
  assert (Hnew : idOf p ∉ seen').
  { intros Hin. destruct (Hseen _ Hin) as [Hin'|(x & Hx & Hxid)].
    - set_solver.
    - apply (Hfirst x Hx). apply (idOf_NumKey x n Hn). congruence. }
  rewrite dedupeLoop_cons, Huse.
  assert (Hf : falsyKey (idOf p) = false)
    by (rewrite Hid; simpl; apply Z.eqb_neq, Hn).
  rewrite Hf, (bool_decide_eq_false_2 _ Hnew). cbn [orb].
  assert (Hp' : p ∈ dedupeLoop earlier ∅ [] ++ [p])
    by (apply elem_of_app; right; left).
  destruct (PODCAST_DEFAULT_LIMIT <=? _); [exact Hp'|].
  destruct (dedupeLoop_extends later ({[idOf p]} ∪ seen')
              (dedupeLoop earlier ∅ [] ++ [p])) as [k ->].
  apply elem_of_app. left. exact Hp'.
Qed.

(** On a cache miss with generated terms, the reply is what the dedupe
    loop keeps of the gathered entries. *)
Lemma moodPodcasts_computed cache tRead tWrite ai net mood terms0 l :
  result (moodPodcasts cache tRead tWrite ai net mood) = Json l ->
  (getPodcastCache cache tRead (podcastKey mood)).1 = None ->
  ai (trim (orEmpty mood)) = Normal terms0 ->
  l = dedupeUsable (gathered net (trim (orEmpty mood)) terms0).
Proof.
  unfold moodPodcasts, gathered, searchTerms.
  destruct (negb (truthy (trim (orEmpty mood)))); [discriminate|].
  fold (podcastKey mood).
  destruct (getPodcastCache cache tRead (podcastKey mood)) as [[c|] c1];
    intros Hl Hmiss Hai; [discriminate|].
  rewrite Hai in Hl. cbn zeta in Hl.
  destruct (gatherPodcasts net _ [] []) as [all sent].
  injection Hl as <-. reflexivity.
Qed.

(** C6, as amended: every list the podcast handler returns has at most
    20 entries and no two entries with the same identity as the loop
    computes it (the [collectionId] when it is neither null nor 0, else
    the text title-author); so it has at most one entry with
    [collectionId] 42, or any other non-zero id.  And a list computed by
    the request has exactly one entry with such an id when the first
    gathered entry with that id has a title and a trackViewUrl and the
    loop has kept fewer than 20 entries of those before it. *)
Theorem moodPodcasts_bounded_deduplicated
    cache tRead tWrite ai net mood l :
  podcastReachable cache ->
  result (moodPodcasts cache tRead tWrite ai net mood) = Json l ->
  length l <= 20
  /\ NoDup (idOf <$> l)
  /\ (forall n, n <> 0%Z -> countId n l <= 1)
  /\ countId 42 l <= 1
  /\ (forall terms0 earlier p later n,
        (getPodcastCache cache tRead (podcastKey mood)).1 = None ->
        ai (trim (orEmpty mood)) = Normal terms0 ->
        gathered net (trim (orEmpty mood)) terms0 = earlier ++ p :: later ->
        n <> 0%Z ->
        collectionId p = Some n ->
        (forall x, x ∈ earlier -> collectionId x <> Some n) ->
        unusable p = false ->
        length (dedupeUsable earlier) < 20 ->
        countId n l = 1).
Proof.
  intros Hc Hl.
  destruct (moodPodcasts_ok _ _ _ _ _ _ _ Hc Hl) as (Hlen & Hnd & _).
  assert (Hcount : forall n, n <> 0%Z -> countId n l <= 1).
  { intros n Hn. unfold countId.
    rewrite <- (list_filter_iff (fun p => idOf p = NumKey n)
                 (fun p => collectionId p = Some n) l
                 (fun p => idOf_NumKey p n Hn)).
    apply NoDup_fmap_filter_once, Hnd. }
  split; [exact Hlen|]. split; [exact Hnd|]. split; [exact Hcount|].
  split; [apply Hcount; discriminate|].
  intros terms0 earlier p later n Hmiss Hai Hall Hn Hp Hfirst Huse Hbelow.
  pose proof (moodPodcasts_computed _ _ _ _ _ _ _ _ Hl Hmiss Hai) as Hcomp.
  rewrite Hall in Hcomp.
  assert (Hin : p ∈ filter (fun q => collectionId q = Some n) l).
  { apply list_elem_of_filter. split; [exact Hp|]. rewrite Hcomp.
    apply (dedupeUsable_keeps_first earlier p later n); assumption. }
  specialize (Hcount n Hn). unfold countId in *.
  destruct (filter _ l); [inversion Hin | simpl in *; lia].
Qed.

Lemma unusable_false p :
  unusable p = false ->
  exists t u, title p = Some t /\ t <> []
              /\ trackViewUrl p = Some u /\ u <> [].
Proof.
  unfold unusable, orNull.
  destruct (title p) as [[|c t]|]; simpl; try discriminate.
  destruct (trackViewUrl p) as [[|d u]|]; simpl; try discriminate.
  intros _. exists (c :: t), (d :: u). repeat split; discriminate.
Qed.

(** C7: every entry of a list the podcast handler returns has a title
    and a [trackViewUrl]; an entry without a title is not in the list,
    whatever its [collectionId], 7 included. *)
Theorem moodPodcasts_only_usable cache tRead tWrite ai net mood l :
  podcastReachable cache ->
  result (moodPodcasts cache tRead tWrite ai net mood) = Json l ->
  (forall p, p ∈ l ->
     exists t u, title p = Some t /\ t <> []
                 /\ trackViewUrl p = Some u /\ u <> [])
  /\ (forall p, title p = None \/ trackViewUrl p = None -> p ∉ l)
  /\ (forall p, collectionId p = Some 7%Z -> title p = None -> p ∉ l).
Proof.
  intros Hc Hl.
  destruct (moodPodcasts_ok _ _ _ _ _ _ _ Hc Hl) as (_ & _ & Huse).
  assert (H1 : forall p, p ∈ l ->
             exists t u, title p = Some t /\ t <> []
                         /\ trackViewUrl p = Some u /\ u <> []).
  { intros p Hp. apply unusable_false.
    rewrite Forall_forall in Huse. apply Huse, Hp. }
  split; [exact H1|].
  assert (H2 : forall p, title p = None \/ trackViewUrl p = None -> p ∉ l).
  { intros p Hlack Hp. destruct (H1 p Hp) as (t & u & Ht & _ & Hu & _).
    destruct Hlack; congruence. }
  split; [exact H2|]. intros p _ Ht. apply H2. left. exact Ht.
Qed.

(** An entry whose identity is already in [seen], or is falsy, changes
    nothing, wherever it stands in the rest of the sequence. *)
Lemma dedupeLoop_skip_seen l q l3 seen unique :
  falsyKey (idOf q) = true \/ idOf q ∈ seen ->
  dedupeLoop (l ++ q :: l3) seen unique = dedupeLoop (l ++ l3) seen unique.
Proof.
  revert seen unique. induction l as [|x l IH]; intros seen unique Hq.
  - rewrite !app_nil_l, dedupeLoop_cons.
    destruct Hq as [-> | Hq]; [reflexivity|].
    rewrite (bool_decide_eq_true_2 _ Hq), orb_true_r. reflexivity.
  - rewrite <- !app_comm_cons, !dedupeLoop_cons.
    assert (Hq' : falsyKey (idOf q) = true \/ idOf q ∈ {[idOf x]} ∪ seen)
      by (destruct Hq; [left | right; set_solver]; assumption).
    rewrite (IH seen unique Hq), (IH _ unique Hq'), (IH _ (unique ++ [x]) Hq').
    reflexivity.
Qed.

(** Once an entry has been visited, a later entry with the same identity
    changes nothing: the identity is recorded before the usability
    filter. *)
Lemma dedupeLoop_later_same_id p l2 q l3 seen unique :
  idOf q = idOf p ->
  dedupeLoop (p :: l2 ++ q :: l3) seen unique
  = dedupeLoop (p :: l2 ++ l3) seen unique.
Proof.
  intros Hid. rewrite !dedupeLoop_cons.
  destruct (falsyKey (idOf p)) eqn:Hf.
  { simpl. apply dedupeLoop_skip_seen. left. rewrite Hid. exact Hf. }
  destruct (bool_decide (idOf p ∈ seen)) eqn:Hs.
  { simpl. apply bool_decide_eq_true in Hs.
    apply dedupeLoop_skip_seen. right. rewrite Hid. exact Hs. }
  simpl.
  rewrite !(dedupeLoop_skip_seen l2 q l3 ({[idOf p]} ∪ seen))
    by (right; rewrite Hid; set_solver).
  reflexivity.
Qed.

Lemma dedupeLoop_prefix l1 xs ys :
  (forall seen unique, dedupeLoop xs seen unique = dedupeLoop ys seen unique) ->
  forall seen unique,
    dedupeLoop (l1 ++ xs) seen unique = dedupeLoop (l1 ++ ys) seen unique.
Proof.
  intros H. induction l1 as [|x l1 IH]; intros seen unique; [apply H|].
  rewrite <- !app_comm_cons, !dedupeLoop_cons, !IH. reflexivity.
Qed.

(** An identity that is in [seen], or is falsy, is never added. *)
Lemma dedupeLoop_consumed k all seen unique :
  falsyKey k = true \/ k ∈ seen ->
  (forall r, r ∈ unique -> idOf r <> k) ->
  forall r, r ∈ dedupeLoop all seen unique -> idOf r <> k.
Proof.
  revert seen unique.
  induction all as [|x all IH]; intros seen unique Hk Hu; [exact Hu|].
  rewrite dedupeLoop_cons.
  destruct (falsyKey (idOf x) || bool_decide (idOf x ∈ seen)) eqn:Hskip.
  { apply IH; assumption. }
  assert (Hk' : falsyKey k = true \/ k ∈ {[idOf x]} ∪ seen)
    by (destruct Hk; [left | right; set_solver]; assumption).
  destruct (unusable x); [apply IH; assumption|].
  assert (Hu' : forall r, r ∈ unique ++ [x] -> idOf r <> k).
  { intros r Hr. apply elem_of_app in Hr as [Hr|Hr]; [apply Hu, Hr|].
    apply list_elem_of_singleton in Hr. subst r. intros Hx.
    apply orb_false_elim in Hskip as [Hf Hs].
    apply bool_decide_eq_false in Hs. rewrite Hx in Hf, Hs.
    destruct Hk; congruence. }
  destruct (PODCAST_DEFAULT_LIMIT <=? length (unique ++ [x]));
    [exact Hu' | apply IH; assumption].
Qed.

(** An unusable entry that is the first of its identity keeps that
    identity out of the result. *)
Lemma dedupeLoop_unusable_first l1 p rest seen unique :
  unusable p = true ->
  (forall x, x ∈ l1 -> idOf x <> idOf p) ->
  (forall r, r ∈ unique -> idOf r <> idOf p) ->
  forall r, r ∈ dedupeLoop (l1 ++ p :: rest) seen unique ->
            idOf r <> idOf p.
Proof.
  intros Hp. revert seen unique.
  induction l1 as [|x l1 IH]; intros seen unique Hl1 Hu.
  - rewrite app_nil_l, dedupeLoop_cons.
    destruct (falsyKey (idOf p)) eqn:Hf.
    { simpl. apply dedupeLoop_consumed; [left|]; assumption. }
    destruct (bool_decide (idOf p ∈ seen)) eqn:Hs.
    { simpl. apply bool_decide_eq_true in Hs.
      apply dedupeLoop_consumed; [right|]; assumption. }
    simpl. rewrite Hp.
    apply dedupeLoop_consumed; [right; set_solver | assumption].
  - assert (Hx : idOf x <> idOf p) by (apply Hl1; left).
    assert (Hl1' : forall y, y ∈ l1 -> idOf y <> idOf p)
      by (intros y Hy; apply Hl1; right; exact Hy).
    assert (Hu' : forall r, r ∈ unique ++ [x] -> idOf r <> idOf p).
    { intros r Hr. apply elem_of_app in Hr as [Hr|Hr]; [apply Hu, Hr|].
      apply list_elem_of_singleton in Hr. subst r. exact Hx. }
    rewrite <- app_comm_cons, dedupeLoop_cons.
    destruct (falsyKey (idOf x) || bool_decide (idOf x ∈ seen));
      [apply IH; assumption|].
    destruct (unusable x); [apply IH; assumption|].
    destruct (PODCAST_DEFAULT_LIMIT <=? length (unique ++ [x]));
      [exact Hu' | apply IH; assumption].
Qed.

(** The identity of the specification is the identity of the loop, but
    for a [collectionId] of 0. *)
Lemma specIdentity_idOf p q :
  specIdentity p = specIdentity q -> collectionId p <> Some 0%Z ->
  idOf p = idOf q.
Proof.
  unfold specIdentity, idOf.
  destruct (collectionId p) as [n|], (collectionId q) as [m|];
    try discriminate.
  - intros [= <-] Hn. destruct (Z.eqb_spec n 0); congruence.
  - intros [= -> ->] _. reflexivity.
Qed.

(** C10, as amended: the identity of an entry is recorded before the
    usability filter runs.  When an entry without title or
    [trackViewUrl] precedes an entry with the same identity, as the loop
    computes it (the same non-zero [collectionId], or the same text
    title-author when the [collectionId] is null or 0), the later entry
    contributes nothing to the final list; and if the unusable entry is
    the first of its identity, the final list has no entry of that
    identity. *)
Theorem dedupe_identity_consumed_by_unusable
    (l1 : list Podcast) p (l2 : list Podcast) q (l3 : list Podcast) :
  unusable p = true ->
  unusable q = false ->
  idOf q = idOf p ->
  dedupeUsable (l1 ++ p :: l2 ++ q :: l3)
  = dedupeUsable (l1 ++ p :: l2 ++ l3)
  /\ ((forall x, x ∈ l1 -> idOf x <> idOf p) ->
      (q ∉ dedupeUsable (l1 ++ p :: l2 ++ q :: l3))
      /\ forall r, r ∈ dedupeUsable (l1 ++ p :: l2 ++ q :: l3) ->
                   idOf r <> idOf p).
Proof.
  intros Hp Hq Hid. split.
  - unfold dedupeUsable. apply dedupeLoop_prefix. intros seen unique.
    apply dedupeLoop_later_same_id, Hid.
  - intros Hfirst.
    assert (Hnone : forall r, r ∈ dedupeUsable (l1 ++ p :: l2 ++ q :: l3) ->
                              idOf r <> idOf p).
    { unfold dedupeUsable. apply dedupeLoop_unusable_first; try assumption.
      intros r Hr. inversion Hr. }
    split; [|exact Hnone]. intros Hin. exact (Hnone q Hin Hid).
Qed.

(** * Further properties *)

(** ** Percent-encoding *)

Lemma isUnescaped_ascii (c : N) : isUnescaped c = true -> (c < 0x80)%N.
Proof.
  unfold isUnescaped, isAlnum.
  rewrite !orb_true_iff, !andb_true_iff, !N.leb_le, !N.eqb_eq. lia.
Qed.

Lemma isUnescaped_no_surrogate (c : N) :
  isUnescaped c = true ->
  isLeadSurrogate c = false /\ isTrailSurrogate c = false.
Proof.
  intros H. apply isUnescaped_ascii in H.
  unfold isLeadSurrogate, isTrailSurrogate.
  rewrite !andb_false_iff, !N.leb_gt. lia.
Qed.

Lemma hexDigit_uri (d : N) : (d < 16)%N -> isUriChar (hexDigit d) = true.
Proof.
  intros H. unfold isUriChar, isUnescaped, isAlnum, hexDigit.
  destruct (N.ltb_spec d 10);
    rewrite !orb_true_iff, !andb_true_iff, !N.leb_le, !N.eqb_eq; lia.
Qed.

Lemma pct_uri (octet : N) :
  (octet < 256)%N -> forallb isUriChar (pct octet) = true.
Proof.
  intros H. unfold pct. cbn [forallb].
  rewrite !hexDigit_uri; [reflexivity| |].
  - pose proof (N.land_le_r octet 0xF). lia.
  - rewrite N.shiftr_div_pow2. change (2 ^ 4)%N with 16%N.
    apply N.Div0.div_lt_upper_bound. lia.
Qed.

Lemma lor_lt_256 (a b : N) :
  (a < 256)%N -> (b < 256)%N -> (N.lor a b < 256)%N.
Proof.
  intros Ha Hb.
  destruct (N.eq_dec a 0) as [->|Ha0]; [rewrite N.lor_0_l; exact Hb|].
  destruct (N.eq_dec b 0) as [->|Hb0]; [rewrite N.lor_0_r; exact Ha|].
  assert (Hl : (N.lor a b <> 0)%N).
  { intros H0. apply N.lor_eq_0_iff in H0. tauto. }
  change 256%N with (2 ^ 8)%N in *.
  apply N.log2_lt_pow2; [lia|]. rewrite N.log2_lor.
  apply N.log2_lt_pow2 in Ha; [|lia]. apply N.log2_lt_pow2 in Hb; [|lia].
  lia.
Qed.

Lemma continuation_octet (x : N) : (N.lor 0x80 (N.land x 0x3F) < 256)%N.
Proof.
  apply lor_lt_256; [lia|]. pose proof (N.land_le_r x 0x3F). lia.
Qed.

Lemma shiftr_lt (x n b : N) : (x < b * 2 ^ n)%N -> (N.shiftr x n < b)%N.
Proof.
  intros H. rewrite N.shiftr_div_pow2.
  apply N.Div0.div_lt_upper_bound. lia.
Qed.

(** The UTF-8 octets of a code point are octets. *)
Lemma utf8_octets (cp : N) :
  (cp < 0x110000)%N -> Forall (fun o => (o < 256)%N) (utf8 cp).
Proof.
  intros H. unfold utf8.
  destruct (N.ltb_spec cp 0x80); [repeat constructor; lia|].
  destruct (N.ltb_spec cp 0x800).
  { repeat constructor; [|apply continuation_octet].
    apply lor_lt_256; [lia|].
    assert (N.shiftr cp 6 < 32)%N by (apply shiftr_lt; simpl; lia). lia. }
  destruct (N.ltb_spec cp 0x10000).
  { repeat constructor; try apply continuation_octet.
    apply lor_lt_256; [lia|].
    assert (N.shiftr cp 12 < 16)%N by (apply shiftr_lt; simpl; lia). lia. }
  repeat constructor; try apply continuation_octet.
  apply lor_lt_256; [lia|].
  assert (N.shiftr cp 18 < 8)%N by (apply shiftr_lt; simpl; lia). lia.
Qed.

Lemma utf8_length (cp : N) :
  length (utf8 cp) <= 4
  /\ ((cp < 0x10000)%N -> length (utf8 cp) <= 3).
Proof.
  unfold utf8.
  destruct (N.ltb_spec cp 0x80); [simpl; lia|].
  destruct (N.ltb_spec cp 0x800); [simpl; lia|].
  destruct (N.ltb_spec cp 0x10000); simpl; lia.
Qed.

Lemma pctAll_uri (octets : list N) :
  Forall (fun o => (o < 256)%N) octets ->
  forallb isUriChar (pctAll octets) = true
  /\ length (pctAll octets) = 3 * length octets.
Proof.
  unfold pctAll. induction 1 as [|o l Ho _ [IH1 IH2]]; [split; reflexivity|].
  cbn [mbind list_bind]. rewrite forallb_app, length_app, IH1, IH2.
  rewrite (pct_uri o Ho). split; [reflexivity|]. simpl. lia.
Qed.

Lemma pairCodePoint_bound (hi lo : N) :
  isLeadSurrogate hi = true -> isTrailSurrogate lo = true ->
  (pairCodePoint hi lo < 0x110000)%N.
Proof.
  unfold isLeadSurrogate, isTrailSurrogate, pairCodePoint.
  rewrite !andb_true_iff, !N.leb_le. lia.
Qed.

(** What [encodeURIComponent] returns is made of unescaped characters and
    percent signs, at most nine for each code unit of its argument. *)
Lemma encodeURIComponent_shape (n : nat) :
  forall s e,
    length s <= n ->
    forallb isCodeUnit s = true ->
    encodeURIComponent s = Normal e ->
    forallb isUriChar e = true /\ length e <= 9 * length s.
Proof.
  induction n as [|n IH]; intros s e Hn Hs He.
  { destruct s; [|simpl in Hn; lia]. injection He as <-. split; auto. }
  destruct s as [|c rest]; [injection He as <-; split; auto|].
  cbn [forallb] in Hs. apply andb_prop in Hs as [Hc Hrest].
  simpl in Hn. cbn [encodeURIComponent] in He.
  destruct (isUnescaped c) eqn:Hu.
  { destruct (encodeURIComponent rest) as [r|] eqn:Hr; [|discriminate].
    injection He as <-.
    destruct (IH rest r ltac:(lia) Hrest Hr) as [H1 H2].
    cbn [forallb length]. unfold isUriChar at 1. rewrite Hu, H1.
    split; [reflexivity | lia]. }
  destruct (isLeadSurrogate c) eqn:Hlead.
  { destruct rest as [|d rest']; [discriminate|].
    destruct (isTrailSurrogate d) eqn:Htrail; [|discriminate].
    destruct (encodeURIComponent rest') as [r|] eqn:Hr; [|discriminate].
    injection He as <-.
    cbn [forallb] in Hrest. apply andb_prop in Hrest as [_ Hrest'].
    simpl in Hn.
    destruct (IH rest' r ltac:(lia) Hrest' Hr) as [H1 H2].
    pose proof (pairCodePoint_bound c d Hlead Htrail) as Hcp.
    destruct (pctAll_uri _ (utf8_octets _ Hcp)) as [H3 H4].
    destruct (utf8_length (pairCodePoint c d)) as [H5 _].
    rewrite forallb_app, length_app, H1, H3, H4. cbn [length].
    split; [reflexivity | lia]. }
  destruct (isTrailSurrogate c); [discriminate|].
  destruct (encodeURIComponent rest) as [r|] eqn:Hr; [|discriminate].
  injection He as <-.
  destruct (IH rest r ltac:(lia) Hrest Hr) as [H1 H2].
  apply N.ltb_lt in Hc.
  destruct (pctAll_uri _ (utf8_octets c ltac:(lia))) as [H3 H4].
  destruct (utf8_length c) as [_ H5]. specialize (H5 Hc).
  rewrite forallb_app, length_app, H1, H3, H4. cbn [length].
  split; [reflexivity | lia].
Qed.

(** [encodeURIComponent] throws nothing but a URIError, and throws it
    exactly on the strings that are not well formed. *)
Lemma encodeURIComponent_wellFormed (n : nat) :
  forall s,
    length s <= n ->
    match encodeURIComponent s with
    | Normal _ => isWellFormed s = true
    | Throw e => e = URIError /\ isWellFormed s = false
    end.
Proof.
  induction n as [|n IH]; intros s Hn.
  { destruct s; [reflexivity | simpl in Hn; lia]. }
  destruct s as [|c rest]; [reflexivity|]. simpl in Hn.
  cbn [encodeURIComponent isWellFormed].
  destruct (isUnescaped c) eqn:Hu.
  { destruct (isUnescaped_no_surrogate c Hu) as [-> ->].
    specialize (IH rest ltac:(lia)).
    destruct (encodeURIComponent rest); cbn [bind negb andb]; exact IH. }
  destruct (isLeadSurrogate c).
  { destruct rest as [|d rest']; [split; reflexivity|].
    destruct (isTrailSurrogate d); [|split; reflexivity].
    simpl in Hn. specialize (IH rest' ltac:(lia)).
    destruct (encodeURIComponent rest'); cbn [bind andb]; exact IH. }
  destruct (isTrailSurrogate c); [split; reflexivity|].
  specialize (IH rest ltac:(lia)).
  destruct (encodeURIComponent rest); cbn [bind negb andb]; exact IH.
Qed.

(** ** More on the poster resolver *)

Lemma replaceFirst_absent (p r s : jsstring) :
  indexOf p s = None -> replaceFirst p r s = s.
Proof.
  induction s as [|c s IH]; simpl.
  - destruct (startsWith p []); [discriminate | reflexivity].
  - destruct (startsWith p (c :: s)); [discriminate|].
    destruct (indexOf p s); [discriminate|].
    intros _. rewrite IH; reflexivity.
Qed.

(** X1: a non-empty artwork URL without the size token is returned as it
    is. *)
Theorem toHiResArtwork_without_token (url : jsstring) :
  url <> [] ->
  includes sizeToken url = false ->
  toHiResArtwork (Some url) = Some url.
Proof.
  intros Hne Hno. unfold toHiResArtwork.
  apply truthy_nonempty in Hne. rewrite Hne.
  unfold includes in Hno. fold sizeToken.
  destruct (indexOf sizeToken url) eqn:Hidx; [discriminate|].
  rewrite (replaceFirst_absent _ _ _ Hidx). reflexivity.
Qed.

(** X2: the rewrite never changes the length of the URL: the result is
    the URL itself or the URL with eleven characters replaced by eleven. *)
Theorem toHiResArtwork_length (url poster : jsstring) :
  toHiResArtwork (Some url) = Some poster ->
  length poster = length url
  /\ (poster = url
      \/ exists pre rest,
           url = pre ++ sizeToken ++ rest
           /\ poster = pre ++ hiResToken ++ rest).
Proof.
  unfold toHiResArtwork. destruct (truthy url); [|discriminate].
  intros [= <-]. fold sizeToken. fold hiResToken.
  destruct (indexOf sizeToken url) as [n|] eqn:Hidx.
  - destruct (indexOf_split _ _ _ Hidx) as (pre & rest & -> & <-).
    rewrite (replaceFirst_first _ _ _ _ Hidx).
    split; [rewrite !length_app; reflexivity|].
    right. exists pre, rest. split; reflexivity.
  - rewrite (replaceFirst_absent _ _ _ Hidx). split; [reflexivity | left; reflexivity].
Qed.

Lemma forallb_trim (P : N -> bool) (s : jsstring) :
  forallb P s = true -> forallb P (trim s) = true.
Proof.
  intros H. apply forallb_forall. intros x Hx.
  assert (Hall : Forall (fun y => P y = true) (trim s)).
  { apply Forall_trim, Forall_forall. intros y Hy.
    apply (proj1 (forallb_forall P s) H), list_elem_of_In, Hy. }
  rewrite Forall_forall in Hall. apply Hall, list_elem_of_In, Hx.
Qed.

Lemma forallb_orEmpty (P : N -> bool) (v : option jsstring) :
  (forall s, v = Some s -> forallb P s = true) ->
  forallb P (orEmpty v) = true.
Proof.
  destruct v as [[|c s]|]; intros H; [reflexivity| |reflexivity].
  exact (H _ eq_refl).
Qed.

Lemma placeholderText_code_units title artist :
  (forall s, title = Some s -> forallb isCodeUnit s = true) ->
  (forall s, artist = Some s -> forallb isCodeUnit s = true) ->
  forallb isCodeUnit (placeholderText title artist) = true.
Proof.
  intros Ht Ha. unfold placeholderText, orElse.
  destruct (truthy _); [|reflexivity].
  apply forallb_trim. rewrite !forallb_app.
  rewrite (forallb_trim _ _ (forallb_orEmpty _ _ Ht)).
  rewrite (forallb_trim _ _ (forallb_orEmpty _ _ Ha)). reflexivity.
Qed.

Lemma forallb_take {A : Type} (P : A -> bool) (n : nat) (l : list A) :
  forallb P l = true -> forallb P (take n l) = true.
Proof.
  revert n. induction l as [|x l IH]; intros [|n] H; try reflexivity.
  simpl in *. apply andb_prop in H as [-> H]. exact (IH n H).
Qed.

(** X3: a placeholder URL is the fixed address followed by at most 540
    characters, each an unescaped character or a percent sign: it has at
    most 584 characters, all of them in Basic Latin. *)
Theorem buildPlaceholderPoster_url_safe title artist url :
  (forall s, title = Some s -> forallb isCodeUnit s = true) ->
  (forall s, artist = Some s -> forallb isCodeUnit s = true) ->
  buildPlaceholderPoster title artist = Normal url ->
  exists e,
    url = js "https://dummyimage.com/600x600/111/fff&text=" ++ e
    /\ forallb isUriChar e = true
    /\ length e <= 540
    /\ length url <= 584.
Proof.
  intros Ht Ha. unfold buildPlaceholderPoster.
  destruct (encodeURIComponent (slice0 60 (placeholderText title artist)))
    as [e|] eqn:He; [|discriminate].
  cbn [bind]. intros Hurl. injection Hurl as Hurl. subst url.
  exists e. split; [reflexivity|].
  destruct (encodeURIComponent_shape _ _ e (le_n _)
              (forallb_take _ 60 _ (placeholderText_code_units _ _ Ht Ha)) He)
    as [Hsafe Hlen].
  unfold slice0 in Hlen.
  assert (Hcut : length (take 60 (placeholderText title artist)) <= 60)
    by (rewrite length_take; lia).
  split; [exact Hsafe|]. split; [lia|].
  change (length (js "https://dummyimage.com/600x600/111/fff&text=" ++ e)
          <= 584).
  rewrite length_app.
  change (length (js "https://dummyimage.com/600x600/111/fff&text=")) with 44.
  lia.
Qed.

(** X4: [fetchItunesPoster] raises nothing but a URIError, only on a
    cache miss, only when the first 60 code units of the placeholder text
    are not well-formed UTF-16, and then it leaves the cache as it was. *)
Theorem fetchItunesPoster_raises_only_uri_error cache net title artist e :
  result (fetchItunesPoster cache net title artist) = Throw e ->
  e = URIError
  /\ isWellFormed (slice0 60 (placeholderText title artist)) = false
  /\ cache !! keyOf title artist = None
  /\ store (fetchItunesPoster cache net title artist) = cache.
Proof.
  assert (Hph : forall e', buildPlaceholderPoster title artist = Throw e' ->
                  e' = URIError
                  /\ isWellFormed (slice0 60 (placeholderText title artist))
                     = false).
  { unfold buildPlaceholderPoster. intros e'.
    pose proof (encodeURIComponent_wellFormed _
                  (slice0 60 (placeholderText title artist)) (le_n _)) as Hw.
    destruct (encodeURIComponent _); [discriminate|].
    intros [= <-]. exact Hw. }
  destruct (cache !! keyOf title artist) as [w|] eqn:Hc.
  { rewrite (fetchItunesPoster_hit _ _ _ _ _ Hc). discriminate. }
  destruct (truthy (posterTerm title artist)) eqn:Ht.
  - rewrite (fetchItunesPoster_search _ _ _ _ Hc Ht).
    destruct (posterAttempt _ _ _ _) as [v|e0]; [discriminate|].
    destruct (buildPlaceholderPoster title artist) as [v|e1] eqn:Hb;
      [discriminate|].
    cbn. intros [= <-]. destruct (Hph _ eq_refl) as [-> Hw]. auto.
  - rewrite (fetchItunesPoster_no_term _ _ _ _ Hc Ht).
    destruct (buildPlaceholderPoster title artist) as [v|e1] eqn:Hb;
      [discriminate|].
    cbn. intros [= <-]. destruct (Hph _ eq_refl) as [-> Hw]. auto.
Qed.


(** The cache after a lookup: as before, or with one value stored under
    the key of the lookup, which was free. *)
Lemma fetchItunesPoster_store_cases cache net title artist :
  store (fetchItunesPoster cache net title artist) = cache
  \/ exists v,
       cache !! keyOf title artist = None
       /\ result (fetchItunesPoster cache net title artist) = Normal v
       /\ store (fetchItunesPoster cache net title artist)
          = <[keyOf title artist := v]> cache.
Proof.
  destruct (cache !! keyOf title artist) as [w|] eqn:Hc.
  { rewrite (fetchItunesPoster_hit _ _ _ _ _ Hc). left. reflexivity. }
  destruct (truthy (posterTerm title artist)) eqn:Ht.
  - rewrite (fetchItunesPoster_search _ _ _ _ Hc Ht).
    destruct (match posterAttempt _ _ _ _ with
              | Normal v0 => Normal v0 | Throw _ => _ end) as [v|e];
      cbn; [right; exists v | left]; auto.
  - rewrite (fetchItunesPoster_no_term _ _ _ _ Hc Ht).
    destruct (buildPlaceholderPoster title artist) as [v|e];
      cbn; [right; exists v | left]; auto.
Qed.

Lemma posterAttempt_nonempty net url title artist v :
  posterAttempt net url title artist = Normal v -> v <> [].
Proof.
  assert (Hph : placeholderOrDefault title artist = Normal v -> v <> []).
  { rewrite placeholderOrDefault_eq. unfold buildPlaceholderPoster.
    destruct (encodeURIComponent _); [|discriminate].
    intros [= <-]. discriminate. }
  unfold posterAttempt. destruct (net url) as [r|]; [|discriminate].
  cbn [bind]. destruct (negb (ok r)); [exact Hph|].
  destruct (body r) as [data|]; [|discriminate]. cbn [bind].
  destruct (toHiResArtwork _) as [p|]; [|exact Hph].
  destruct (truthy p) eqn:Hp; [|exact Hph].
  intros [= <-]. apply truthy_nonempty, Hp.
Qed.

Lemma fetchItunesPoster_fresh_nonempty cache net title artist v :
  cache !! keyOf title artist = None ->
  result (fetchItunesPoster cache net title artist) = Normal v -> v <> [].
Proof.
  assert (Hph : buildPlaceholderPoster title artist = Normal v -> v <> []).
  { unfold buildPlaceholderPoster.
    destruct (encodeURIComponent _); [|discriminate].
    intros [= <-]. discriminate. }
  intros Hc. destruct (truthy (posterTerm title artist)) eqn:Ht.
  - rewrite (fetchItunesPoster_search _ _ _ _ Hc Ht).
    destruct (posterAttempt _ _ _ _) as [w|e0] eqn:Ha.
    + cbn. intros [= <-]. exact (posterAttempt_nonempty _ _ _ _ _ Ha).
    + destruct (buildPlaceholderPoster title artist) as [w|e1];
        cbn; [|discriminate].
      intros [= <-]. apply Hph. reflexivity.
  - rewrite (fetchItunesPoster_no_term _ _ _ _ Hc Ht).
    destruct (buildPlaceholderPoster title artist) as [w|e1];
      cbn; [|discriminate].
    intros [= <-]. apply Hph. reflexivity.
Qed.

Lemma posterReachable_nonempty cache :
  posterReachable cache ->
  forall k v, cache !! k = Some v -> v <> [].
Proof.
  induction 1 as [|c net title artist Hc IH]; intros k v Hk.
  - rewrite lookup_empty in Hk. discriminate.
  - destruct (fetchItunesPoster_store_cases c net title artist)
      as [Heq | (w & Hfree & Hres & Heq)]; rewrite Heq in Hk.
    + exact (IH _ _ Hk).
    + rewrite lookup_insert in Hk. case_decide.
      * injection Hk as <-.
        exact (fetchItunesPoster_fresh_nonempty _ _ _ _ _ Hfree Hres).
      * exact (IH _ _ Hk).
Qed.

(** X7: no value of a reachable poster cache is the empty string, and
    [fetchItunesPoster] never returns the empty string. *)
Theorem fetchItunesPoster_never_empty cache net title artist v :
  posterReachable cache ->
  result (fetchItunesPoster cache net title artist) = Normal v ->
  v <> [] /\ forall k w, cache !! k = Some w -> w <> [].
Proof.
  intros Hreach Hv. split; [|exact (posterReachable_nonempty _ Hreach)].
  destruct (cache !! keyOf title artist) as [w|] eqn:Hc.
  - rewrite (fetchItunesPoster_hit _ _ _ _ _ Hc) in Hv.
    injection Hv as <-. exact (posterReachable_nonempty _ Hreach _ _ Hc).
  - exact (fetchItunesPoster_fresh_nonempty _ _ _ _ _ Hc Hv).
Qed.

(** X8: a search that succeeds but brings no candidate with artwork, or
    no array of candidates at all, ends like a failed one: with the
    placeholder, stored under the key. *)
Theorem fetchItunesPoster_no_artwork cache net title artist resp data :
  cache !! keyOf title artist = None ->
  truthy (posterTerm title artist) = true ->
  net (posterSearchUrl (posterTerm title artist)) = Normal resp ->
  ok resp = true ->
  body resp = Normal data ->
  Forall (fun x => hasArtwork x = false) (default [] (results data)) ->
  fetchItunesPoster cache net title artist
  = storePoster cache (keyOf title artist)
      [posterSearchUrl (posterTerm title artist)]
      (buildPlaceholderPoster title artist).
Proof.
  intros Hc Ht Hnet Hok Hbody Hnone.
  rewrite (fetchItunesPoster_search _ _ _ _ Hc Ht).
  unfold posterAttempt. rewrite Hnet. cbn [bind]. rewrite Hok. cbn [negb].
  rewrite Hbody. cbn [bind].
  assert (Hfirst : firstArtwork (default [] (results data)) = None).
  { unfold firstArtwork.
    induction Hnone as [|x l Hx _ IH]; [reflexivity|].
    simpl. rewrite Hx. exact IH. }
  assert (Hrs : match results data with Some l => l | None => [] end
                = default [] (results data))
    by (destruct (results data); reflexivity).
  rewrite Hrs, Hfirst. cbn [toHiResArtwork].
  rewrite placeholderOrDefault_eq.
  destruct (buildPlaceholderPoster title artist); reflexivity.
Qed.

(** ** More on trimming *)

Lemma trimStart_head (s : jsstring) :
  trimStart s = []
  \/ exists c r, trimStart s = c :: r /\ isWhiteSpace c = false.
Proof.
  induction s as [|c s IH]; [left; reflexivity|]. simpl.
  destruct (isWhiteSpace c) eqn:Hc; [exact IH|].
  right. exists c, s. auto.
Qed.

Lemma trimStart_ink_head c (r : jsstring) :
  isWhiteSpace c = false -> trimStart (c :: r) = c :: r.
Proof. intros H. simpl. rewrite H. reflexivity. Qed.

Lemma trimStart_idem (s : jsstring) : trimStart (trimStart s) = trimStart s.
Proof.
  destruct (trimStart_head s) as [-> | (c & r & -> & Hc)]; [reflexivity|].
  apply trimStart_ink_head, Hc.
Qed.


Lemma trimStart_snoc_ink (y : jsstring) c :
  isWhiteSpace c = false -> exists z, trimStart (y ++ [c]) = z ++ [c].
Proof.
  intros Hc. induction y as [|d y IH].
  - exists []. simpl. rewrite Hc. reflexivity.
  - simpl. destruct (isWhiteSpace d); [exact IH|].
    exists (d :: y). reflexivity.
Qed.

Lemma trimEnd_idem (s : jsstring) : trimEnd (trimEnd s) = trimEnd s.
Proof.
  unfold trimEnd. rewrite reverse_involutive, trimStart_idem. reflexivity.
Qed.


Lemma trimEnd_ink_head c (r : jsstring) :
  isWhiteSpace c = false -> exists r', trimEnd (c :: r) = c :: r'.
Proof.
  intros Hc. unfold trimEnd. rewrite reverse_cons.
  destruct (trimStart_snoc_ink (reverse r) c Hc) as [z ->].
  exists (reverse z). rewrite reverse_app. reflexivity.
Qed.

(** A trimmed string is empty or starts with a character that is not
    white space. *)
Lemma trim_head (s : jsstring) :
  trim s = [] \/ exists c r, trim s = c :: r /\ isWhiteSpace c = false.
Proof.
  unfold trim.
  destruct (trimStart_head s) as [-> | (c & r & -> & Hc)]; [left; reflexivity|].
  destruct (trimEnd_ink_head c r Hc) as [r' ->]. right. exists c, r'. auto.
Qed.

Lemma trimEnd_trim (s : jsstring) : trimEnd (trim s) = trim s.
Proof. unfold trim. apply trimEnd_idem. Qed.

Lemma trimStart_trim (s : jsstring) : trimStart (trim s) = trim s.
Proof.
  destruct (trim_head s) as [-> | (c & r & -> & Hc)]; [reflexivity|].
  apply trimStart_ink_head, Hc.
Qed.

(** Trimming twice is trimming once. *)
Lemma trim_idem (s : jsstring) : trim (trim s) = trim s.
Proof.
  unfold trim at 1. rewrite trimStart_trim. apply trimEnd_trim.
Qed.


(** ** More on the video resolver *)

(** X9: the resolve cache gives back what was stored under a non-empty
    key until one hour after the write and nothing from then on, a write
    leaves the other keys alone, and the empty key is never written or
    read. *)
Theorem resolveCache_round_trip cache tSet key y m :
  key <> [] ->
  (forall now, (now < tSet + 3600000)%Z ->
     getFromResolveCache (setResolveCache cache tSet key y m) now key
     = (Some (mkResolution y m), setResolveCache cache tSet key y m))
  /\ (forall now, (tSet + 3600000 <= now)%Z ->
       getFromResolveCache (setResolveCache cache tSet key y m) now key
       = (None, delete key cache))
  /\ (forall k, k <> key ->
       setResolveCache cache tSet key y m !! k = cache !! k)
  /\ setResolveCache cache tSet [] y m = cache
  /\ (forall now, getFromResolveCache cache now [] = (None, cache)).
Proof.
  intros Hne. apply truthy_nonempty in Hne.
  pose proof (setResolveCache_lookup cache tSet key y m Hne) as Hset.
  split; [|split; [|split; [|split]]].
  - intros now Hnow.
    rewrite (getFromResolveCache_fresh _ _ _ _ Hne Hset); [reflexivity|].
    simpl. unfold RESOLVE_CACHE_TTL_MS. lia.
  - intros now Hnow.
    rewrite (getFromResolveCache_stale _ _ _ _ Hne Hset).
    + unfold setResolveCache. rewrite Hne. cbn [negb].
      rewrite delete_insert_eq. reflexivity.
    + simpl. unfold RESOLVE_CACHE_TTL_MS. lia.
  - intros k Hk. unfold setResolveCache. rewrite Hne. cbn [negb].
    apply lookup_insert_ne. congruence.
  - reflexivity.
  - reflexivity.
Qed.

(** What a run of the handler leaves under its key when it answers. *)
Lemma resolveMusicUrl_entry cache tRead tWrite net req r :
  result (resolveMusicUrl cache tRead tWrite net req) = Resolved r ->
  truthy (resolveKey req) = true
  /\ exists expiry,
       store (resolveMusicUrl cache tRead tWrite net req) !! resolveKey req
       = Some (mkEntry r expiry)
       /\ (tRead < expiry \/ expiry = tWrite + 3600000)%Z
       /\ (fetched (resolveMusicUrl cache tRead tWrite net req) <> [] ->
           expiry = (tWrite + 3600000)%Z).
Proof.
  intros Hres.
  destruct (truthy (resolveKey req)) eqn:Hk.
  2:{ unfold resolveMusicUrl in Hres. rewrite resolveKey_truthy, Hk in Hres.
      discriminate. }
  split; [reflexivity|].
  destruct (getFromResolveCache cache tRead (resolveKey req)) as [[v|] c1]
    eqn:Hget.
  - (* hit *)
    unfold getFromResolveCache in Hget. rewrite Hk in Hget. cbn [negb] in Hget.
    destruct (cache !! resolveKey req) as [e|] eqn:He; [|discriminate].
    destruct (Z.leb_spec (expiresAt e) tRead) as [|Hfresh]; [discriminate|].
    injection Hget as <- <-.
    rewrite (resolveMusicUrl_hit _ _ tWrite net _ _ Hk He Hfresh) in Hres |- *.
    injection Hres as <-. exists (expiresAt e). cbn [store fetched].
    split; [destruct e; exact He|]. split; [left; exact Hfresh | congruence].
  - (* miss *)
    assert (Hmiss : (getFromResolveCache cache tRead (resolveKey req)).1 = None)
      by (rewrite Hget; reflexivity).
    rewrite (resolveMusicUrl_miss _ _ _ _ _ Hk Hmiss) in Hres |- *.
    cbn zeta in *. exists (tWrite + 3600000)%Z.
    destruct (extractFirstVideoId _) as [videoId|];
      cbn [result store fetched] in *; injection Hres as <-;
      (split; [apply setResolveCache_lookup, Hk | split; [right|]; reflexivity]).
Qed.

(** X10: every answer of the handler, found or not found, is the entry
    of its key afterwards, and until that entry expires a request with
    the same key gets the same answer from the cache without any
    request; the entry of a fetched answer expires one hour after the
    write. *)
Theorem resolveMusicUrl_answer_cached cache tRead tWrite net req r :
  result (resolveMusicUrl cache tRead tWrite net req) = Resolved r ->
  exists expiry,
    store (resolveMusicUrl cache tRead tWrite net req) !! resolveKey req
    = Some (mkEntry r expiry)
    /\ (fetched (resolveMusicUrl cache tRead tWrite net req) <> [] ->
        expiry = (tWrite + 3600000)%Z)
    /\ forall tRead' tWrite' net' req',
         resolveKey req' = resolveKey req ->
         (tRead' < expiry)%Z ->
         resolveMusicUrl (store (resolveMusicUrl cache tRead tWrite net req))
                         tRead' tWrite' net' req'
         = mkRun (Resolved r)
                 (store (resolveMusicUrl cache tRead tWrite net req)) [].
Proof.
  intros Hres.
  destruct (resolveMusicUrl_entry _ _ _ _ _ _ Hres)
    as (Hk & expiry & Hentry & _ & Hexp).
  exists expiry. split; [exact Hentry|]. split; [exact Hexp|].
  intros tRead' tWrite' net' req' Hsame Hsoon.
  rewrite <- Hsame in Hentry, Hk.
  exact (resolveMusicUrl_hit _ tRead' tWrite' net' req' _ Hk Hentry Hsoon).
Qed.

Lemma searchVideoId_sound (s id : jsstring) (i next : nat) :
  searchVideoId s i = Some (id, next) ->
  length id = 11 /\ forallb isIdChar id = true.
Proof.
  revert i. induction s as [|c s IH]; intros i; [discriminate|].
  destruct (matchVideoId (c :: s)) as [id0|] eqn:Hm.
  - rewrite (searchVideoId_here _ _ i Hm). intros [= <- _].
    apply matchVideoId_inv in Hm as (rest & _ & Hl & Hc). auto.
  - rewrite (searchVideoId_skip _ _ _ Hm). apply IH.
Qed.

Lemma extractFirstVideoId_sound html id :
  extractFirstVideoId html = Some id ->
  length id = 11 /\ forallb isIdChar id = true.
Proof.
  destruct html as [h|]; [|discriminate].
  rewrite extractFirstVideoId_leftmost.
  destruct (searchVideoId h 0) as [[id' next]|] eqn:Hs; [|discriminate].
  intros [= <-]. exact (searchVideoId_sound _ _ _ _ Hs).
Qed.

Lemma resolveMusicUrl_fresh_paired cache tRead tWrite net req r :
  (getFromResolveCache cache tRead (resolveKey req)).1 = None ->
  result (resolveMusicUrl cache tRead tWrite net req) = Resolved r ->
  pairedResolution r.
Proof.
  intros Hmiss Hres.
  destruct (truthy (resolveKey req)) eqn:Hk.
  2:{ unfold resolveMusicUrl in Hres. rewrite resolveKey_truthy, Hk in Hres.
      discriminate. }
  rewrite (resolveMusicUrl_miss _ _ _ _ _ Hk Hmiss) in Hres. cbn zeta in Hres.
  destruct (extractFirstVideoId _) as [videoId|] eqn:Hx;
    cbn [result] in Hres; injection Hres as <-.
  - right. exists videoId.
    destruct (extractFirstVideoId_sound _ _ Hx) as [Hl Hc]. auto.
  - left. reflexivity.
Qed.

(** The cache after a run: the cache after the read, or that cache with
    the fresh answer stored under the key. *)
Lemma resolveMusicUrl_store_cases cache tRead tWrite net req :
  store (resolveMusicUrl cache tRead tWrite net req)
  = (getFromResolveCache cache tRead (resolveKey req)).2
  \/ exists r,
       (getFromResolveCache cache tRead (resolveKey req)).1 = None
       /\ result (resolveMusicUrl cache tRead tWrite net req) = Resolved r
       /\ store (resolveMusicUrl cache tRead tWrite net req)
          = <[resolveKey req := mkEntry r (tWrite + 3600000)%Z]>
              (getFromResolveCache cache tRead (resolveKey req)).2.
Proof.
  destruct (truthy (resolveKey req)) eqn:Hk.
  2:{ left. unfold resolveMusicUrl. rewrite resolveKey_truthy, Hk. cbn.
      unfold getFromResolveCache. rewrite Hk. reflexivity. }
  destruct (getFromResolveCache cache tRead (resolveKey req)) as [[v|] c1]
    eqn:Hget.
  - left. unfold resolveMusicUrl. rewrite resolveKey_truthy, Hk. cbn [negb].
    fold (resolveKey req). rewrite Hget. reflexivity.
  - right.
    assert (Hmiss : (getFromResolveCache cache tRead (resolveKey req)).1 = None)
      by (rewrite Hget; reflexivity).
    rewrite (resolveMusicUrl_miss _ _ _ _ _ Hk Hmiss). cbn zeta.
    rewrite Hget. cbn [fst snd]. unfold setResolveCache. rewrite Hk. cbn [negb].
    destruct (extractFirstVideoId _) as [videoId|]; eexists;
      (split; [reflexivity|]); split; reflexivity.
Qed.

Lemma resolveReachable_paired cache :
  resolveReachable cache ->
  forall k e, cache !! k = Some e -> pairedResolution (resolution e).
Proof.
  induction 1 as [|c tRead tWrite net req Hc IH]; intros k e He.
  - rewrite lookup_empty in He. discriminate.
  - assert (H1 : forall k e,
               (getFromResolveCache c tRead (resolveKey req)).2 !! k = Some e ->
               pairedResolution (resolution e)).
    { intros k0 e0.
      destruct (getFromResolveCache_store c tRead (resolveKey req))
        as [-> | ->]; [apply IH|].
      rewrite lookup_delete. case_decide; [discriminate | apply IH]. }
    destruct (resolveMusicUrl_store_cases c tRead tWrite net req)
      as [Heq | (r & Hmiss & Hres & Heq)]; rewrite Heq in He.
    + exact (H1 _ _ He).
    + rewrite lookup_insert in He. case_decide; [|exact (H1 _ _ He)].
      injection He as <-.
      exact (resolveMusicUrl_fresh_paired _ _ _ _ _ _ Hmiss Hres).
Qed.

(** X11: whatever happened before, an answer of the handler is two
    nulls, or the watch URL and the music URL of one and the same
    identifier of eleven characters of the class; so is every entry of a
    reachable cache. *)
Theorem resolveMusicUrl_answer_paired cache tRead tWrite net req r :
  resolveReachable cache ->
  result (resolveMusicUrl cache tRead tWrite net req) = Resolved r ->
  pairedResolution r
  /\ forall k e, cache !! k = Some e -> pairedResolution (resolution e).
Proof.
  intros Hreach Hres. split; [|exact (resolveReachable_paired _ Hreach)].
  destruct (resolveMusicUrl_entry _ _ _ _ _ _ Hres) as (_ & expiry & He & _).
  exact (resolveReachable_paired _ (resolve_step _ _ _ _ _ Hreach) _ _ He).
Qed.

(** X12: the handler answers 400 exactly when neither field is a string
    with a character that is not white space; it then leaves the cache
    alone and sends nothing. *)
Theorem resolveMusicUrl_bad_request cache tRead tWrite net req :
  (trimmedString (query req) = []
   /\ trimmedString (youtubeSearchUrl req) = []
   <-> result (resolveMusicUrl cache tRead tWrite net req) = BadRequest)
  /\ (result (resolveMusicUrl cache tRead tWrite net req) = BadRequest ->
      resolveMusicUrl cache tRead tWrite net req = mkRun BadRequest cache []).
Proof.
  unfold resolveMusicUrl.
  destruct (trimmedString (youtubeSearchUrl req)) as [|c u] eqn:Hu;
    destruct (trimmedString (query req)) as [|d q] eqn:Hq; cbn [truthy negb andb].
  - split; [split; auto | auto].
  - split; [split; [intros [? _]; discriminate|] | ];
      destruct (getFromResolveCache _ _ _) as [[v|] c1];
      try discriminate;
      destruct (extractFirstVideoId _) as [id|];
      try destruct (negb (truthy id)); discriminate.
  - split; [split; [intros [_ ?]; discriminate|] | ];
      destruct (getFromResolveCache _ _ _) as [[v|] c1];
      try discriminate;
      destruct (extractFirstVideoId _) as [id|];
      try destruct (negb (truthy id)); discriminate.
  - split; [split; [intros [? _]; discriminate|] | ];
      destruct (getFromResolveCache _ _ _) as [[v|] c1];
      try discriminate;
      destruct (extractFirstVideoId _) as [id|];
      try destruct (negb (truthy id)); discriminate.
Qed.


(** ** More on the video identifier pattern *)

Lemma searchVideoId_leftmost (s id : jsstring) (i next : nat) :
  searchVideoId s i = Some (id, next) ->
  exists pre rest,
    s = pre ++ videoIdMarker ++ id ++ dquote :: rest
    /\ next = i + length pre + 23
    /\ forall pre' tok' rest',
         s = pre' ++ videoIdMarker ++ tok' ++ dquote :: rest' ->
         length tok' = 11 -> forallb isIdChar tok' = true ->
         length pre <= length pre'.
Proof.
  revert i. induction s as [|c s IH]; intros i; [discriminate|].
  destruct (matchVideoId (c :: s)) as [id0|] eqn:Hm.
  - rewrite (searchVideoId_here _ _ i Hm). intros [= <- <-].
    apply matchVideoId_inv in Hm as (rest & E & _).
    exists [], rest. split; [exact E|]. split; [simpl; lia|].
    intros; simpl; lia.
  - rewrite (searchVideoId_skip _ _ _ Hm). intros Hs.
    destruct (IH _ Hs) as (pre & rest & E & Hnext & Hleft).
    exists (c :: pre), rest. split; [rewrite E; reflexivity|].
    split; [simpl; lia|].
    intros pre' tok' rest' E' Hl Hc. destruct pre' as [|c' pre'].
    + rewrite app_nil_l in E'. rewrite E' in Hm.
      rewrite (matchVideoId_hit tok' rest' Hl Hc) in Hm. discriminate.
    + rewrite <- app_comm_cons in E'. injection E' as _ E'.
      specialize (Hleft pre' tok' rest' E' Hl Hc). simpl. lia.
Qed.

(** X14: an identifier that [extractFirstVideoId] returns has eleven
    characters of the class and stands in the page between the marker and
    a closing quote, and no such token starts earlier in the page. *)
Theorem extractFirstVideoId_leftmost_token (html id : jsstring) :
  extractFirstVideoId (Some html) = Some id ->
  length id = 11
  /\ forallb isIdChar id = true
  /\ exists pre rest,
       html = pre ++ videoIdMarker ++ id ++ dquote :: rest
       /\ forall pre' tok' rest',
            html = pre' ++ videoIdMarker ++ tok' ++ dquote :: rest' ->
            length tok' = 11 -> forallb isIdChar tok' = true ->
            length pre <= length pre'.
Proof.
  intros Hx. destruct (extractFirstVideoId_sound _ _ Hx) as [Hl Hc].
  split; [exact Hl|]. split; [exact Hc|].
  rewrite extractFirstVideoId_leftmost in Hx.
  destruct (searchVideoId html 0) as [[id' next]|] eqn:Hs; [|discriminate].
  injection Hx as ->.
  destruct (searchVideoId_leftmost _ _ _ _ Hs) as (pre & rest & E & _ & Hleft).
  exists pre, rest. auto.
Qed.

Lemma searchVideoId_complete (s : jsstring) (i : nat) :
  hasVideoIdToken s -> exists found, searchVideoId s i = Some found.
Proof.
  intros (pre & tok & rest & -> & Hl & Hc). revert i.
  induction pre as [|c pre IH]; intros i.
  - rewrite app_nil_l.
    rewrite (searchVideoId_here _ tok i (matchVideoId_hit tok rest Hl Hc)).
    eauto.
  - rewrite <- app_comm_cons.
    destruct (matchVideoId (c :: pre ++ videoIdMarker ++ tok ++ dquote :: rest))
      as [id0|] eqn:Hm.
    + rewrite (searchVideoId_here _ _ i Hm). eauto.
    + rewrite (searchVideoId_skip _ _ _ Hm). apply IH.
Qed.

(** X15: [extractFirstVideoId] returns null exactly when it is given
    null or a page without a token; the empty page is such a page. *)
Theorem extractFirstVideoId_none_iff (html : option jsstring) :
  extractFirstVideoId html = None
  <-> (forall h, html = Some h -> ~ hasVideoIdToken h).
Proof.
  split; [|apply extractFirstVideoId_none].
  intros Hx h -> Htok. rewrite extractFirstVideoId_leftmost in Hx.
  destruct (searchVideoId_complete h 0 Htok) as [found Hf].
  rewrite Hf in Hx. discriminate.
Qed.

(** ** More on the podcast resolver *)

Lemma getPodcastCache_fresh cache tSet key (v : list Podcast) now :
  (now < tSet + 600000)%Z ->
  getPodcastCache (setPodcastCache cache tSet key v) now key
  = (Some v, setPodcastCache cache tSet key v).
Proof.
  intros Hnow. unfold getPodcastCache, setPodcastCache.
  rewrite lookup_insert_eq. cbn [podcastExpiresAt value].
  destruct (Z.leb_spec (tSet + PODCAST_CACHE_TTL_MS) now) as [H|H];
    [unfold PODCAST_CACHE_TTL_MS in H; lia | reflexivity].
Qed.

(** X16: the podcast cache gives back the list stored under a key, the
    empty key included, until ten minutes after the write and nothing
    from then on, when the read removes the entry; a write leaves the
    other keys alone. *)
Theorem podcastCache_round_trip cache tSet key (v : list Podcast) :
  (forall now, (now < tSet + 600000)%Z ->
     getPodcastCache (setPodcastCache cache tSet key v) now key
     = (Some v, setPodcastCache cache tSet key v))
  /\ (forall now, (tSet + 600000 <= now)%Z ->
       getPodcastCache (setPodcastCache cache tSet key v) now key
       = (None, delete key cache))
  /\ (forall k, k <> key ->
       setPodcastCache cache tSet key v !! k = cache !! k).
Proof.
  split; [|split].
  - intros now Hnow. apply getPodcastCache_fresh, Hnow.
  - intros now Hnow. unfold getPodcastCache, setPodcastCache. rewrite lookup_insert_eq. cbn [podcastExpiresAt value].
    destruct (Z.leb_spec (tSet + PODCAST_CACHE_TTL_MS) now) as [H|H];
      [rewrite delete_insert_eq; reflexivity
      | unfold PODCAST_CACHE_TTL_MS in H; lia].
  - intros k Hk. unfold setPodcastCache. apply lookup_insert_ne. congruence.
Qed.

Lemma orNull_nonempty (v : option jsstring) : orNull v <> Some [].
Proof. destruct v as [[|c s]|]; discriminate. Qed.

(** X17: a search for one term sends no request for a blank term and
    one request otherwise; it returns a non-empty list only from an
    answer with a success status, a readable body and an array of
    results, and then one podcast for each result, in order, none of
    whose link fields is the empty string. *)
Theorem fetchItunesPodcastsByTerm_outcome net term country limit :
  (fetchItunesPodcastsByTerm net term country limit).2
  = (if truthy (trim term)
     then [podcastSearchUrl (trim term) country limit] else [])
  /\ ((fetchItunesPodcastsByTerm net term country limit).1 = []
      \/ exists r data rs,
           trim term <> []
           /\ net (podcastSearchUrl (trim term) country limit) = Normal r
           /\ ok r = true
           /\ body r = Normal data
           /\ podcastResults data = Some rs
           /\ (fetchItunesPodcastsByTerm net term country limit).1
              = toPodcast <$> rs)
  /\ Forall (fun p => artworkUrl p <> Some []
                      /\ trackViewUrl p <> Some []
                      /\ feedUrl p <> Some [])
            (fetchItunesPodcastsByTerm net term country limit).1.
Proof.
  assert (Hnorm : forall rs : list ItunesPodcast.t,
            Forall (fun p => artworkUrl p <> Some []
                             /\ trackViewUrl p <> Some []
                             /\ feedUrl p <> Some [])
                   (toPodcast <$> rs)).
  { intros rs. apply Forall_fmap, Forall_forall. intros p _. cbn.
    split; [|split; apply orNull_nonempty].
    destruct (orNull (ItunesPodcast.artworkUrl600 p)) as [u|] eqn:H600;
      [|apply orNull_nonempty].
    rewrite <- H600. apply orNull_nonempty. }
  unfold fetchItunesPodcastsByTerm.
  assert (Hterm : orElse term [] = term) by (destruct term; reflexivity).
  rewrite Hterm.
  destruct (truthy (trim term)) eqn:Ht; cbn [negb].
  2:{ split; [reflexivity|]. split; [left; reflexivity | constructor]. }
  apply truthy_nonempty in Ht.
  destruct (net _) as [r|e] eqn:Hnet;
    [|split; [reflexivity|]; split; [left; reflexivity | constructor]].
  destruct (ok r) eqn:Hok; cbn [negb];
    [|split; [reflexivity|]; split; [left; reflexivity | constructor]].
  destruct (body r) as [data|e] eqn:Hbody;
    [|split; [reflexivity|]; split; [left; reflexivity | constructor]].
  destruct (podcastResults data) as [rs|] eqn:Hrs;
    [|split; [reflexivity|]; split; [left; reflexivity | constructor]].
  split; [reflexivity|]. split; [|apply Hnorm].
  right. exists r, data, rs. auto 10.
Qed.

Lemma fetchItunesPodcastsByTerm_sent net term country limit :
  (fetchItunesPodcastsByTerm net term country limit).2
  = (if truthy (trim term)
     then [podcastSearchUrl (trim term) country limit] else []).
Proof.
  unfold fetchItunesPodcastsByTerm.
  assert (Hterm : orElse term [] = term) by (destruct term; reflexivity).
  rewrite Hterm. destruct (truthy (trim term)); cbn [negb]; [|reflexivity].
  destruct (net _) as [r|]; [|reflexivity].
  destruct (negb (ok r)); [reflexivity|].
  destruct (body r); reflexivity.
Qed.

Lemma gatherPodcasts_prefix net terms all sent :
  exists n,
    n <= length terms
    /\ (gatherPodcasts net terms all sent).1
       = all ++ concat (termChunk net <$> take n terms)
    /\ (gatherPodcasts net terms all sent).2
       = sent ++ concat (termRequests net <$> take n terms)
    /\ (n < length terms ->
        40 <= length (gatherPodcasts net terms all sent).1)
    /\ (forall m, 0 < m < n ->
        length (all ++ concat (termChunk net <$> take m terms)) < 40).
Proof.
  revert all sent. induction terms as [|term terms IH]; intros all sent.
  - exists 0. simpl. rewrite !app_nil_r. repeat split; lia.
  - cbn [gatherPodcasts].
    destruct (fetchItunesPodcastsByTerm net term ITUNES_COUNTRY (js "10"))
      as [chunk urls] eqn:Hf.
    assert (Hchunk : termChunk net term = chunk)
      by (unfold termChunk; rewrite Hf; reflexivity).
    assert (Hurls : termRequests net term = urls)
      by (unfold termRequests; rewrite Hf; reflexivity).
    destruct (Nat.leb_spec (PODCAST_DEFAULT_LIMIT * 2) (length (all ++ chunk)))
      as [Hfull|Hroom].
    + exists 1. cbn [take fmap list_fmap concat length fst snd].
      rewrite Hchunk, Hurls, !app_nil_r.
      split; [lia|]. split; [reflexivity|]. split; [reflexivity|].
      split; [intros _; exact Hfull | intros m Hm; lia].
    + destruct (IH (all ++ chunk) (sent ++ urls))
        as (n & Hn & Hall & Hsent & Hstop & Hbelow).
      exists (S n). cbn [take fmap list_fmap concat length].
      rewrite Hchunk, Hurls, Hall, Hsent, <- !app_assoc.
      split; [lia|]. split; [reflexivity|]. split; [reflexivity|].
      split.
      * intros Hlt. rewrite app_assoc, <- Hall. apply Hstop. lia.
      * intros [|m] Hm; [lia|]. cbn [take fmap list_fmap concat].
        rewrite Hchunk, app_assoc.
        destruct m as [|m]; [|apply Hbelow; lia].
        simpl. rewrite app_nil_r. exact Hroom.
Qed.

(** X18: the loop over the search terms searches a prefix of the terms,
    in order, and appends what it finds: it goes on to the next term only
    while fewer than 40 podcasts have been gathered, and it sends at most
    one request for each term it searches. *)
Theorem gatherPodcasts_stops_at_forty net terms :
  exists n,
    n <= length terms
    /\ (gatherPodcasts net terms [] []).1
       = concat (termChunk net <$> take n terms)
    /\ (gatherPodcasts net terms [] []).2
       = concat (termRequests net <$> take n terms)
    /\ length (gatherPodcasts net terms [] []).2 <= n
    /\ (n < length terms ->
        40 <= length (gatherPodcasts net terms [] []).1)
    /\ (forall m, 0 < m < n ->
        length (concat (termChunk net <$> take m terms)) < 40).
Proof.
  destruct (gatherPodcasts_prefix net terms [] [])
    as (n & Hn & Hall & Hsent & Hstop & Hbelow).
  exists n. rewrite !app_nil_l in *.
  split; [exact Hn|]. split; [exact Hall|]. split; [exact Hsent|].
  split; [|split; [exact Hstop | exact Hbelow]].
  rewrite Hsent. clear -Hn.
  assert (Hone : forall t, length (termRequests net t) <= 1).
  { intros t. unfold termRequests. rewrite fetchItunesPodcastsByTerm_sent.
    destruct (truthy (trim t)); simpl; lia. }
  assert (Hlen : forall l : list jsstring,
             length (concat (termRequests net <$> l)) <= length l).
  { induction l as [|t l IH]; [simpl; lia|].
    cbn [fmap list_fmap concat]. rewrite length_app. simpl.
    specialize (Hone t). lia. }
  specialize (Hlen (take n terms)). rewrite length_take in Hlen. lia.
Qed.

Lemma moodPodcasts_live cache tRead tWrite ai net mood :
  trim (orEmpty mood) <> [] ->
  moodPodcasts cache tRead tWrite ai net mood =
  match getPodcastCache cache tRead (podcastKey mood) with
  | (Some cached, cache1) => mkRun (Json cached) cache1 []
  | (None, cache1) =>
    match ai (trim (orEmpty mood)) with
    | Throw _ => mkRun (Json []) cache1 []
    | Normal terms0 =>
      let terms :=
        match terms0 with
        | [] => [trim (orEmpty mood); trim (orEmpty mood) ++ js " podcast";
                 js "mindfulness"; js "motivation"; js "self improvement"]
        | _ :: _ => terms0
        end in
      mkRun (Json (dedupeUsable (gatherPodcasts net terms [] []).1))
            (setPodcastCache cache1 tWrite (podcastKey mood)
               (dedupeUsable (gatherPodcasts net terms [] []).1))
            (gatherPodcasts net terms [] []).2
    end
  end.
Proof.
  intros Hm. apply truthy_nonempty in Hm. unfold moodPodcasts.
  rewrite Hm. cbn [negb]. fold (podcastKey mood).
  destruct (getPodcastCache cache tRead (podcastKey mood)) as [[l|] c1];
    [reflexivity|].
  destruct (ai _) as [terms0|]; [|reflexivity]. cbn zeta.
  destruct (gatherPodcasts net _ [] []); reflexivity.
Qed.

Lemma getPodcastCache_miss_key cache now key :
  (getPodcastCache cache now key).1 = None ->
  (getPodcastCache cache now key).2 !! key = None.
Proof.
  unfold getPodcastCache.
  destruct (cache !! key) as [e|] eqn:He; [|intros _; exact He].
  destruct (podcastExpiresAt e <=? now)%Z; [|discriminate].
  intros _. apply lookup_delete_eq.
Qed.

(** X19: a blank mood is answered with status 400, nothing read, sent
    or stored; and when, on a cache miss, the term generator fails, the
    answer is the empty list with nothing sent and nothing stored under
    the key, so that the next request asks the generator again. *)
Theorem moodPodcasts_no_answer cache tRead tWrite ai net mood :
  (trim (orEmpty mood) = [] ->
   moodPodcasts cache tRead tWrite ai net mood = mkRun Status400 cache [])
  /\ (trim (orEmpty mood) <> [] ->
      (getPodcastCache cache tRead (podcastKey mood)).1 = None ->
      (exists e, ai (trim (orEmpty mood)) = Throw e) ->
      result (moodPodcasts cache tRead tWrite ai net mood) = Json []
      /\ fetched (moodPodcasts cache tRead tWrite ai net mood) = []
      /\ store (moodPodcasts cache tRead tWrite ai net mood)
           !! podcastKey mood = None).
Proof.
  split.
  - intros Hm. unfold moodPodcasts. rewrite Hm. reflexivity.
  - intros Hm Hmiss [e He]. rewrite (moodPodcasts_live _ _ _ _ _ _ Hm).
    pose proof (getPodcastCache_miss_key _ _ _ Hmiss) as Hfree.
    destruct (getPodcastCache cache tRead (podcastKey mood)) as [[l|] c1];
      [discriminate|].
    rewrite He. auto.
Qed.

(** X20: a list computed on a cache miss, empty or not, is stored under
    the key of the lower-cased mood with an expiry ten minutes after the
    write; until then a request whose mood has the same key gets the same
    list without the term generator and without any request. *)
Theorem moodPodcasts_answer_cached cache tRead tWrite ai net mood terms0 :
  trim (orEmpty mood) <> [] ->
  (getPodcastCache cache tRead (podcastKey mood)).1 = None ->
  ai (trim (orEmpty mood)) = Normal terms0 ->
  exists l,
    result (moodPodcasts cache tRead tWrite ai net mood) = Json l
    /\ store (moodPodcasts cache tRead tWrite ai net mood) !! podcastKey mood
       = Some (mkPodcastEntry l (tWrite + 600000)%Z)
    /\ forall tRead' tWrite' ai' net' mood',
         trim (orEmpty mood') <> [] ->
         podcastKey mood' = podcastKey mood ->
         (tRead' < tWrite + 600000)%Z ->
         moodPodcasts (store (moodPodcasts cache tRead tWrite ai net mood))
                      tRead' tWrite' ai' net' mood'
         = mkRun (Json l)
                 (store (moodPodcasts cache tRead tWrite ai net mood)) [].
Proof.
  intros Hm Hmiss Hai. rewrite (moodPodcasts_live _ _ _ _ _ _ Hm).
  destruct (getPodcastCache cache tRead (podcastKey mood)) as [[l0|] c1];
    [discriminate|].
  rewrite Hai. cbn zeta. eexists. split; [reflexivity|]. cbn [store].
  split; [apply lookup_insert_eq|].
  intros tRead' tWrite' ai' net' mood' Hm' Hkey Hsoon.
  rewrite (moodPodcasts_live _ _ _ _ _ _ Hm'), Hkey.
  rewrite getPodcastCache_fresh by exact Hsoon. reflexivity.
Qed.

Lemma gatherPodcasts_sent_length net terms :
  length (gatherPodcasts net terms [] []).2 <= length terms.
Proof.
  destruct (gatherPodcasts_prefix net terms [] [])
    as (n & Hn & _ & Hsent & _).
  rewrite Hsent, app_nil_l.
  assert (Hlen : forall l : list jsstring,
             length (concat (termRequests net <$> l)) <= length l).
  { induction l as [|t l IH]; [simpl; lia|].
    cbn [fmap list_fmap concat]. rewrite length_app. simpl.
    unfold termRequests at 1. rewrite fetchItunesPodcastsByTerm_sent.
    destruct (truthy (trim t)); simpl; lia. }
  specialize (Hlen (take n terms)). rewrite length_take in Hlen. lia.
Qed.

(** ** The generators *)

Lemma cleanTerms_ok (arr : list (option jsstring)) :
  length (cleanTerms arr) <= 5
  /\ Forall (fun t => t <> [] /\ trim t = t) (cleanTerms arr).
Proof.
  unfold cleanTerms. split; [rewrite length_take; lia|].
  apply Forall_take, Forall_forall. intros t Ht.
  apply list_elem_of_In, filter_In in Ht as [Hin Htruthy].
  split; [apply truthy_nonempty, Htruthy|].
  apply list_elem_of_In, list_elem_of_fmap in Hin as (v & -> & _).
  apply trim_idem.
Qed.

Lemma generatePodcastTermsWithAI_terms_aux reply parse :
  match generatePodcastTermsWithAI reply parse with
  | Normal terms => length terms <= 5
  | Throw _ => True
  end.
Proof.
  unfold generatePodcastTermsWithAI.
  destruct reply as [[text|]|e]; cbn [bind]; [|simpl; lia | exact I].
  destruct (negb (truthy text)); [simpl; lia|].
  destruct (matchArray _) as [m|]; [|simpl; lia].
  destruct (parse m) as [[arr|]|]; [apply cleanTerms_ok | |]; simpl; lia.
Qed.

(** X21: the term generator raises only when the chat call fails;
    otherwise it returns at most five terms, none of them empty and none
    with white space at either end. *)
Theorem generatePodcastTermsWithAI_terms reply parse :
  match generatePodcastTermsWithAI reply parse with
  | Normal terms =>
    length terms <= 5 /\ Forall (fun t => t <> [] /\ trim t = t) terms
  | Throw e => reply = Throw e
  end.
Proof.
  unfold generatePodcastTermsWithAI.
  destruct reply as [[text|]|e]; cbn [bind];
    [|split; [simpl; lia | constructor] | reflexivity].
  destruct (negb (truthy text)); [split; [simpl; lia | constructor]|].
  destruct (matchArray _) as [m|]; [|split; [simpl; lia | constructor]].
  destruct (parse m) as [[arr|]|];
    [apply cleanTerms_ok | |]; split; (simpl; lia) || constructor.
Qed.

(** X22: with its terms from the term generator, a podcast request sends
    at most five catalog requests, whatever the generator and the catalog
    answer. *)
Theorem moodPodcasts_at_most_five_requests
    cache tRead tWrite reply parse net mood :
  length (fetched (moodPodcasts cache tRead tWrite
                     (fun _ => generatePodcastTermsWithAI reply parse)
                     net mood))
  <= 5.
Proof.
  destruct (truthy (trim (orEmpty mood))) eqn:Hm.
  2:{ unfold moodPodcasts. rewrite Hm. simpl. lia. }
  apply truthy_nonempty in Hm. rewrite (moodPodcasts_live _ _ _ _ _ _ Hm).
  destruct (getPodcastCache cache tRead (podcastKey mood)) as [[l|] c1];
    [simpl; lia|].
  pose proof (generatePodcastTermsWithAI_terms_aux reply parse) as Hterms.
  destruct (generatePodcastTermsWithAI reply parse) as [terms0|];
    [|simpl; lia].
  cbn zeta. cbn [fetched].
  etransitivity; [apply gatherPodcasts_sent_length|].
  destruct terms0; [simpl; lia | exact Hterms].
Qed.

Lemma indexOf_unit_first (c : N) (s : jsstring) (i : nat) :
  indexOf [c] s = Some i ->
  exists pre rest, s = pre ++ c :: rest /\ length pre = i /\ c ∉ pre.
Proof.
  revert i. induction s as [|d s IH]; intros i; [discriminate|].
  cbn [indexOf startsWith]. destruct (N.eqb_spec c d) as [<-|Hne].
  - cbn [andb]. intros [= <-]. exists [], s.
    split; [reflexivity|]. split; [reflexivity | apply not_elem_of_nil].
  - cbn [andb]. destruct (indexOf [c] s) as [j|] eqn:Hj; [|discriminate].
    cbn. intros [= <-]. destruct (IH j eq_refl) as (pre & rest & -> & <- & Hpre).
    exists (d :: pre), rest. split; [reflexivity|]. split; [reflexivity|].
    intros Hin. apply elem_of_cons in Hin as [?|?]; auto.
Qed.

Lemma lastIndexOfUnit_none (c : N) (s : jsstring) :
  lastIndexOfUnit c s = None <-> c ∉ s.
Proof.
  induction s as [|d s IH]; [split; [intros _; apply not_elem_of_nil | auto]|].
  cbn [lastIndexOfUnit]. destruct (lastIndexOfUnit c s) as [j|].
  - split; [discriminate|]. intros Hnot. exfalso.
    destruct IH as [_ IH]. assert (c ∉ s) by (intros ?; apply Hnot; right; auto).
    specialize (IH H). discriminate.
  - destruct (N.eqb_spec d c) as [->|Hne].
    + split; [discriminate|]. intros Hnot. exfalso. apply Hnot. left.
    + split; [|reflexivity]. intros _ Hin.
      apply elem_of_cons in Hin as [?|?]; [congruence|].
      destruct IH as [IH _]. exact (IH eq_refl H).
Qed.

Lemma lastIndexOfUnit_last (c : N) (s : jsstring) (j : nat) :
  lastIndexOfUnit c s = Some j ->
  exists mid post, s = mid ++ c :: post /\ length mid = j /\ c ∉ post.
Proof.
  revert j. induction s as [|d s IH]; intros j; [discriminate|].
  cbn [lastIndexOfUnit]. destruct (lastIndexOfUnit c s) as [j'|] eqn:Hj.
  - intros [= <-]. destruct (IH j' eq_refl) as (mid & post & -> & <- & Hpost).
    exists (d :: mid), post. auto.
  - destruct (N.eqb_spec d c) as [->|Hne]; [|discriminate].
    intros [= <-]. exists [], s. split; [reflexivity|].
    split; [reflexivity|]. apply lastIndexOfUnit_none, Hj.
Qed.

Lemma first_occurrence_suffix (c : N) (pre rest a tail : jsstring) :
  pre ++ c :: rest = a ++ c :: tail -> c ∉ pre ->
  exists x, rest = x ++ tail.
Proof.
  revert a. induction pre as [|d pre IH]; intros a E Hpre.
  - destruct a as [|d a].
    + injection E as ->. exists []. reflexivity.
    + injection E as _ ->. exists (a ++ [c]).
      rewrite <- app_assoc. reflexivity.
  - destruct a as [|d' a].
    + injection E as -> _. exfalso. apply Hpre. left.
    + injection E as _ E. apply (IH a E).
      intros Hin. apply Hpre. right. exact Hin.
Qed.

(** X23: the text the generators hand to the JSON parser runs from the
    first opening bracket of the cleaned reply to the last closing
    bracket after it; there is no such text exactly when no closing
    bracket follows an opening one. *)
Theorem matchArray_brackets (s : jsstring) :
  match matchArray s with
  | Some m =>
    exists pre mid post,
      s = pre ++ m ++ post
      /\ m = 0x5B%N :: mid ++ [0x5D%N]
      /\ (0x5B%N ∉ pre)
      /\ (0x5D%N ∉ post)
  | None =>
    forall a b c, s <> a ++ 0x5B%N :: b ++ 0x5D%N :: c
  end.
Proof.
  unfold matchArray.
  destruct (indexOf [0x5B%N] s) as [i|] eqn:Hi.
  - destruct (indexOf_unit_first _ _ _ Hi) as (pre & rest & -> & <- & Hpre).
    assert (Hdrop : drop (S (length pre)) (pre ++ 0x5B%N :: rest) = rest).
    { rewrite cons_middle, app_assoc.
      apply drop_app_length'. rewrite length_app. simpl. lia. }
    rewrite Hdrop.
    destruct (lastIndexOfUnit 0x5D%N rest) as [j|] eqn:Hj.
    + destruct (lastIndexOfUnit_last _ _ _ Hj) as (mid & post & -> & <- & Hpost).
      assert (Htake : take (S (length mid)) (mid ++ 0x5D%N :: post)
                      = mid ++ [0x5D%N]).
      { rewrite cons_middle, app_assoc.
        apply take_app_length'. rewrite length_app. simpl. lia. }
      rewrite Htake. exists pre, mid, post.
      split; [|auto]. rewrite <- !app_comm_cons, <- app_assoc. reflexivity.
    + intros a b c E. apply lastIndexOfUnit_none in Hj. apply Hj.
      destruct (first_occurrence_suffix _ _ _ _ _ E Hpre) as [x ->].
      rewrite !elem_of_app. right. right. left.
  - intros a b c ->.
    assert (Hex : forall a' : jsstring, exists n,
               indexOf [0x5B%N] (a' ++ 0x5B%N :: b ++ 0x5D%N :: c) = Some n).
    { induction a' as [|d a' [n IH]].
      - exists 0. reflexivity.
      - rewrite <- app_comm_cons. cbn [indexOf].
        destruct (startsWith _ _); [eauto|]. rewrite IH. eauto. }
    destruct (Hex a) as [n Hn]. rewrite Hn in Hi. discriminate.
Qed.

(** ** Environment guard *)

(** X27: the guard passes every request for [/health], and any other
    request exactly when [OPENAI_API_KEY] is set and not empty, which is
    when the health report says so; a blocked request gets the message
    that names the variable. *)
Theorem envGuard_passes (openaiKey : option jsstring) (path : jsstring) :
  (envGuard openaiKey path = PassOn
   <-> path = js "/health" \/ hasOpenAIKey openaiKey = true)
  /\ (envGuard openaiKey path <> PassOn ->
      envGuard openaiKey path
      = ConfigurationError
          (js "Missing required environment variables: OPENAI_API_KEY")).
Proof.
  unfold envGuard, validateEnvVars, hasOpenAIKey.
  destruct (bool_decide (path = js "/health")) eqn:Hp.
  - apply bool_decide_eq_true in Hp. split; [split; auto | congruence].
  - apply bool_decide_eq_false in Hp.
    destruct (truthy (orEmpty openaiKey)); cbn.
    + split; [split; auto | congruence].
    + split; [|reflexivity]. split; [discriminate|].
      intros [?|?]; [contradiction | discriminate].
Qed.

(** ** GET /mood/songs *)

(** The two halves of a lookup make up [fetchItunesPoster]: the outcome
    and the request do not depend on the cache the second half finds, and
    run one after the other they leave the cache of
    [fetchItunesPoster]. *)
Lemma startPoster_split cache cache' net title artist :
  (finishPoster cache' net (startPoster cache title artist).1).1
  = result (fetchItunesPoster cache net title artist)
  /\ requestOf (startPoster cache title artist).1
     = fetched (fetchItunesPoster cache net title artist)
  /\ (finishPoster (startPoster cache title artist).2 net
                   (startPoster cache title artist).1).2
     = store (fetchItunesPoster cache net title artist).
Proof.
  unfold startPoster, fetchItunesPoster.
  destruct (cache !! keyOf title artist) as [v|]; [auto|].
  destruct (negb (truthy _)).
  - destruct (buildPlaceholderPoster title artist); auto.
  - cbn [fst snd finishPoster requestOf].
    destruct (match posterAttempt _ _ _ _ with
              | Normal v => Normal v | Throw _ => _ end); auto.
Qed.

Lemma startAll_length cache songs :
  length (startAll cache songs).1 = length songs.
Proof.
  revert cache. induction songs as [|song songs IH]; intros cache;
    [reflexivity|].
  cbn [startAll]. destruct (startPoster _ _ _) as [l c1].
  specialize (IH c1). destruct (startAll c1 songs) as [ls c2].
  simpl in *. lia.
Qed.

(** Every lookup of the handler is the first half of a lookup on some
    cache. *)
Lemma startAll_lookup cache songs i song :
  songs !! i = Some song ->
  exists cache_i,
    (startAll cache songs).1 !! i
    = Some (startPoster cache_i (fieldValue (Song.title song))
                        (fieldValue (Song.artist song))).1.
Proof.
  revert cache i. induction songs as [|s0 songs IH]; intros cache i Hi;
    [discriminate|].
  cbn [startAll].
  destruct (startPoster cache (fieldValue (Song.title s0))
                        (fieldValue (Song.artist s0))) as [l c1] eqn:Hl.
  specialize (IH c1). destruct (startAll c1 songs) as [ls c2].
  destruct i as [|i]; simpl in Hi.
  - injection Hi as <-. exists cache. rewrite Hl. reflexivity.
  - exact (IH i Hi).
Qed.

Lemma allEntries_normal songs posters entries :
  allEntries songs posters = Normal entries ->
  length posters = length songs ->
  length entries = length songs
  /\ forall i song,
       songs !! i = Some song ->
       exists poster,
         posters !! i = Some (Normal poster)
         /\ entries !! i
            = Some (SongEntry.mk (Song.title song) (Song.artist song)
                      (buildYoutubeSearchUrl (fieldText (Song.title song))
                                             (fieldText (Song.artist song)))
                      poster).
Proof.
  revert posters entries.
  induction songs as [|s0 songs IH]; intros posters entries Hall Hlen.
  - destruct posters; [|discriminate]. injection Hall as <-.
    split; [reflexivity | intros i song Hi; discriminate].
  - destruct posters as [|p posters]; [discriminate|].
    cbn [allEntries] in Hall. destruct p as [v|]; [|discriminate].
    cbn [bind] in Hall.
    destruct (allEntries songs posters) as [rest|] eqn:Hrest; [|discriminate].
    cbn [bind] in Hall. injection Hall as <-.
    destruct (IH posters rest Hrest ltac:(simpl in Hlen; lia)) as [IH1 IH2].
    split; [simpl; lia|].
    intros [|i] song Hi; simpl in Hi.
    + injection Hi as <-. exists v. split; reflexivity.
    + exact (IH2 i song Hi).
Qed.

Lemma allEntries_returns songs posters :
  length posters = length songs ->
  Forall (fun p => exists v, p = Normal v) posters ->
  exists entries, allEntries songs posters = Normal entries.
Proof.
  revert posters. induction songs as [|s0 songs IH]; intros posters Hlen Hall.
  - destruct posters; [|discriminate]. eexists. reflexivity.
  - destruct posters as [|p posters]; [discriminate|].
    apply Forall_cons in Hall as [[v ->] Hall].
    destruct (IH posters ltac:(simpl in Hlen; lia) Hall) as [rest Hrest].
    cbn [allEntries bind]. rewrite Hrest. cbn [bind]. eauto.
Qed.

Lemma moodSongs_live cache songs net order mood :
  trim (orEmpty mood) <> [] ->
  moodSongs cache (Normal songs) net order mood =
  mkRun
    match allEntries songs
            ((fun l => (finishPoster (startAll cache songs).2 net l).1)
             <$> (startAll cache songs).1) with
    | Normal entries => SongsJson entries
    | Throw _ => SongsJson []
    end
    (finishAll (startAll cache songs).2 net (startAll cache songs).1 order)
    ((startAll cache songs).1 ≫= requestOf).
Proof.
  intros Hm. apply truthy_nonempty in Hm. unfold moodSongs. rewrite Hm.
  cbn [negb]. destruct (startAll cache songs); reflexivity.
Qed.

(** X24: the reply to a songs request is all or nothing: one entry for
    each song of the generator, in order, with the title and artist as
    generated and the search URL built from their texts, or the empty
    list. *)
Theorem moodSongs_all_or_nothing cache songs net order mood entries :
  trim (orEmpty mood) <> [] ->
  result (moodSongs cache (Normal songs) net order mood) = SongsJson entries ->
  entries = []
  \/ (length entries = length songs
      /\ forall i song,
           songs !! i = Some song ->
           exists poster,
             entries !! i
             = Some (SongEntry.mk (Song.title song) (Song.artist song)
                       (buildYoutubeSearchUrl
                          (fieldText (Song.title song))
                          (fieldText (Song.artist song)))
                       poster)).
Proof.
  intros Hm. rewrite (moodSongs_live _ _ _ _ _ Hm). cbn [result].
  destruct (allEntries _ _) as [es|] eqn:Hall; intros [= <-];
    [|left; reflexivity].
  right.
  destruct (allEntries_normal _ _ _ Hall) as [Hlen Hentries].
  { rewrite length_fmap. apply startAll_length. }
  split; [exact Hlen|]. intros i song Hi.
  destruct (Hentries i song Hi) as (poster & _ & He). eauto.
Qed.

(** X25: when the placeholder of every song can be built, no lookup
    raises and the reply has one entry for each song, whatever the
    catalog answers. *)
Theorem moodSongs_complete cache songs net order mood :
  trim (orEmpty mood) <> [] ->
  (forall song, song ∈ songs ->
     exists ph,
       buildPlaceholderPoster (fieldValue (Song.title song))
                              (fieldValue (Song.artist song))
       = Normal ph) ->
  exists entries,
    result (moodSongs cache (Normal songs) net order mood) = SongsJson entries
    /\ length entries = length songs.
Proof.
  intros Hm Hph. rewrite (moodSongs_live _ _ _ _ _ Hm). cbn [result].
  destruct (allEntries_returns songs
              ((fun l => (finishPoster (startAll cache songs).2 net l).1)
               <$> (startAll cache songs).1)) as [entries Hall].
  { rewrite length_fmap. apply startAll_length. }
  { apply Forall_fmap, Forall_forall. intros l Hl.
    apply list_elem_of_lookup in Hl as [i Hi].
    assert (Hsong : exists song, songs !! i = Some song).
    { apply lookup_lt_is_Some. rewrite <- (startAll_length cache).
      apply lookup_lt_is_Some. eauto. }
    destruct Hsong as [song Hsong].
    destruct (startAll_lookup cache songs i song Hsong) as [ci Hci].
    rewrite Hi in Hci. injection Hci as ->. cbn.
    rewrite (proj1 (startPoster_split ci _ net _ _)).
    destruct (Hph song) as [ph Hb].
    { apply list_elem_of_lookup. eauto. }
    exact (fetchItunesPoster_returns ci net _ _ ph Hb). }
  rewrite Hall. exists entries. split; [reflexivity|].
  apply (allEntries_normal _ _ _ Hall).
  rewrite length_fmap. apply startAll_length.
Qed.

Lemma startAll_replicate cache song n :
  cache !! keyOf (fieldValue (Song.title song)) (fieldValue (Song.artist song))
  = None ->
  truthy (posterTerm (fieldValue (Song.title song))
                     (fieldValue (Song.artist song))) = true ->
  startAll cache (replicate n song)
  = (replicate n
       (Waiting (keyOf (fieldValue (Song.title song))
                       (fieldValue (Song.artist song)))
                (posterSearchUrl
                   (posterTerm (fieldValue (Song.title song))
                               (fieldValue (Song.artist song))))
                (fieldValue (Song.title song))
                (fieldValue (Song.artist song))),
     cache).
Proof.
  intros Hc Ht. induction n as [|n IH]; [reflexivity|].
  cbn [replicate startAll]. unfold startPoster at 1. rewrite Hc.
  fold (posterTerm (fieldValue (Song.title song))
                   (fieldValue (Song.artist song))).
  rewrite Ht. cbn [negb]. rewrite IH. reflexivity.
Qed.

(** X26: lookups of one request are not coalesced: when the generator
    returns the same uncached song [n] times, the handler sends the same
    catalog request [n] times. *)
Theorem moodSongs_no_coalescing cache song n net order mood :
  trim (orEmpty mood) <> [] ->
  cache !! keyOf (fieldValue (Song.title song)) (fieldValue (Song.artist song))
  = None ->
  truthy (posterTerm (fieldValue (Song.title song))
                     (fieldValue (Song.artist song))) = true ->
  fetched (moodSongs cache (Normal (replicate n song)) net order mood)
  = replicate n
      (posterSearchUrl (posterTerm (fieldValue (Song.title song))
                                   (fieldValue (Song.artist song)))).
Proof.
  intros Hm Hc Ht. rewrite (moodSongs_live _ _ _ _ _ Hm). cbn [fetched].
  rewrite (startAll_replicate _ _ n Hc Ht). cbn [fst].
  induction n as [|n IH]; [reflexivity|].
  cbn [replicate]. rewrite bind_cons, IH. reflexivity.
Qed.

(** ** The video search URL *)

Lemma hexDigit_alnum (d : N) : (d < 16)%N -> isAlnum (hexDigit d) = true.
Proof.
  intros H. unfold isAlnum, hexDigit.
  destruct (N.ltb_spec d 10);
    rewrite !orb_true_iff, !andb_true_iff, !N.leb_le; lia.
Qed.

Lemma formByte_chars (b : N) :
  (b < 256)%N -> forallb isFormChar (formByte b) = true.
Proof.
  intros H. unfold formByte.
  destruct (b =? 0x20)%N; [reflexivity|].
  destruct (isAlnum b || (b =? 0x2A) || (b =? 0x2D) || (b =? 0x2E)
            || (b =? 0x5F))%N eqn:Hkeep.
  - cbn [forallb]. unfold isFormChar. rewrite Hkeep. reflexivity.
  - unfold pct. cbn [forallb]. unfold isFormChar.
    rewrite !hexDigit_alnum; [reflexivity| |].
    + pose proof (N.land_le_r b 0xF). lia.
    + apply shiftr_lt. simpl. lia.
Qed.

Lemma toScalarValues_bound (n : nat) :
  forall s,
    length s <= n ->
    forallb isCodeUnit s = true ->
    Forall (fun cp => (cp < 0x110000)%N) (toScalarValues s).
Proof.
  induction n as [|n IH]; intros s Hn Hs.
  { destruct s; [constructor | simpl in Hn; lia]. }
  destruct s as [|c rest]; [constructor|].
  simpl in Hn. cbn [forallb] in Hs. apply andb_prop in Hs as [Hc Hrest].
  apply N.ltb_lt in Hc. cbn [toScalarValues].
  destruct (isLeadSurrogate c) eqn:Hlead.
  - destruct rest as [|d rest']; [repeat constructor; lia|].
    destruct (isTrailSurrogate d) eqn:Htrail.
    + cbn [forallb] in Hrest. apply andb_prop in Hrest as [_ Hrest'].
      simpl in Hn. constructor; [apply pairCodePoint_bound; assumption|].
      apply IH; [lia | exact Hrest'].
    + constructor; [lia|]. apply IH; [lia | exact Hrest].
  - destruct (isTrailSurrogate c);
      (constructor; [lia|]; apply IH; [lia | exact Hrest]).
Qed.

Lemma formEncode_chars (s : jsstring) :
  forallb isCodeUnit s = true -> forallb isFormChar (formEncode s) = true.
Proof.
  intros Hs. unfold formEncode.
  pose proof (toScalarValues_bound _ s (le_n _) Hs) as Hcps.
  induction Hcps as [|cp cps Hcp _ IH]; [reflexivity|].
  cbn [mbind list_bind]. rewrite bind_app, forallb_app, IH, andb_true_r.
  pose proof (utf8_octets cp Hcp) as Hoct.
  induction Hoct as [|o os Ho _ IHo]; [reflexivity|].
  cbn [mbind list_bind]. rewrite forallb_app, IHo, andb_true_r.
  apply formByte_chars, Ho.
Qed.

(** X28: the video search URL is the fixed address followed by
    characters that need no escaping: alphanumerics, [* - . _], plus
    signs and percent escapes; in particular it holds no white space and
    nothing outside Basic Latin. *)
Theorem buildYoutubeSearchUrl_chars (title artist : jsstring) :
  forallb isCodeUnit title = true ->
  forallb isCodeUnit artist = true ->
  exists e,
    buildYoutubeSearchUrl title artist
    = js "https://www.youtube.com/results?search_query=" ++ e
    /\ forallb isFormChar e = true.
Proof.
  intros Ht Ha. unfold buildYoutubeSearchUrl.
  exists (formEncode (trim (title ++ js " " ++ artist))).
  split; [reflexivity|].
  apply formEncode_chars, forallb_trim.
  rewrite !forallb_app, Ht, Ha. reflexivity.
Qed.

(** ** Code fences in a chat reply *)

Lemma removeMatches_skip f n (x rest : jsstring) :
  removeMatches f n (length x) (x ++ rest) = removeMatches f n 0 rest.
Proof. induction x as [|c x IH]; [reflexivity | exact IH]. Qed.

Lemma removeMatches_plain f n (body rest : jsstring) :
  (forall t, f t = true -> exists r, t = 0x60%N :: r) ->
  0x60%N ∉ body ->
  removeMatches f n 0 (body ++ rest) = body ++ removeMatches f n 0 rest.
Proof.
  intros Hf. induction body as [|c body IH]; intros Hbody; [reflexivity|].
  rewrite <- app_comm_cons. cbn [removeMatches].
  destruct (f (c :: body ++ rest)) eqn:Hm.
  - destruct (Hf _ Hm) as [r [= -> _]]. exfalso. apply Hbody. left.
  - rewrite IH; [reflexivity|]. intros Hin. apply Hbody. right. exact Hin.
Qed.

Lemma startsWith_fence (t : jsstring) :
  startsWith (js "```") t = true -> exists r, t = 0x60%N :: r.
Proof.
  intros H. apply startsWith_inv in H as [r ->]. eexists. reflexivity.
Qed.

Lemma asciiUpper_backtick (c : N) : asciiUpper c = 0x60%N -> c = 0x60%N.
Proof.
  unfold asciiUpper.
  destruct (N.leb_spec 0x61 c); destruct (N.leb_spec c 0x7A); cbn; lia.
Qed.

Lemma startsWithCI_fence (t : jsstring) :
  startsWithCI (js "```json") t = true -> exists r, t = 0x60%N :: r.
Proof.
  destruct t as [|c r]; [discriminate|].
  change (js "```json") with (0x60%N :: js "``json").
  cbn [startsWithCI]. intros H. apply andb_prop in H as [H _].
  apply N.eqb_eq in H. symmetry in H. apply asciiUpper_backtick in H.
  subst c. eexists. reflexivity.
Qed.

Lemma cleanReply_fenced_body (tag body : jsstring) :
  asciiUpper <$> tag = js "JSON" ->
  0x60%N ∉ body ->
  cleanReply (js "```" ++ tag ++ body ++ js "```") = trim body.
Proof.
  intros Htag Hbody.
  destruct tag as [|a [|b [|c [|d [|]]]]]; try discriminate.
  injection Htag as Ha Hb Hc Hd.
  unfold cleanReply. f_equal.
  assert (Hfirst :
    removeMatches (startsWithCI (js "```json")) 7 0
      (js "```" ++ [a; b; c; d] ++ body ++ js "```")
    = body ++ js "```").
  { change (js "```" ++ [a; b; c; d] ++ body ++ js "```")
      with (0x60%N :: [0x60%N; 0x60%N; a; b; c; d] ++ body ++ js "```").
    cbn [removeMatches].
    assert (startsWithCI (js "```json")
              (0x60%N :: [0x60%N; 0x60%N; a; b; c; d] ++ body ++ js "```")
            = true) as ->.
    { change (js "```json")
        with [0x60%N; 0x60%N; 0x60%N; 0x6A%N; 0x73%N; 0x6F%N; 0x6E%N].
      cbn [startsWithCI app]. rewrite Ha, Hb, Hc, Hd. reflexivity. }
    change (7 - 1) with (length [0x60%N; 0x60%N; a; b; c; d]).
    rewrite removeMatches_skip.
    rewrite (removeMatches_plain _ _ _ _ startsWithCI_fence Hbody).
    reflexivity. }
  rewrite Hfirst.
  rewrite (removeMatches_plain _ _ _ _ startsWith_fence Hbody).
  change (removeMatches (startsWith (js "```")) 3 0 (js "```")) with (@nil N).
  apply app_nil_r.
Qed.

Lemma cleanReply_plain (body : jsstring) :
  0x60%N ∉ body -> cleanReply body = trim body.
Proof.
  intros Hbody. unfold cleanReply. f_equal.
  rewrite <- (app_nil_r body).
  rewrite (removeMatches_plain _ _ _ _ startsWithCI_fence Hbody).
  rewrite (removeMatches_plain _ _ _ _ startsWith_fence Hbody).
  reflexivity.
Qed.

(** X29: a chat reply wrapped in a code fence, with the tag [json] in
    any mix of cases, is read like the bare reply: both generators return
    for it what they return for the text between the fences, when that
    text has no backtick of its own. *)
Theorem generators_ignore_fence (tag body : jsstring) parseSongs parseTerms :
  asciiUpper <$> tag = js "JSON" ->
  0x60%N ∉ body ->
  generateSongsWithAI
    (Normal (Some (js "```" ++ tag ++ body ++ js "```"))) parseSongs
  = generateSongsWithAI (Normal (Some body)) parseSongs
  /\ generatePodcastTermsWithAI
       (Normal (Some (js "```" ++ tag ++ body ++ js "```"))) parseTerms
     = generatePodcastTermsWithAI (Normal (Some body)) parseTerms.
Proof.
  intros Htag Hbody.
  unfold generateSongsWithAI, generatePodcastTermsWithAI. cbn [bind].
  rewrite (cleanReply_fenced_body _ _ Htag Hbody).
  rewrite (cleanReply_plain _ Hbody).
  assert (Hfence : truthy (js "```" ++ tag ++ body ++ js "```") = true)
    by reflexivity.
  rewrite Hfence. cbn [negb].
  destruct body as [|c body]; [split; reflexivity|].
  cbn [truthy negb]. split; reflexivity.
Qed.

(** ** The cache after a songs request *)

Lemma storePoster_keeps cache k sent c k' :
  is_Some (cache !! k') -> is_Some (store (storePoster cache k sent c) !! k').
Proof.
  intros H. destruct c as [v|]; cbn; [|exact H].
  rewrite lookup_insert. case_decide; [eauto | exact H].
Qed.

Lemma startPoster_keeps cache title artist k :
  is_Some (cache !! k) -> is_Some ((startPoster cache title artist).2 !! k).
Proof.
  intros H. unfold startPoster.
  destruct (cache !! keyOf title artist); [exact H|].
  destruct (negb (truthy _)); [|exact H].
  apply storePoster_keeps, H.
Qed.

Lemma finishPoster_keeps cache net l k :
  is_Some (cache !! k) -> is_Some ((finishPoster cache net l).2 !! k).
Proof.
  intros H. destruct l; [exact H|]. apply storePoster_keeps, H.
Qed.

Lemma startAll_keeps cache songs k :
  is_Some (cache !! k) -> is_Some ((startAll cache songs).2 !! k).
Proof.
  revert cache. induction songs as [|song songs IH]; intros cache H;
    [exact H|].
  cbn [startAll].
  pose proof (startPoster_keeps cache (fieldValue (Song.title song))
                (fieldValue (Song.artist song)) k H) as H1.
  destruct (startPoster _ _ _) as [l c1]. specialize (IH c1 H1).
  destruct (startAll c1 songs) as [ls c2]. exact IH.
Qed.

Lemma finishAll_keeps cache net lookups order k :
  is_Some (cache !! k) ->
  is_Some (finishAll cache net lookups order !! k).
Proof.
  unfold finishAll. revert cache.
  induction order as [|i order IH]; intros cache H; [exact H|].
  cbn [foldl]. apply IH.
  destruct (lookups !! i); [apply finishPoster_keeps, H | exact H].
Qed.

Lemma storePoster_other cache k sent c k' :
  k' <> k -> store (storePoster cache k sent c) !! k' = cache !! k'.
Proof.
  intros H. destruct c as [v|]; cbn; [|reflexivity].
  apply lookup_insert_ne. congruence.
Qed.

Lemma startPoster_other cache title artist k :
  k <> keyOf title artist ->
  (startPoster cache title artist).2 !! k = cache !! k.
Proof.
  intros H. unfold startPoster.
  destruct (cache !! keyOf title artist); [reflexivity|].
  destruct (negb (truthy _)); [|reflexivity].
  apply storePoster_other, H.
Qed.

(** A lookup that is waiting for its answer has the key of its song. *)
Lemma startPoster_waiting cache title artist kw url t a :
  (startPoster cache title artist).1 = Waiting kw url t a ->
  kw = keyOf title artist.
Proof.
  unfold startPoster. destruct (cache !! keyOf title artist);
    [discriminate|].
  destruct (negb (truthy _)); [discriminate|].
  intros [= <- _ _ _]. reflexivity.
Qed.

Lemma startAll_other cache songs k :
  (forall song, song ∈ songs ->
     k <> keyOf (fieldValue (Song.title song))
                (fieldValue (Song.artist song))) ->
  (startAll cache songs).2 !! k = cache !! k
  /\ forall i kw url t a,
       (startAll cache songs).1 !! i = Some (Waiting kw url t a) -> kw <> k.
Proof.
  revert cache. induction songs as [|song songs IH]; intros cache Hk.
  { split; [reflexivity|]. intros i kw url t a Hi. discriminate. }
  assert (Hsong : k <> keyOf (fieldValue (Song.title song))
                             (fieldValue (Song.artist song)))
    by (apply Hk; left).
  assert (Hrest : forall s, s ∈ songs ->
             k <> keyOf (fieldValue (Song.title s))
                        (fieldValue (Song.artist s)))
    by (intros s Hs; apply Hk; right; exact Hs).
  cbn [startAll].
  pose proof (startPoster_other cache (fieldValue (Song.title song))
                (fieldValue (Song.artist song)) k Hsong) as H1.
  pose proof (startPoster_waiting cache (fieldValue (Song.title song))
                (fieldValue (Song.artist song))) as Hw.
  destruct (startPoster _ _ _) as [l c1]. cbn [fst snd] in H1, Hw.
  destruct (IH c1 Hrest) as [H2 H3].
  destruct (startAll c1 songs) as [ls c2]. cbn [fst snd] in *.
  split; [congruence|].
  intros [|i] kw url t a Hi; simpl in Hi.
  - injection Hi as ->. rewrite (Hw _ _ _ _ eq_refl). congruence.
  - exact (H3 _ _ _ _ _ Hi).
Qed.

Lemma finishAll_other cache net lookups order k :
  (forall i kw url t a,
     lookups !! i = Some (Waiting kw url t a) -> kw <> k) ->
  finishAll cache net lookups order !! k = cache !! k.
Proof.
  intros Hw. unfold finishAll. revert cache.
  induction order as [|i order IH]; intros cache; [reflexivity|].
  cbn [foldl]. rewrite IH.
  destruct (lookups !! i) as [[c|kw url t a]|] eqn:Hi; try reflexivity.
  cbn [finishPoster snd]. apply storePoster_other.
  intros ->. exact (Hw _ _ _ _ _ Hi eq_refl).
Qed.

(** X6: no entry of the poster cache is ever removed.  After a songs
    request, in whatever order its lookups end, every key the cache held
    is still there and every key that is not the key of one of the
    generated songs has the value it had; and a lookup whose key is in
    the cache when it starts writes nothing, then or when it ends,
    whatever the cache holds by then.  The value under the key of a
    song can be replaced in between: see [moodSongs_replaces_poster]. *)
Theorem moodSongs_cache_persists cache songsAI net order mood :
  (forall k,
     is_Some (cache !! k) ->
     is_Some (store (moodSongs cache songsAI net order mood) !! k))
  /\ (forall k,
        (forall songs song,
           songsAI = Normal songs -> song ∈ songs ->
           k <> keyOf (fieldValue (Song.title song))
                      (fieldValue (Song.artist song))) ->
        store (moodSongs cache songsAI net order mood) !! k = cache !! k)
  /\ (forall title artist cache',
        is_Some (cache !! keyOf title artist) ->
        (startPoster cache title artist).2 = cache
        /\ (finishPoster cache' net (startPoster cache title artist).1).2
           = cache').
Proof.
  assert (Hrun : store (moodSongs cache songsAI net order mood) = cache
                 \/ exists songs,
                      songsAI = Normal songs
                      /\ store (moodSongs cache songsAI net order mood)
                         = finishAll (startAll cache songs).2 net
                                     (startAll cache songs).1 order).
  { unfold moodSongs. destruct (negb (truthy _)); [left; reflexivity|].
    destruct songsAI as [songs|]; [|left; reflexivity].
    right. exists songs. split; [reflexivity|].
    destruct (startAll cache songs); reflexivity. }
  split; [|split].
  - intros k Hk. destruct Hrun as [-> | (songs & _ & ->)]; [exact Hk|].
    apply finishAll_keeps, startAll_keeps, Hk.
  - intros k Hk. destruct Hrun as [-> | (songs & Hs & ->)]; [reflexivity|].
    destruct (startAll_other cache songs k (fun s => Hk songs s Hs))
      as [H1 H2].
    rewrite (finishAll_other _ net _ order k H2). exact H1.
  - intros title artist cache' [v Hv]. unfold startPoster. rewrite Hv.
    split; reflexivity.
Qed.

(** A lookup that can build its placeholder leaves a value under its
    key, in the first half or in the second. *)
Lemma startPoster_fills cache net song ph :
  buildPlaceholderPoster (fieldValue (Song.title song))
                         (fieldValue (Song.artist song)) = Normal ph ->
  is_Some ((startPoster cache (fieldValue (Song.title song))
                        (fieldValue (Song.artist song))).2
             !! keyOf (fieldValue (Song.title song))
                      (fieldValue (Song.artist song)))
  \/ forall cache',
       is_Some ((finishPoster cache' net
                   (startPoster cache (fieldValue (Song.title song))
                                (fieldValue (Song.artist song))).1).2
                  !! keyOf (fieldValue (Song.title song))
                           (fieldValue (Song.artist song))).
Proof.
  intros Hph. unfold startPoster.
  destruct (cache !! keyOf _ _) as [v|] eqn:Hc; [left; eauto|].
  destruct (negb (truthy _)).
  - left. rewrite Hph. cbn. rewrite lookup_insert_eq. eauto.
  - right. intros cache'. cbn [fst finishPoster].
    rewrite placeholderOrDefault_eq, Hph.
    destruct (posterAttempt _ _ _ _); cbn; rewrite lookup_insert_eq; eauto.
Qed.

Lemma startAll_fills cache songs i song net ph :
  songs !! i = Some song ->
  buildPlaceholderPoster (fieldValue (Song.title song))
                         (fieldValue (Song.artist song)) = Normal ph ->
  is_Some ((startAll cache songs).2
             !! keyOf (fieldValue (Song.title song))
                      (fieldValue (Song.artist song)))
  \/ exists l,
       (startAll cache songs).1 !! i = Some l
       /\ forall cache',
            is_Some ((finishPoster cache' net l).2
                       !! keyOf (fieldValue (Song.title song))
                                (fieldValue (Song.artist song))).
Proof.
  revert cache i. induction songs as [|s0 songs IH]; intros cache i Hi Hph;
    [discriminate|].
  cbn [startAll].
  destruct (startPoster cache (fieldValue (Song.title s0))
                        (fieldValue (Song.artist s0))) as [l c1] eqn:Hl.
  destruct i as [|i]; simpl in Hi.
  - injection Hi as ->.
    destruct (startAll c1 songs) as [ls c2] eqn:Hrest. cbn [fst snd].
    assert (Hc1 : c1 = (startPoster cache (fieldValue (Song.title song))
                          (fieldValue (Song.artist song))).2)
      by (rewrite Hl; reflexivity).
    assert (Hl1 : l = (startPoster cache (fieldValue (Song.title song))
                         (fieldValue (Song.artist song))).1)
      by (rewrite Hl; reflexivity).
    destruct (startPoster_fills cache net song ph Hph) as [Hnow | Hlater].
    + left. rewrite <- Hc1 in Hnow.
      pose proof (startAll_keeps c1 songs _ Hnow) as H2.
      rewrite Hrest in H2. exact H2.
    + right. exists l. split; [reflexivity|]. rewrite Hl1. exact Hlater.
  - specialize (IH c1 i Hi Hph).
    destruct (startAll c1 songs) as [ls c2]. cbn [fst snd] in *. exact IH.
Qed.

(** X30: a songs request leaves a poster under the key of every song
    whose placeholder can be built, once the lookup of that song has
    ended, whatever the order in which the lookups end. *)
Theorem moodSongs_fills_cache cache songs net order mood i song ph :
  trim (orEmpty mood) <> [] ->
  songs !! i = Some song ->
  i ∈ order ->
  buildPlaceholderPoster (fieldValue (Song.title song))
                         (fieldValue (Song.artist song)) = Normal ph ->
  is_Some (store (moodSongs cache (Normal songs) net order mood)
             !! keyOf (fieldValue (Song.title song))
                      (fieldValue (Song.artist song))).
Proof.
  intros Hm Hi Hin Hph. rewrite (moodSongs_live _ _ _ _ _ Hm). cbn [store].
  destruct (startAll_fills cache songs i song net ph Hi Hph)
    as [Hnow | (l & Hl & Hlater)].
  - apply finishAll_keeps, Hnow.
  - apply list_elem_of_split in Hin as (o1 & o2 & ->).
    unfold finishAll. rewrite foldl_app. cbn [foldl]. rewrite Hl.
    apply (finishAll_keeps _ net (startAll cache songs).1 o2), Hlater.
Qed.

End Engine.

(** * Concrete runs

    The engine's case mapping is instantiated with its restriction to
    Basic Latin; every string below is in Basic Latin. *)

Local Open Scope nat_scope.

(** C2 fails as stated: with an empty title and an empty artist the
    returned URL ends in [No%20Cover]; it does not contain [No+Cover] and
    is not the generic placeholder. *)
Lemma fetchItunesPoster_empty_not_plus :
  result (fetchItunesPoster asciiLowerCase ∅ offline (Some []) (Some []))
  = Normal noCoverUrl
  /\ ~ (includes (js "No+Cover") noCoverUrl = true
        \/ noCoverUrl = POSTER_PLACEHOLDER).
Proof.
  split; [reflexivity|]. intros [H|H]; vm_compute in H; discriminate.
Qed.

Lemma fetchItunesPoster_empty_witness :
  asciiLowerCase [] = []
  /\ (forall s, asciiLowerCase s = [] -> s = [])
  /\ result (fetchItunesPoster asciiLowerCase
               (store (fetchItunesPoster asciiLowerCase ∅ offline
                         (Some (js " ")) None))
               offline (Some []) (Some []))
     = Normal noCoverUrl.
Proof.
  assert (Hnil : asciiLowerCase [] = []) by reflexivity.
  assert (Hne : forall s, asciiLowerCase s = [] -> s = [])
    by (intros [|c s] H; [reflexivity | discriminate H]).
  split; [exact Hnil|]. split; [exact Hne|].
  apply (fetchItunesPoster_empty asciiLowerCase Hnil Hne).
  apply poster_step, poster_start.
Defined.

(** C3 fails as stated: in [cutPage] the first occurrence of the marker
    is followed by the eleven characters of [rickId], but no closing
    quote follows, the pattern does not match and the handler answers
    with two nulls. *)
Lemma resolveMusicUrl_needs_closing_quote :
  firstMarkerThenToken cutPage [] rickId []
  /\ result (resolveMusicUrl ∅ 0 0 (serve cutPage) (queryRequest (js "rick")))
     = Resolved (mkResolution None None)
  /\ result (resolveMusicUrl ∅ 0 0 (serve cutPage) (queryRequest (js "rick")))
     <> Resolved (mkResolution
          (Some (js "https://www.youtube.com/watch?v=" ++ rickId))
          (Some (js "https://music.youtube.com/watch?v=" ++ rickId))).
Proof.
  split; [repeat split; reflexivity|].
  split; [reflexivity | discriminate].
Qed.

Lemma resolveMusicUrl_first_video_witness :
  extractFirstVideoId (Some rickPage) = Some rickId
  /\ result (resolveMusicUrl ∅ 0 0 (serve rickPage) (queryRequest (js "rick")))
     = Resolved (mkResolution
         (Some (js "https://www.youtube.com/watch?v=" ++ rickId))
         (Some (js "https://music.youtube.com/watch?v=" ++ rickId))).
Proof.
  apply (resolveMusicUrl_first_video ∅ 0 0 (serve rickPage)
           (queryRequest (js "rick")) rickPage
           (js "<script>var ytInitialData = {") rickId (js ",}</script>")).
  - reflexivity.
  - reflexivity.
  - reflexivity.
  - repeat split; reflexivity.
Defined.

Lemma resolveMusicUrl_negative_cached_witness :
  result (resolveMusicUrl ∅ 0 5 offline (queryRequest (js "silence")))
  = Resolved (mkResolution None None)
  /\ fetched (resolveMusicUrl
       (store (resolveMusicUrl ∅ 0 5 offline (queryRequest (js "silence"))))
       3600004 3600004 (serve rickPage) (queryRequest (js " silence ")))
     = [].
Proof.
  destruct (resolveMusicUrl_negative_cached ∅ 0 5 offline
              (queryRequest (js "silence")))
    as (Hres & _ & Hagain).
  - reflexivity.
  - reflexivity.
  - apply (fetch_rejected _ _ NetworkError). reflexivity.
  - split; [exact Hres|].
    apply (Hagain 3600004%Z 3600004%Z (serve rickPage)
             (queryRequest (js " silence "))).
    + reflexivity.
    + reflexivity.
Defined.

Lemma resolve_cache_expiry_witness :
  getFromResolveCache
    (store (resolveMusicUrl ∅ 0 5 (serve rickPage) (queryRequest (js "rick"))))
    3600005 (js "rick")
  = (None,
     delete (js "rick")
       (store (resolveMusicUrl ∅ 0 5 (serve rickPage)
                               (queryRequest (js "rick")))))
  /\ getFromResolveCache
       (store (resolveMusicUrl ∅ 0 5 (serve rickPage)
                               (queryRequest (js "rick"))))
       3600004 (js "rick")
     = (Some (mkResolution
          (Some (js "https://www.youtube.com/watch?v=" ++ rickId))
          (Some (js "https://music.youtube.com/watch?v=" ++ rickId))),
        store (resolveMusicUrl ∅ 0 5 (serve rickPage)
                               (queryRequest (js "rick")))).
Proof.
  destruct (resolve_cache_expiry
              (store (resolveMusicUrl ∅ 0 5 (serve rickPage)
                                      (queryRequest (js "rick"))))
              (js "rick")
              (mkEntry (mkResolution
                 (Some (js "https://www.youtube.com/watch?v=" ++ rickId))
                 (Some (js "https://music.youtube.com/watch?v=" ++ rickId)))
                 3600005))
    as (Hstale & Hfresh & _).
  - apply resolve_step, resolve_start.
  - vm_compute. reflexivity.
  - split.
    + apply (Hstale 3600005%Z). simpl. lia.
    + apply (Hfresh 3600004%Z). simpl. lia.
Defined.

(** C6 fails as stated.  When both terms' results hold the entry with
    [collectionId] 42 and that entry has no name, the final list is empty:
    it has no entry with that id, not exactly one.  And two entries with
    [collectionId] 0, the same identity in the specification's words, are
    both in the final list. *)
Lemma moodPodcasts_not_exactly_one :
  (gatherPodcasts (serve (mkPodcastData (Some [unnamed42])))
                  [js "sleep"; js "rain"] [] []).1
  = [toPodcast unnamed42; toPodcast unnamed42]
  /\ result (moodPodcasts asciiLowerCase ∅ 0 0 twoTerms
              (serve (mkPodcastData (Some [unnamed42]))) (Some (js "calm")))
     = Json []
  /\ countId 42 [] <> 1
  /\ result (moodPodcasts asciiLowerCase ∅ 0 0 twoTerms
              (serve (mkPodcastData (Some [zeroA; zeroB]))) (Some (js "calm")))
     = Json [toPodcast zeroA; toPodcast zeroB]
  /\ specIdentity (toPodcast zeroA) = specIdentity (toPodcast zeroB)
  /\ ~ NoDup (specIdentity <$> [toPodcast zeroA; toPodcast zeroB]).
Proof.
  split; [reflexivity|]. split; [vm_compute; reflexivity|].
  split; [discriminate|]. split; [vm_compute; reflexivity|].
  split; [reflexivity|].
  intros H. apply NoDup_cons in H as [H _]. apply H. left.
Qed.

Lemma moodPodcasts_bounded_deduplicated_witness :
  result (moodPodcasts asciiLowerCase ∅ 0 0 twoTerms
            (serve (mkPodcastData (Some [named42; named7])))
            (Some (js "calm")))
  = Json [toPodcast named42; toPodcast named7]
  /\ gathered (serve (mkPodcastData (Some [named42; named7])))
              (js "calm") [js "sleep"; js "rain"]
     = [toPodcast named42; toPodcast named7;
        toPodcast named42; toPodcast named7]
  /\ length [toPodcast named42; toPodcast named7] <= 20
  /\ countId 42 [toPodcast named42; toPodcast named7] = 1.
Proof.
  assert (Hrun : result (moodPodcasts asciiLowerCase ∅ 0 0 twoTerms
                   (serve (mkPodcastData (Some [named42; named7])))
                   (Some (js "calm")))
                 = Json [toPodcast named42; toPodcast named7])
    by (vm_compute; reflexivity).
  assert (Hall : gathered (serve (mkPodcastData (Some [named42; named7])))
                   (js "calm") [js "sleep"; js "rain"]
                 = [] ++ toPodcast named42
                   :: [toPodcast named7; toPodcast named42; toPodcast named7])
    by (vm_compute; reflexivity).
  split; [exact Hrun|]. split; [exact Hall|].
  destruct (moodPodcasts_bounded_deduplicated asciiLowerCase ∅ 0 0 twoTerms
              (serve (mkPodcastData (Some [named42; named7])))
              (Some (js "calm")) [toPodcast named42; toPodcast named7]
              (podcast_start asciiLowerCase) Hrun)
    as (Hlen & _ & _ & _ & Hone).
  split; [exact Hlen|].
  apply (Hone [js "sleep"; js "rain"] [] (toPodcast named42)
              [toPodcast named7; toPodcast named42; toPodcast named7] 42%Z).
  - reflexivity.
  - reflexivity.
  - exact Hall.
  - discriminate.
  - reflexivity.
  - intros x Hx. inversion Hx.
  - reflexivity.
  - simpl. lia.
Defined.

Lemma moodPodcasts_only_usable_witness :
  result (moodPodcasts asciiLowerCase ∅ 0 0 twoTerms
            (serve (mkPodcastData (Some [unnamed42; named7; named7])))
            (Some (js "calm")))
  = Json [toPodcast named7]
  /\ toPodcast unnamed42 ∉ [toPodcast named7].
Proof.
  assert (Hrun : result (moodPodcasts asciiLowerCase ∅ 0 0 twoTerms
                   (serve (mkPodcastData (Some [unnamed42; named7; named7])))
                   (Some (js "calm")))
                 = Json [toPodcast named7])
    by (vm_compute; reflexivity).
  split; [exact Hrun|].
  destruct (moodPodcasts_only_usable asciiLowerCase ∅ 0 0 twoTerms
              (serve (mkPodcastData (Some [unnamed42; named7; named7])))
              (Some (js "calm")) [toPodcast named7]
              (podcast_start asciiLowerCase) Hrun)
    as (_ & Hlack & _).
  apply Hlack. left. reflexivity.
Defined.

Lemma keyOf_normalizes_witness :
  keyOf asciiLowerCase (Some (js "Imagine")) (Some (js "John Lennon"))
  = keyOf asciiLowerCase (Some (js "  imagine ")) (Some (js "JOHN LENNON")).
Proof.
  destruct (keyOf_normalizes asciiLowerCase) as (_ & _ & H).
  apply H. intros s _. reflexivity.
Defined.

Lemma fetchItunesPoster_hi_res_witness :
  result (fetchItunesPoster asciiLowerCase ∅ (serve artworkData)
            (Some (js "Imagine")) (Some (js "John Lennon")))
  = Normal (js "https://is1.mzstatic.com/a/600x600bb.jpg").
Proof.
  destruct (fetchItunesPoster_hi_res asciiLowerCase ∅ (serve artworkData)
              (Some (js "Imagine")) (Some (js "John Lennon"))
              (mkResponse true (Normal artworkData)) artworkData
              [mkCandidate None]
              [mkCandidate (Some (js "https://is1.mzstatic.com/b/100x100bb.jpg"))]
              (mkCandidate (Some (js "https://is1.mzstatic.com/a/100x100bb.jpg")))
              (js "https://is1.mzstatic.com/a/100x100bb.jpg"))
    as (pre & rest & Hurl & Hidx & Hhi & Hrun).
  - reflexivity.
  - reflexivity.
  - reflexivity.
  - reflexivity.
  - reflexivity.
  - reflexivity.
  - repeat constructor.
  - reflexivity.
  - reflexivity.
  - reflexivity.
Defined.

(** C10 fails as stated: an entry with [collectionId] 0 and no title
    precedes a usable entry with the same [collectionId]; the loop
    identifies them by their texts, which differ, and keeps the later
    one. *)
Lemma dedupe_zero_id_not_consumed :
  unusable untitled0 = true
  /\ unusable usable0 = false
  /\ specIdentity untitled0 = specIdentity usable0
  /\ dedupeUsable [untitled0; usable0] = [usable0].
Proof. repeat split; reflexivity. Qed.

Lemma dedupe_identity_consumed_by_unusable_witness :
  dedupeUsable ([] ++ linkless42 :: [] ++ usable42 :: [])
  = dedupeUsable ([] ++ linkless42 :: [] ++ [])
  /\ usable42 ∉ dedupeUsable ([] ++ linkless42 :: [] ++ usable42 :: []).
Proof.
  destruct (dedupe_identity_consumed_by_unusable
              [] linkless42 [] usable42 [])
    as (Hsame & Hfirst).
  - reflexivity.
  - reflexivity.
  - reflexivity.
  - split; [exact Hsame|]. apply Hfirst. intros x Hx. inversion Hx.
Defined.

(** * Further concrete runs *)

Example cleanReply_fenced :
  cleanReply fencedReply = [0x5B%N; dquote] ++ js "calm" ++ [dquote; 0x5D%N].
Proof. reflexivity. Qed.

Example matchArray_sample :
  matchArray (js "Here: [1, [2]] and ] more")
  = Some (js "[1, [2]] and ]").
Proof. reflexivity. Qed.

Example cleanTerms_sample :
  generatePodcastTermsWithAI (Normal (Some fencedReply)) sixTerms
  = Normal [js "sleep"; js "rain"; js "focus"; js "calm"; js "walk"].
Proof. reflexivity. Qed.

(** One song whose lookup raises empties the reply for all songs. *)
Example moodSongs_poisoned :
  result (moodSongs asciiLowerCase ∅ (Normal [imagineSong; cutSong]) offline
            [0; 1] (Some (js "happy")))
  = SongsJson [].
Proof. vm_compute. reflexivity. Qed.

Lemma toHiResArtwork_without_token_witness :
  toHiResArtwork (Some (js "https://a.example/cover.png"))
  = Some (js "https://a.example/cover.png").
Proof.
  apply toHiResArtwork_without_token; [discriminate | reflexivity].
Defined.

Lemma toHiResArtwork_length_witness :
  length (js "https://a.example/x/600x600bb.jpg")
  = length (js "https://a.example/x/100x100bb.jpg").
Proof.
  apply (toHiResArtwork_length (js "https://a.example/x/100x100bb.jpg")
                               (js "https://a.example/x/600x600bb.jpg")).
  reflexivity.
Defined.

Lemma buildPlaceholderPoster_url_safe_witness :
  exists e,
    js "https://dummyimage.com/600x600/111/fff&text=Imagine%20John%20Lennon"
    = js "https://dummyimage.com/600x600/111/fff&text=" ++ e
    /\ forallb isUriChar e = true
    /\ length e <= 540
    /\ length
         (js "https://dummyimage.com/600x600/111/fff&text=Imagine%20John%20Lennon")
       <= 584.
Proof.
  apply (buildPlaceholderPoster_url_safe
           (Some (js "Imagine")) (Some (js "John Lennon"))).
  - intros s [= <-]. reflexivity.
  - intros s [= <-]. reflexivity.
  - reflexivity.
Defined.

Lemma fetchItunesPoster_raises_only_uri_error_witness :
  URIError = URIError
  /\ isWellFormed (slice0 60 (placeholderText (Some cutTitle) None)) = false
  /\ (∅ : gmap jsstring jsstring) !! keyOf asciiLowerCase (Some cutTitle) None
     = None
  /\ store (fetchItunesPoster asciiLowerCase ∅ offline (Some cutTitle) None)
     = ∅.
Proof.
  apply (fetchItunesPoster_raises_only_uri_error asciiLowerCase ∅ offline
           (Some cutTitle) None URIError).
  vm_compute. reflexivity.
Defined.


Lemma fetchItunesPoster_never_empty_witness :
  js "https://is1.mzstatic.com/a/600x600bb.jpg" <> [].
Proof.
  apply (fetchItunesPoster_never_empty asciiLowerCase ∅ (serve artworkData)
           (Some (js "Imagine")) (Some (js "John Lennon"))
           (js "https://is1.mzstatic.com/a/600x600bb.jpg")).
  - apply poster_start.
  - vm_compute. reflexivity.
Defined.

Lemma fetchItunesPoster_no_artwork_witness :
  fetchItunesPoster asciiLowerCase ∅ (serve (mkCatalogData None))
    (Some (js "Imagine")) (Some (js "John Lennon"))
  = storePoster ∅
      (keyOf asciiLowerCase (Some (js "Imagine")) (Some (js "John Lennon")))
      [posterSearchUrl (posterTerm (Some (js "Imagine"))
                                   (Some (js "John Lennon")))]
      (buildPlaceholderPoster (Some (js "Imagine")) (Some (js "John Lennon"))).
Proof.
  apply (fetchItunesPoster_no_artwork asciiLowerCase ∅
           (serve (mkCatalogData None))
           (Some (js "Imagine")) (Some (js "John Lennon"))
           (mkResponse true (Normal (mkCatalogData None)))
           (mkCatalogData None)).
  - reflexivity.
  - reflexivity.
  - reflexivity.
  - reflexivity.
  - reflexivity.
  - constructor.
Defined.

Lemma resolveCache_round_trip_witness :
  getFromResolveCache
    (setResolveCache ∅ 5 (js "rick") None None) 3600004 (js "rick")
  = (Some (mkResolution None None),
     setResolveCache ∅ 5 (js "rick") None None).
Proof.
  destruct (resolveCache_round_trip ∅ 5 (js "rick") None None)
    as (Hfresh & _); [discriminate|].
  apply Hfresh. lia.
Defined.

Lemma resolveMusicUrl_answer_cached_witness :
  exists expiry,
    store (resolveMusicUrl ∅ 0 5 (serve rickPage) (queryRequest (js "rick")))
      !! resolveKey (queryRequest (js "rick"))
    = Some (mkEntry
              (mkResolution
                 (Some (js "https://www.youtube.com/watch?v=" ++ rickId))
                 (Some (js "https://music.youtube.com/watch?v=" ++ rickId)))
              expiry)
    /\ (fetched (resolveMusicUrl ∅ 0 5 (serve rickPage)
                                 (queryRequest (js "rick"))) <> [] ->
        expiry = 3600005%Z).
Proof.
  destruct (resolveMusicUrl_answer_cached ∅ 0 5 (serve rickPage)
              (queryRequest (js "rick"))
              (mkResolution
                 (Some (js "https://www.youtube.com/watch?v=" ++ rickId))
                 (Some (js "https://music.youtube.com/watch?v=" ++ rickId))))
    as (expiry & Hentry & Hexp & _).
  - vm_compute. reflexivity.
  - exists expiry. split; [exact Hentry | exact Hexp].
Defined.

Lemma resolveMusicUrl_answer_paired_witness :
  pairedResolution
    (mkResolution
       (Some (js "https://www.youtube.com/watch?v=" ++ rickId))
       (Some (js "https://music.youtube.com/watch?v=" ++ rickId))).
Proof.
  apply (resolveMusicUrl_answer_paired ∅ 0 5 (serve rickPage)
           (queryRequest (js "rick"))).
  - apply resolve_start.
  - vm_compute. reflexivity.
Defined.

Lemma extractFirstVideoId_leftmost_token_witness :
  length rickId = 11 /\ forallb isIdChar rickId = true.
Proof.
  destruct (extractFirstVideoId_leftmost_token rickPage rickId)
    as (Hl & Hc & _); [reflexivity|].
  split; [exact Hl | exact Hc].
Defined.

Lemma moodPodcasts_answer_cached_witness :
  exists l,
    result (moodPodcasts asciiLowerCase ∅ 0 5 twoTerms
              (serve (mkPodcastData (Some [named7]))) (Some (js "Calm")))
    = Json l
    /\ moodPodcasts asciiLowerCase
         (store (moodPodcasts asciiLowerCase ∅ 0 5 twoTerms
                   (serve (mkPodcastData (Some [named7]))) (Some (js "Calm"))))
         600004 600004 (fun _ => Throw NetworkError) offline
         (Some (js " CALM "))
       = mkRun (Json l)
           (store (moodPodcasts asciiLowerCase ∅ 0 5 twoTerms
                     (serve (mkPodcastData (Some [named7])))
                     (Some (js "Calm"))))
           [].
Proof.
  destruct (moodPodcasts_answer_cached asciiLowerCase ∅ 0 5 twoTerms
              (serve (mkPodcastData (Some [named7]))) (Some (js "Calm"))
              [js "sleep"; js "rain"])
    as (l & Hres & _ & Hagain).
  - discriminate.
  - reflexivity.
  - reflexivity.
  - exists l. split; [exact Hres|].
    apply Hagain; [discriminate | reflexivity | lia].
Defined.

Lemma moodSongs_all_or_nothing_witness :
  ([] : list SongEntry.t) = []
  \/ (length ([] : list SongEntry.t) = length [imagineSong; cutSong]
      /\ forall i song,
           [imagineSong; cutSong] !! i = Some song ->
           exists poster,
             ([] : list SongEntry.t) !! i
             = Some (SongEntry.mk (Song.title song) (Song.artist song)
                       (buildYoutubeSearchUrl
                          (fieldText (Song.title song))
                          (fieldText (Song.artist song)))
                       poster)).
Proof.
  apply (moodSongs_all_or_nothing asciiLowerCase ∅ [imagineSong; cutSong]
           offline [0; 1] (Some (js "happy"))).
  - discriminate.
  - vm_compute. reflexivity.
Defined.

Lemma moodSongs_complete_witness :
  exists entries,
    result (moodSongs asciiLowerCase ∅ (Normal [imagineSong; imagineSong])
              offline [1; 0] (Some (js "happy")))
    = SongsJson entries
    /\ length entries = 2.
Proof.
  apply (moodSongs_complete asciiLowerCase ∅ [imagineSong; imagineSong]
           offline [1; 0] (Some (js "happy"))).
  - discriminate.
  - intros song Hsong.
    assert (song = imagineSong) as ->.
    { apply elem_of_cons in Hsong as [H|H]; [exact H|].
      apply elem_of_cons in H as [H|H]; [exact H | inversion H]. }
    eexists. reflexivity.
Defined.

Lemma moodSongs_no_coalescing_witness :
  fetched (moodSongs asciiLowerCase ∅ (Normal (replicate 3 imagineSong))
             offline [] (Some (js "happy")))
  = replicate 3
      (posterSearchUrl (posterTerm (Some (js "Imagine"))
                                   (Some (js "John Lennon")))).
Proof.
  apply (moodSongs_no_coalescing asciiLowerCase ∅ imagineSong 3 offline []
           (Some (js "happy"))).
  - discriminate.
  - reflexivity.
  - reflexivity.
Defined.


Lemma buildYoutubeSearchUrl_chars_witness :
  exists e,
    buildYoutubeSearchUrl (js "undefined") [0xE9%N; 0x20%N; 0xD83D%N]
    = js "https://www.youtube.com/results?search_query=" ++ e
    /\ forallb isFormChar e = true.
Proof.
  apply buildYoutubeSearchUrl_chars; reflexivity.
Defined.

Example buildYoutubeSearchUrl_sample :
  buildYoutubeSearchUrl (js "undefined") [0xE9%N; 0x20%N; 0xD83D%N]
  = js "https://www.youtube.com/results?search_query=undefined+%C3%A9+%EF%BF%BD".
Proof. reflexivity. Qed.


Lemma generators_ignore_fence_witness :
  generatePodcastTermsWithAI
    (Normal (Some (js "```" ++ js "JsOn" ++ js "[1] " ++ js "```"))) sixTerms
  = generatePodcastTermsWithAI (Normal (Some (js "[1] "))) sixTerms.
Proof.
  apply (generators_ignore_fence (js "JsOn") (js "[1] ")
           (fun _ => Normal None) sixTerms).
  - reflexivity.
  - intros H. repeat (apply elem_of_cons in H as [H|H]; [discriminate H|]).
    inversion H.
Defined.

Lemma moodSongs_fills_cache_witness :
  is_Some (store (moodSongs asciiLowerCase ∅
                    (Normal [cutSong; imagineSong]) offline [1; 0]
                    (Some (js "happy")))
             !! keyOf asciiLowerCase (Some (js "Imagine"))
                                     (Some (js "John Lennon"))).
Proof.
  apply (moodSongs_fills_cache asciiLowerCase ∅ [cutSong; imagineSong]
           offline [1; 0] (Some (js "happy")) 1 imagineSong
           (js "https://dummyimage.com/600x600/111/fff&text=Imagine%20John%20Lennon")).
  - discriminate.
  - reflexivity.
  - left.
  - reflexivity.
Defined.

(** Two lookups of one songs request under one key: the placeholder
    stored when the first ends is replaced by the artwork when the
    second ends. *)
Example moodSongs_replaces_poster :
  keyOf asciiLowerCase (fieldValue (Song.title imagineSong))
        (fieldValue (Song.artist imagineSong))
  = keyOf asciiLowerCase (fieldValue (Song.title shoutedSong))
          (fieldValue (Song.artist shoutedSong))
  /\ store (moodSongs asciiLowerCase ∅ (Normal [imagineSong; shoutedSong])
              answersShouted [0] (Some (js "calm")))
       !! js "imagine - john lennon"
     = Some (js "https://dummyimage.com/600x600/111/fff&text=Imagine%20John%20Lennon")
  /\ store (moodSongs asciiLowerCase ∅ (Normal [imagineSong; shoutedSong])
              answersShouted [0; 1] (Some (js "calm")))
       !! js "imagine - john lennon"
     = Some (js "https://is1.mzstatic.com/a/600x600bb.jpg").
Proof.
  split; [reflexivity|]. split; vm_compute; reflexivity.
Qed.
